(** * gdal2mbtiles.vips: the tile pyramid engine

    A shallow embedding of [gdal2mbtiles/vips.py]: the geometry helpers of
    [VImage] ([_scale], [shrink], [stretch], [tms_align]), the slicer
    [TmsTiles] and the orchestrator [TmsPyramid].

    Modelling conventions.
    - Python numbers.  The module runs under [from __future__ import
      division], so [/] is true division.  Integers are [Z].  A float is
      the rational it denotes, and the file carries two readings of the
      float operations.
      In [VImage], [TmsTiles] and [TmsPyramid] every operation on floats is
      the operation on rationals.  The statements made over these
      definitions concern the structure of the pyramid (which calls are
      made, in which order, on which images), divisibility, bounds, and
      whole or dyadic scales and offsets; none of them gives the number
      computed from an arbitrary float.
      In [PyNum] and [VImage64] a number is an [int] or a binary64 float
      and every float operation rounds to the nearest binary64, ties to
      even, as CPython does.  The statements that give the numbers
      [_scale], [shrink], [stretch] and [tms_align] compute, for arbitrary
      scales and offsets, are made over these.  Infinities and NaN are
      outside both readings: rounding has no largest exponent.
    - The image kernel (vipsCC) is an external library whose handles are
      lazy descriptions of a computation.  An image is therefore the tree
      of kernel calls that produces it, together with the size the kernel
      gives it.
    - Exceptions are values of [Py.exn]; a method that can raise returns a
      [Py.result].
    - The storage object is shared and mutated by every level: it is
      threaded explicitly as the log of the calls made on it. *)

From Stdlib Require Import ZArith QArith Qround List Bool String Lia Lqa.
Import ListNotations.

Local Open Scope Z_scope.

(** ** Python primitives *)

Module Py.

(** The [ValueError]s of the module, by the message they carry. *)
Inductive value_error : Type :=
| InvalidFill (fill : string)
| XscaleShrinkRange (xscale : Q)
| YscaleShrinkRange (yscale : Q)
| XscaleStretchRange (xscale : Q)
| YscaleStretchRange (yscale : Q)
| WidthNotWholeTiles (image_width tile_width : Z)
| HeightNotWholeTiles (image_height tile_height : Z)
| MinResolutionRange (min_resolution resolution : Z)
| MaxResolutionRange (max_resolution resolution : Z)
| XrangeZeroStep.

Inductive exn : Type :=
| ValueError (e : value_error)
| AssertionError
| ZeroDivisionError
| UnboundLocalError.

Inductive result (A : Type) : Type :=
| Ok (a : A)
| Raise (e : exn).
Arguments Ok {A} a.
Arguments Raise {A} e.

Definition bind {A B : Type} (m : result A) (f : A -> result B) : result B :=
  match m with
  | Ok a => f a
  | Raise e => Raise e
  end.

(** [assert c] *)
Definition assert (c : bool) : result unit :=
  if c then Ok tt else Raise AssertionError.

(** [a < b] on numbers. *)
Definition Qlt_bool (a b : Q) : bool := negb (Qle_bool b a).

(** [int(q)]: truncation toward zero. *)
Definition int (q : Q) : Z :=
  if Qle_bool 0 q then Qfloor q else Qceiling q.

(** [round(q)] of Python 2: to the nearest integer, ties away from zero;
    the result is a float. *)
Definition round (q : Q) : Q :=
  inject_Z (if Qle_bool 0 q then Qfloor (q + (1 # 2))
            else Qceiling (q - (1 # 2))).

(** [math.ceil(q)]; the result is a float. *)
Definition ceil (q : Q) : Q := inject_Z (Qceiling q).

(** [a % b] on integers: the sign of the result follows the divisor. *)
Definition mod_ (a b : Z) : result Z :=
  if b =? 0 then Raise ZeroDivisionError else Ok (a mod b).

(** [range(start, stop)] *)
Definition range (start stop : Z) : list Z :=
  map (fun i => start + Z.of_nat i) (seq 0 (Z.to_nat (stop - start))).

(** Number of elements of [xrange(start, stop, step)], [step <> 0]. *)
Definition xrange_len (start stop step : Z) : Z :=
  if 0 <? step then
    if start <? stop then (stop - start - 1) / step + 1 else 0
  else
    if stop <? start then (start - stop - 1) / (- step) + 1 else 0.

(** The elements of [xrange(start, stop, step)], [step <> 0]. *)
Definition xrange_items (start stop step : Z) : list Z :=
  map (fun i => start + Z.of_nat i * step)
      (seq 0 (Z.to_nat (xrange_len start stop step))).

(** [xrange(start, stop, step)] *)
Definition xrange (start stop step : Z) : result (list Z) :=
  if step =? 0 then Raise (ValueError XrangeZeroStep)
  else Ok (xrange_items start stop step).

End Py.

Import Py.

Declare Scope py_scope.
Delimit Scope py_scope with py.
Notation "x <- m ;; k" := (Py.bind m (fun x => k))
  (at level 61, m at next level, right associativity) : py_scope.
Notation "m ;;; k" := (Py.bind m (fun _ => k))
  (at level 61, right associativity) : py_scope.

(** [gdal2mbtiles.types.XY] *)
Module XY.

Record t : Type := mk { x : Q; y : Q }.

End XY.

(** ** Binary64 *)

(** The floats of CPython are IEEE 754 binary64 numbers: a significand of
    53 bits and a smallest unit in the last place of [2^-1074].  A finite
    float is the rational it denotes. *)
Module Binary64.

(** [2^e] *)
Definition pow2 (e : Z) : Q :=
  if 0 <=? e then inject_Z (2 ^ e) else / inject_Z (2 ^ (- e)).

(** [floor(log2(q))], for [0 < q]. *)
Definition ilog2 (q : Q) : Z :=
  if Qle_bool 1 q then Z.log2 (Qfloor q) else - Z.log2_up (Qceiling (/ q)).

(** The nearest integer, ties to the even one. *)
Definition rne (q : Q) : Z :=
  let f := Qfloor q in
  match (q - inject_Z f ?= 1 # 2)%Q with
  | Lt => f
  | Gt => f + 1
  | Eq => if Z.even f then f else f + 1
  end.

(** The float nearest to [q], for [0 < q]: [q] is rounded to a whole
    number of units in the last place, [2^(floor(log2(q)) - 52)] or
    [2^-1074] for a subnormal. *)
Definition nearest_pos (q : Q) : Q :=
  let e := Z.max (ilog2 q - 52) (-1074) in
  (inject_Z (rne (q / pow2 e)) * pow2 e)%Q.

(** The float nearest to [q], ties to the even significand. *)
Definition nearest (q : Q) : Q :=
  match (q ?= 0)%Q with
  | Eq => 0%Q
  | Gt => nearest_pos q
  | Lt => (- nearest_pos (- q))%Q
  end.

(** [q] is a float. *)
Definition representable (q : Q) : Prop := (nearest q == q)%Q.

End Binary64.

(** ** Python numbers *)

(** A number of the program is an [int] (or [long]), which is exact, or a
    [float].  An operation on two ints is the integer operation; as soon
    as one operand is a float the other is converted and the result is
    rounded. *)
Module PyNum.

Import Binary64.

Inductive t : Type :=
| Int (z : Z)
| Float (q : Q).

(** The number as a rational. *)
Definition value (a : t) : Q :=
  match a with
  | Int z => inject_Z z
  | Float q => q
  end.

(** [float(a)] *)
Definition to_float (a : t) : Q :=
  match a with
  | Int z => nearest (inject_Z z)
  | Float q => q
  end.

(** [a + b] *)
Definition add (a b : t) : t :=
  match a, b with
  | Int x, Int y => Int (x + y)
  | _, _ => Float (nearest (to_float a + to_float b))
  end.

(** [a - b] *)
Definition sub (a b : t) : t :=
  match a, b with
  | Int x, Int y => Int (x - y)
  | _, _ => Float (nearest (to_float a - to_float b))
  end.

(** [a * b] *)
Definition mul (a b : t) : t :=
  match a, b with
  | Int x, Int y => Int (x * y)
  | _, _ => Float (nearest (to_float a * to_float b))
  end.

(** [a / b], true division, for [b] other than zero: the module divides by
    the literal [2] and by a tile side on which [%] has already
    succeeded.  The quotient of two ints is rounded once. *)
Definition div (a b : t) : t :=
  match a, b with
  | Int x, Int y => Float (nearest (inject_Z x / inject_Z y))
  | _, _ => Float (nearest (to_float a / to_float b))
  end.

(** [a < b] and [a <= b]: numbers are compared exactly. *)
Definition lt (a b : t) : bool := Qlt_bool (value a) (value b).

Definition le (a b : t) : bool := Qle_bool (value a) (value b).

(** [int(a)] *)
Definition int (a : t) : Z :=
  match a with
  | Int z => z
  | Float q => Py.int q
  end.

(** [round(a)] of Python 2: a float. *)
Definition round (a : t) : t := Float (Py.round (to_float a)).

(** [math.ceil(a)]: a float. *)
Definition ceil (a : t) : t := Float (Py.ceil (to_float a)).

End PyNum.

Declare Scope num_scope.
Delimit Scope num_scope with num.
Infix "+" := PyNum.add : num_scope.
Infix "-" := PyNum.sub : num_scope.
Infix "*" := PyNum.mul : num_scope.
Infix "/" := PyNum.div : num_scope.

(** [gdal2mbtiles.types.XY] over Python numbers. *)
Module XY64.

Record t : Type := mk { x : PyNum.t; y : PyNum.t }.

End XY64.

(** ** VImage *)

Module VImage.

(** An image handle: the kernel calls that produce it.  [Load] is an image
    read from a file or made by [new_rgba]; the other constructors are the
    kernel's [embed], [extract_area] and [affine], with the arguments the
    wrapper passes them. *)
Inductive t : Type :=
| Load (filename : string) (width height : Z)
| Embed (fill : Z) (left top width height : Z) (im : t)
| ExtractArea (left top width height : Z) (im : t)
| Affine (a b c d offset_x offset_y : Q)
         (output_x output_y output_width output_height : Z) (im : t).

Definition Xsize (im : t) : Z :=
  match im with
  | Load _ w _ => w
  | Embed _ _ _ w _ _ => w
  | ExtractArea _ _ w _ _ => w
  | Affine _ _ _ _ _ _ _ _ w _ _ => w
  end.

Definition Ysize (im : t) : Z :=
  match im with
  | Load _ _ h => h
  | Embed _ _ _ _ h _ => h
  | ExtractArea _ _ _ h _ => h
  | Affine _ _ _ _ _ _ _ _ _ h _ => h
  end.

Definition FILL_OPTIONS : list (string * Z) :=
  [ ("black", 0);        (* Fill bands with 0 *)
    ("extend", 1);       (* Extend bands from image to edge *)
    ("tile", 2);         (* Tile bands from image *)
    ("mirror", 3);       (* Mirror bands from image *)
    ("white", 4) ]%string.

Fixpoint lookup (key : string) (d : list (string * Z)) : option Z :=
  match d with
  | [] => None
  | (k, v) :: d' => if String.eqb key k then Some v else lookup key d'
  end.

(** The [fill] argument of [embed]: a name or the kernel's code. *)
Inductive fill_arg : Type :=
| FillName (name : string)
| FillCode (code : Z).

Definition embed (self : t) (fill : fill_arg) (left top width height : Z)
  : result t :=
  match fill with
  | FillName name =>
      match lookup name FILL_OPTIONS with
      | None => Raise (ValueError (InvalidFill name))
      | Some code => Ok (Embed code left top width height self)
      end
  | FillCode code => Ok (Embed code left top width height self)
  end.

(** The handle of an extract is built whatever the area; the kernel
    refuses an area that leaves the image.  That refusal is outside this
    constructor: a statement that relies on the extract being made is
    about areas that lie within the image. *)
Definition extract_area (self : t) (left top width height : Z) : t :=
  ExtractArea left top width height self.

(** [_scale], [shrink], [stretch] and [tms_align] over rationals; their
    binary64 readings are in [VImage64]. *)

Definition _scale (self : t) (xscale yscale : Q) : t :=
  let output_width := int (inject_Z (Xsize self) * xscale) in
  let output_height := int (inject_Z (Ysize self) * yscale) in
  let '(a, b, c, d) := (xscale, 0%Q, 0%Q, yscale) in
  let offset_x := ((a - 1) / 2)%Q in
  let offset_y := ((d - 1) / 2)%Q in
  let '(output_x, output_y) := (0, 0) in
  Affine a b c d offset_x offset_y
         output_x output_y output_width output_height self.

Definition shrink (self : t) (xscale yscale : Q) : result t :=
  if negb (Qlt_bool 0 xscale && Qle_bool xscale 1) then
    Raise (ValueError (XscaleShrinkRange xscale))
  else if negb (Qlt_bool 0 yscale && Qle_bool yscale 1) then
    Raise (ValueError (YscaleShrinkRange yscale))
  else Ok (_scale self xscale yscale).

Definition stretch (self : t) (xscale yscale : Q) : result t :=
  if Qlt_bool xscale 1 then
    Raise (ValueError (XscaleStretchRange xscale))
  else if Qlt_bool yscale 1 then
    Raise (ValueError (YscaleStretchRange yscale))
  else
    let border := (1, 1) in
    (extended <- embed self (FillName "extend") (fst border) (snd border)
                       (Xsize self + fst border * 2)
                       (Ysize self + snd border * 2) ;;
     let stretched := _scale extended xscale yscale in
     Ok (extract_area stretched
           (int (inject_Z (fst border) * xscale))
           (int (inject_Z (snd border) * yscale))
           (int (inject_Z (Xsize self) * xscale))
           (int (inject_Z (Ysize self) * yscale))))%py.

Definition tms_align (self : t) (tile_width tile_height : Z) (offset : XY.t)
  : result t :=
  (let _type := 0 in
   x <- mod_ (int (round (XY.x offset * inject_Z tile_width))) tile_width ;;
   y <- mod_ (int (round (inject_Z (Ysize self)
                          - XY.y offset * inject_Z tile_height)))
             tile_height ;;
   let tiles_x :=
     ceil ((inject_Z (Xsize self) + inject_Z x / 2) / inject_Z tile_width) in
   let tiles_y :=
     ceil ((inject_Z (Ysize self) + inject_Z y / 2) / inject_Z tile_height) in
   let width := int (tiles_x * inject_Z tile_width) in
   let height := int (tiles_y * inject_Z tile_height) in
   if (width =? Xsize self) && (height =? Ysize self) then
     assert ((x =? y) && (y =? 0)) ;;;
     Ok self
   else
     embed self (FillCode _type) x y width height)%py.

End VImage.

(** ** VImage in binary64 *)

(** The same methods with the arithmetic of the program: scales and
    offsets are Python numbers, each product, difference and quotient is
    the one of [PyNum].  The kernel's [affine] takes C doubles, so the
    numbers handed to it are converted. *)
Module VImage64.

Import VImage.
Import PyNum.

Definition _scale (self : VImage.t) (xscale yscale : PyNum.t) : VImage.t :=
  let output_width := PyNum.int (Int (Xsize self) * xscale)%num in
  let output_height := PyNum.int (Int (Ysize self) * yscale)%num in
  let '(a, b, c, d) := (xscale, Int 0, Int 0, yscale) in
  let offset_x := ((a - Int 1) / Int 2)%num in
  let offset_y := ((d - Int 1) / Int 2)%num in
  let '(output_x, output_y) := (0, 0) in
  Affine (to_float a) (to_float b) (to_float c) (to_float d)
         (to_float offset_x) (to_float offset_y)
         output_x output_y output_width output_height self.

Definition shrink (self : VImage.t) (xscale yscale : PyNum.t)
  : result VImage.t :=
  if negb (lt (Float 0) xscale && le xscale (Float 1)) then
    Raise (ValueError (XscaleShrinkRange (value xscale)))
  else if negb (lt (Float 0) yscale && le yscale (Float 1)) then
    Raise (ValueError (YscaleShrinkRange (value yscale)))
  else Ok (_scale self xscale yscale).

Definition stretch (self : VImage.t) (xscale yscale : PyNum.t)
  : result VImage.t :=
  if lt xscale (Float 1) then
    Raise (ValueError (XscaleStretchRange (value xscale)))
  else if lt yscale (Float 1) then
    Raise (ValueError (YscaleStretchRange (value yscale)))
  else
    let border := (1, 1) in
    (extended <- embed self (FillName "extend") (fst border) (snd border)
                       (Xsize self + fst border * 2)
                       (Ysize self + snd border * 2) ;;
     let stretched := _scale extended xscale yscale in
     Ok (extract_area stretched
           (PyNum.int (Int (fst border) * xscale)%num)
           (PyNum.int (Int (snd border) * yscale)%num)
           (PyNum.int (Int (Xsize self) * xscale)%num)
           (PyNum.int (Int (Ysize self) * yscale)%num)))%py.

Definition tms_align (self : VImage.t) (tile_width tile_height : Z)
  (offset : XY64.t) : result VImage.t :=
  (let _type := 0 in
   x <- mod_ (PyNum.int (PyNum.round (XY64.x offset * Int tile_width)%num))
             tile_width ;;
   y <- mod_ (PyNum.int (PyNum.round
                           (Int (Ysize self)
                            - XY64.y offset * Int tile_height)%num))
             tile_height ;;
   let tiles_x :=
     PyNum.ceil ((Int (Xsize self) + Int x / Int 2) / Int tile_width)%num in
   let tiles_y :=
     PyNum.ceil ((Int (Ysize self) + Int y / Int 2) / Int tile_height)%num in
   let width := PyNum.int (tiles_x * Int tile_width)%num in
   let height := PyNum.int (tiles_y * Int tile_height)%num in
   if (width =? Xsize self) && (height =? Ysize self) then
     assert ((x =? y) && (y =? 0)) ;;;
     Ok self
   else
     embed self (FillCode _type) x y width height)%py.

End VImage64.

(** ** Storage *)

(** The storage object handed to [TmsTiles] and [TmsPyramid] is external;
    the code only calls [save], [save_border] and [waitall] on it.  One
    object is shared by the pyramid and all its levels, so its state is the
    log of the calls received, oldest first. *)
Module Storage.

Inductive call : Type :=
| save (x y z : Z) (image : VImage.t)
| save_border (x y z : Z)
| waitall.

Definition t : Type := list call.

End Storage.

(** Methods that use the storage: the exception or the value, and the
    storage as the method leaves it (also when it raises). *)
Definition M (A : Type) : Type := Storage.t -> result A * Storage.t.

Definition ret {A : Type} (a : A) : M A := fun st => (Ok a, st).

Definition raise {A : Type} (e : exn) : M A := fun st => (Raise e, st).

Definition mbind {A B : Type} (m : M A) (f : A -> M B) : M B :=
  fun st =>
    match m st with
    | (Ok a, st') => f a st'
    | (Raise e, st') => (Raise e, st')
    end.

Definition lift {A : Type} (r : result A) : M A := fun st => (r, st).

Definition emit (c : Storage.call) : M unit := fun st => (Ok tt, st ++ [c]).

Declare Scope storage_scope.
Delimit Scope storage_scope with st.
Notation "x <~ m ;; k" := (mbind m (fun x => k))
  (at level 61, m at next level, right associativity) : storage_scope.
Notation "m ;;; k" := (mbind m (fun _ => k))
  (at level 61, right associativity) : storage_scope.

(** [for a in l: body(a)] *)
Fixpoint for_each {A : Type} (l : list A) (body : A -> M unit) : M unit :=
  match l with
  | [] => ret tt
  | a :: l' => (body a ;;; for_each l' body)%st
  end.

(** A [for] loop that rebinds a local variable of type [S]. *)
Fixpoint for_fold {A S : Type} (l : list A) (body : A -> S -> M S) (s : S)
  : M S :=
  match l with
  | [] => ret s
  | a :: l' => (s' <~ body a s ;; for_fold l' body s')%st
  end.

(** The same loop for a body that does not touch the storage. *)
Fixpoint fold_result {A S : Type} (l : list A) (body : A -> S -> result S)
  (s : S) : result S :=
  match l with
  | [] => Ok s
  | a :: l' => (s' <- body a s ;; fold_result l' body s')%py
  end.

(** ** TmsTiles *)

Module TmsTiles.

Record t : Type := mk {
  image : VImage.t;
  tile_width : Z;
  tile_height : Z;
  offset : XY.t;
  resolution : Z
}.

Definition image_width (self : t) : Z := VImage.Xsize (image self).

Definition image_height (self : t) : Z := VImage.Ysize (image self).

Definition fill_borders (self : t) (borders : list (Z * Z)) (resolution : Z)
  : M unit :=
  for_each borders (fun '(x, y) => emit (Storage.save_border x y resolution)).

(** The body of the inner loop of [_slice]: the call it makes on the
    storage. *)
Definition tile_call (self : t) (y x : Z) : Storage.call :=
  let out := VImage.extract_area (image self) x y
               (tile_width self) (tile_height self) in
  let offset_x :=
    int (inject_Z x / inject_Z (tile_width self) + XY.x (offset self)) in
  let offset_y :=
    int (inject_Z (image_height self - y) / inject_Z (tile_height self)
         + XY.y (offset self) - 1) in
  Storage.save offset_x offset_y (resolution self) out.

Definition slice_tile (self : t) (y x : Z) : M unit :=
  emit (tile_call self y x).

Definition _slice (self : t) : M unit :=
  (ys <~ lift (xrange 0 (image_height self) (tile_height self)) ;;
   for_each ys (fun y =>
     xs <~ lift (xrange 0 (image_width self) (tile_width self)) ;;
     for_each xs (fun x => slice_tile self y x)))%st.

Definition slice (self : t) : M unit :=
  (w <~ lift (mod_ (image_width self) (tile_width self)) ;;
   (if negb (w =? 0) then
      raise (ValueError (WidthNotWholeTiles (image_width self)
                                            (tile_width self)))
    else
      h <~ lift (mod_ (image_height self) (tile_height self)) ;;
      if negb (h =? 0) then
        raise (ValueError (HeightNotWholeTiles (image_height self)
                                               (tile_height self)))
      else ret tt) ;;;
   _slice self ;;;
   emit Storage.waitall)%st.

(** The local variables of the loop of [downsample]; [tiles] is unbound
    until the first iteration. *)
Record downsample_locals : Type := mk_locals {
  l_image : VImage.t;
  l_offset : XY.t;
  l_tiles : option t
}.

Definition downsample_step (self : t) (res : Z) (l : downsample_locals)
  : result downsample_locals :=
  (let offset := XY.mk (XY.x (l_offset l) / 2) (XY.y (l_offset l) / 2) in
   shrunk <- VImage.shrink (l_image l) (1 # 2) (1 # 2) ;;
   aligned <- VImage.tms_align shrunk (tile_width self) (tile_height self)
                               offset ;;
   let tiles := mk aligned (tile_width self) (tile_height self)
                   (XY.mk (inject_Z (int (XY.x offset)))
                         (inject_Z (int (XY.y offset))))
                   res in
   Ok (mk_locals (image tiles) offset (Some tiles)))%py.

Definition downsample (self : t) (levels : Z) : result t :=
  (assert ((levels <=? resolution self) && (0 <? levels)) ;;;
   l <- fold_result
          (rev (range (resolution self - levels) (resolution self)))
          (downsample_step self)
          (mk_locals (image self) (offset self) None) ;;
   match l_tiles l with
   | Some tiles => Ok tiles
   | None => Raise UnboundLocalError
   end)%py.

Definition upsample (self : t) (levels : Z) : result t :=
  (assert (0 <? levels) ;;;
   let scale := inject_Z (2 ^ levels) in
   let offset := XY.mk (XY.x (offset self) * scale)
                      (XY.y (offset self) * scale) in
   stretched <- VImage.stretch (image self) scale scale ;;
   aligned <- VImage.tms_align stretched (tile_width self)
                               (tile_height self) offset ;;
   Ok (mk aligned (tile_width self) (tile_height self)
          (XY.mk (inject_Z (int (XY.x offset)))
                (inject_Z (int (XY.y offset))))
          (resolution self + levels)))%py.

End TmsTiles.

(** ** The dataset collaborator *)

(** [gdal2mbtiles.gdal.Dataset] is consumed through three methods only. *)
Module Dataset.

Record extents : Type := mk_extents { lower_left : XY.t; upper_right : XY.t }.

Record t : Type := mk {
  GetNativeResolution : Z;
  GetTmsExtents : extents;
  GetWorldTmsBorders : Z -> list (Z * Z)
}.

End Dataset.

(** ** TmsPyramid *)

Module TmsPyramid.

Section WithTileSide.

(** [gdal2mbtiles.constants.TILE_SIDE] *)
Variable TILE_SIDE : Z.

Record t : Type := mk {
  dataset : Dataset.t;
  image : VImage.t;
  min_resolution : option Z;
  max_resolution : option Z
}.

Definition resolution (self : t) : Z :=
  Dataset.GetNativeResolution (dataset self).

Definition _validate_resolutions (self : t)
  (min_resolution max_resolution : option Z) : result unit :=
  (match min_resolution with
   | Some m =>
       if negb ((0 <=? m) && (m <? resolution self)) then
         Raise (ValueError (MinResolutionRange m (resolution self)))
       else Ok tt
   | None => Ok tt
   end ;;;
   match max_resolution with
   | Some m =>
       if m <? resolution self then
         Raise (ValueError (MaxResolutionRange m (resolution self)))
       else Ok tt
   | None => Ok tt
   end)%py.

(** The body of the loop of [slice_downsample]; it rebinds [tiles]. *)
Definition slice_downsample_body (self : t) (res : Z) (tiles : TmsTiles.t)
  : M TmsTiles.t :=
  (tiles <~ lift (TmsTiles.downsample tiles 1) ;;
   TmsTiles.fill_borders tiles
     (Dataset.GetWorldTmsBorders (dataset self) res) res ;;;
   TmsTiles._slice tiles ;;;
   ret tiles)%st.

Definition slice_downsample (self : t) (tiles : TmsTiles.t)
  (min_resolution : Z) : M unit :=
  (lift (_validate_resolutions self (Some min_resolution) None) ;;;
   for_fold (rev (range min_resolution (resolution self)))
     (slice_downsample_body self) tiles ;;;
   ret tt)%st.

Definition slice_native (self : t) : M TmsTiles.t :=
  (let offset := Dataset.GetTmsExtents (dataset self) in
   let tiles := TmsTiles.mk (image self) TILE_SIDE TILE_SIDE
                            (Dataset.lower_left offset) (resolution self) in
   TmsTiles.fill_borders tiles
     (Dataset.GetWorldTmsBorders (dataset self) (resolution self))
     (resolution self) ;;;
   TmsTiles._slice tiles ;;;
   ret tiles)%st.

(** The body of the loop of [slice_upsample]. *)
Definition slice_upsample_body (self : t) (tiles : TmsTiles.t) (res : Z)
  : M unit :=
  (upsampled <~ lift (TmsTiles.upsample tiles (res - resolution self)) ;;
   TmsTiles.fill_borders upsampled
     (Dataset.GetWorldTmsBorders (dataset self) res) res ;;;
   TmsTiles._slice upsampled)%st.

Definition slice_upsample (self : t) (tiles : TmsTiles.t)
  (max_resolution : Z) : M unit :=
  (lift (_validate_resolutions self None (Some max_resolution)) ;;;
   for_each (range (resolution self + 1) (max_resolution + 1))
     (slice_upsample_body self tiles))%st.

Definition slice (self : t) : M unit :=
  (lift (_validate_resolutions self (min_resolution self)
                               (max_resolution self)) ;;;
   tiles <~ slice_native self ;;
   match min_resolution self with
   | Some m => slice_downsample self tiles m
   | None => ret tt
   end ;;;
   match max_resolution self with
   | Some m => slice_upsample self tiles m
   | None => ret tt
   end ;;;
   emit Storage.waitall)%st.

End WithTileSide.

End TmsPyramid.

(** The side of the aligned image: [ceil((W + x/2) / T) * T]. *)
Definition aligned_side (W x T : Z) : Z :=
  Qceiling ((inject_Z W + inject_Z x / 2) / inject_Z T) * T.

(** ** The alignment as the specification words it *)

Module Spec.

(** [x = round(ox.T) mod T] *)
Definition align_x (T : Z) (offset : XY.t) : Z :=
  int (round (XY.x offset * inject_Z T)) mod T.

(** [y = (H - round(oy.T)) mod T] *)
Definition align_y (H T : Z) (offset : XY.t) : Z :=
  (H - int (round (XY.y offset * inject_Z T))) mod T.

(** The image embedded at [(x, y)] on a transparent canvas of the aligned
    size. *)
Definition padded (self : VImage.t) (T : Z) (offset : XY.t) : VImage.t :=
  let x := align_x T offset in
  let y := align_y (VImage.Ysize self) T offset in
  VImage.Embed 0 x y
    (aligned_side (VImage.Xsize self) x T)
    (aligned_side (VImage.Ysize self) y T) self.

(** What the specification says [tms_align] does when the aligned size
    differs from the current one. *)
Definition tms_align_claim (self : VImage.t) (T : Z) (offset : XY.t) : Prop :=
  let x := align_x T offset in
  let y := align_y (VImage.Ysize self) T offset in
  (aligned_side (VImage.Xsize self) x T, aligned_side (VImage.Ysize self) y T)
  <> (VImage.Xsize self, VImage.Ysize self) ->
  VImage.tms_align self T T offset = Ok (padded self T offset).

End Spec.

(** ** Vocabulary of the statements *)


(** The errors of [TmsTiles.slice] on an image that is not a whole number
    of tiles. *)
Definition unaligned_error (e : exn) : Prop :=
  match e with
  | ValueError (WidthNotWholeTiles _ _)
  | ValueError (HeightNotWholeTiles _ _) => True
  | _ => False
  end.

(** The errors of [TmsPyramid._validate_resolutions]. *)
Definition resolution_error (e : exn) : Prop :=
  match e with
  | ValueError (MinResolutionRange _ _)
  | ValueError (MaxResolutionRange _ _) => True
  | _ => False
  end.

(** The calls [_slice] makes when both tile sides are non-zero: rows from
    the top, each row from the left. *)
Definition slice_calls (self : TmsTiles.t) : Storage.t :=
  flat_map
    (fun y =>
       map (TmsTiles.tile_call self y)
           (xrange_items 0 (TmsTiles.image_width self)
                         (TmsTiles.tile_width self)))
    (xrange_items 0 (TmsTiles.image_height self) (TmsTiles.tile_height self)).

(** The pixel positions [_slice] visits, as [(x, y)], in its order. *)
Definition grid (xs ys : list Z) : list (Z * Z) :=
  flat_map (fun y => map (fun x => (x, y)) xs) ys.

(** The calls [fill_borders] makes. *)
Definition border_calls (borders : list (Z * Z)) (resolution : Z)
  : Storage.t :=
  map (fun '(x, y) => Storage.save_border x y resolution) borders.

(** The TMS address of a saved tile. *)
Definition address (c : Storage.call) : option (Z * Z) :=
  match c with
  | Storage.save x y _ _ => Some (x, y)
  | _ => None
  end.

(** The pixel offsets [tms_align] computes. *)
Definition pixel_x (tile_width : Z) (offset : XY.t) : Z :=
  int (round (XY.x offset * inject_Z tile_width)) mod tile_width.

Definition pixel_y (self : VImage.t) (tile_height : Z) (offset : XY.t) : Z :=
  int (round (inject_Z (VImage.Ysize self)
              - XY.y offset * inject_Z tile_height)) mod tile_height.

(** An offset whose two coordinates are whole numbers. *)
Definition integer_offset (offset : XY.t) : Prop :=
  exists ox oy : Z,
    (XY.x offset == inject_Z ox)%Q /\ (XY.y offset == inject_Z oy)%Q.

(** ** The levels of a pyramid *)

(** [cur] is one level below [prev]: offset halved, image shrunk by one
    half and aligned, resolution one less. *)
Definition halved (prev cur : TmsTiles.t) : Prop :=
  let offset := XY.mk (XY.x (TmsTiles.offset prev) / 2)
                     (XY.y (TmsTiles.offset prev) / 2) in
  exists shrunk,
    VImage.shrink (TmsTiles.image prev) (1 # 2) (1 # 2) = Ok shrunk
    /\ VImage.tms_align shrunk (TmsTiles.tile_width prev)
         (TmsTiles.tile_height prev) offset
       = Ok (TmsTiles.image cur)
    /\ cur = TmsTiles.mk (TmsTiles.image cur)
               (TmsTiles.tile_width prev) (TmsTiles.tile_height prev)
               (XY.mk (inject_Z (int (XY.x offset)))
                     (inject_Z (int (XY.y offset))))
               (TmsTiles.resolution prev - 1).

(** Levels each built from the one before by [downsample(levels=1)]. *)
Inductive down_chain : TmsTiles.t -> list TmsTiles.t -> Prop :=
| down_nil (prev : TmsTiles.t) : down_chain prev []
| down_cons (prev cur : TmsTiles.t) (rest : list TmsTiles.t) :
    TmsTiles.downsample prev 1 = Ok cur ->
    halved prev cur ->
    down_chain cur rest ->
    down_chain prev (cur :: rest).

(** [up] is [levels] above [native]: the whole image of [native] stretched
    once by [2 ^ levels] and aligned at the scaled offset. *)
Definition stretched_from (native : TmsTiles.t) (levels : Z)
  (up : TmsTiles.t) : Prop :=
  let scale := inject_Z (2 ^ levels) in
  let offset := XY.mk (XY.x (TmsTiles.offset native) * scale)
                     (XY.y (TmsTiles.offset native) * scale) in
  exists stretched,
    VImage.stretch (TmsTiles.image native) scale scale = Ok stretched
    /\ VImage.tms_align stretched (TmsTiles.tile_width native)
         (TmsTiles.tile_height native) offset
       = Ok (TmsTiles.image up)
    /\ up = TmsTiles.mk (TmsTiles.image up)
              (TmsTiles.tile_width native) (TmsTiles.tile_height native)
              (XY.mk (inject_Z (int (XY.x offset)))
                    (inject_Z (int (XY.y offset))))
              (TmsTiles.resolution native + levels).

(** [upsample(z - native)] from the native level, for one zoom [z]. *)
Definition up_level (native : TmsTiles.t) (z : Z) (up : TmsTiles.t) : Prop :=
  TmsTiles.upsample native (z - TmsTiles.resolution native) = Ok up
  /\ stretched_from native (z - TmsTiles.resolution native) up
  /\ TmsTiles.resolution up = z.

(** The calls made for one level: its borders are filled, then it is
    sliced. *)
Definition level_calls (borders : Z -> list (Z * Z)) (tiles : TmsTiles.t)
  : Storage.t :=
  border_calls (borders (TmsTiles.resolution tiles))
               (TmsTiles.resolution tiles)
  ++ slice_calls tiles.

(** The zooms below and above the native one that a pyramid produces, in
    the order it produces them. *)
Definition down_zooms (native : Z) (min_resolution : option Z) : list Z :=
  match min_resolution with
  | Some m => rev (range m native)
  | None => []
  end.

Definition up_zooms (native : Z) (max_resolution : option Z) : list Z :=
  match max_resolution with
  | Some m => range (native + 1) (m + 1)
  | None => []
  end.

(** The resolution bounds [_validate_resolutions] rejects. *)
Definition bad_resolutions (native : Z)
  (min_resolution max_resolution : option Z) : Prop :=
  (exists m, min_resolution = Some m /\ ~ (0 <= m < native))
  \/ (exists m, max_resolution = Some m /\ m < native).

(** ** LibVips *)

(** The wrapper around the C library.  The library itself is foreign code:
    the calls made into it are recorded, oldest first, with the ctypes
    values they are given. *)
Module LibVips.

(** The objects [set_concurrency] may be handed, as far as it tells them
    apart. *)
Inductive pyobj : Type :=
| PyInt (n : Z)
| PyLong (n : Z)
| PyBool (b : bool)
| PyFloat (q : Q)
| PyStr (s : string)
| PyNone.

(** [isinstance(o, (int, long))]; [bool] is a subclass of [int]. *)
Definition is_int_or_long (o : pyobj) : bool :=
  match o with
  | PyInt _ | PyLong _ | PyBool _ => true
  | _ => false
  end.

(** The integer an [int], [long] or [bool] stands for. *)
Definition int_value (o : pyobj) : Z :=
  match o with
  | PyInt n | PyLong n => n
  | PyBool b => if b then 1 else 0
  | _ => 0
  end.

(** [c_int(n)]: the ctypes object built from the integer [n]. *)
Inductive ctype : Type :=
| c_int (n : Z).

Inductive exn : Type :=
| ValueError (processes : pyobj).

Record t : Type := mk {
  functions : list string;
  foreign_calls : list (string * ctype)
}.

(** [name in self.functions] *)
Definition cached (name : string) (self : t) : bool :=
  existsb (String.eqb name) (functions self).

Definition set_concurrency (self : t) (processes : pyobj)
  : (exn + unit) * t :=
  if negb (is_int_or_long processes) || (int_value processes <? 0) then
    (inl (ValueError processes), self)
  else
    let functions' :=
      if cached "vips_concurrency_set" self then functions self
      else functions self ++ ["vips_concurrency_set"%string] in
    (inr tt,
     mk functions'
        (foreign_calls self
         ++ [("vips_concurrency_set"%string, c_int (int_value processes))])).

End LibVips.

(** ** Vocabulary of the further properties *)

(** The area a saved tile is cropped from lies within the image it is
    cropped from. *)
Definition within_image (c : Storage.call) : Prop :=
  match c with
  | Storage.save _ _ _ (VImage.ExtractArea l t w h im) =>
      0 <= l /\ l + w <= VImage.Xsize im
      /\ 0 <= t /\ t + h <= VImage.Ysize im
  | _ => True
  end.

(** A call made for a tile of side [tw] x [th] at zoom [z], cut out of
    [im]. *)
Definition tile_of (im : VImage.t) (tw th z : Z) (c : Storage.call) : Prop :=
  match c with
  | Storage.save _ _ z' out =>
      z' = z /\ VImage.Xsize out = tw /\ VImage.Ysize out = th
      /\ exists l t, out = VImage.ExtractArea l t tw th im
  | _ => False
  end.

(** A call a pyramid may make: a tile of side [T] or a border tile at a
    zoom between [lo] and [hi], or the final flush. *)
Definition pyramid_call (T lo hi : Z) (c : Storage.call) : Prop :=
  match c with
  | Storage.save _ _ z out =>
      lo <= z <= hi /\ VImage.Xsize out = T /\ VImage.Ysize out = T
  | Storage.save_border _ _ z => lo <= z <= hi
  | Storage.waitall => True
  end.

(** The lowest and highest zoom a pyramid is asked for. *)
Definition lowest_zoom (native : Z) (min_resolution : option Z) : Z :=
  match min_resolution with
  | Some m => m
  | None => native
  end.

Definition highest_zoom (native : Z) (max_resolution : option Z) : Z :=
  match max_resolution with
  | Some m => m
  | None => native
  end.

(** The tiles saved by a sequence of calls, as [(z, tms_x, tms_y)]. *)
Definition saved_tiles (calls : Storage.t) : list (Z * Z * Z) :=
  flat_map
    (fun c =>
       match c with
       | Storage.save x y z _ => [(z, x, y)]
       | _ => []
       end)
    calls.

(** A level that covers the whole world at its zoom: [2^z] by [2^z] tiles
    of side [T], from the tile [(0, 0)]. *)
Definition world_level (T : Z) (t : TmsTiles.t) : Prop :=
  TmsTiles.tile_width t = T /\ TmsTiles.tile_height t = T
  /\ TmsTiles.image_width t = T * 2 ^ TmsTiles.resolution t
  /\ TmsTiles.image_height t = T * 2 ^ TmsTiles.resolution t
  /\ (XY.x (TmsTiles.offset t) == inject_Z 0)%Q
  /\ (XY.y (TmsTiles.offset t) == inject_Z 0)%Q
  /\ 0 <= TmsTiles.resolution t.

(** ** A scenario *)

(** The pyramid of the tests: a 1024 x 1024 image whose native zoom is 2,
    covering the world, with zooms 0 to 3 requested. *)
Definition bluemarble : TmsPyramid.t :=
  TmsPyramid.mk
    (Dataset.mk 2 (Dataset.mk_extents (XY.mk 0 0) (XY.mk 4 4)) (fun _ => []))
    (VImage.Load "bluemarble.tif" 1024 1024)
    (Some 0) (Some 3).

(** * Properties *)

(** ** Numbers *)

Section Numbers.

Local Open Scope Q_scope.

Lemma Qle_bool_comp (a b c d : Q) :
  a == b -> c == d -> Qle_bool a c = Qle_bool b d.
Proof.
  intros Hab Hcd.
  destruct (Qle_bool a c) eqn:E1, (Qle_bool b d) eqn:E2; try reflexivity.
  - apply Qle_bool_iff in E1. rewrite Hab, Hcd in E1.
    apply Qle_bool_iff in E1. congruence.
  - apply Qle_bool_iff in E2. rewrite <- Hab, <- Hcd in E2.
    apply Qle_bool_iff in E2. congruence.
Qed.

Lemma int_comp (p q : Q) : p == q -> int p = int q.
Proof.
  intros H. unfold int.
  rewrite (Qle_bool_comp 0 0 p q (Qeq_refl 0) H).
  destruct (Qle_bool 0 q); now rewrite H.
Qed.

Lemma int_inject_Z (z : Z) : int (inject_Z z) = z.
Proof.
  unfold int. destruct (Qle_bool 0 (inject_Z z)).
  - apply Qfloor_Z.
  - apply Qceiling_Z.
Qed.

Lemma int_nonneg (q : Q) : 0 <= q -> int q = Qfloor q.
Proof.
  intros H. unfold int. apply Qle_bool_iff in H. now rewrite H.
Qed.

Lemma round_comp (p q : Q) : p == q -> round p == round q.
Proof.
  intros H. unfold round.
  rewrite (Qle_bool_comp 0 0 p q (Qeq_refl 0) H).
  destruct (Qle_bool 0 q); now rewrite H.
Qed.

Lemma round_inject_Z (z : Z) : round (inject_Z z) = inject_Z z.
Proof.
  unfold round. f_equal.
  destruct (Qle_bool 0 (inject_Z z)).
  - assert (Hle : (z <= Qfloor (inject_Z z + (1 # 2)))%Z).
    { rewrite <- (Qfloor_Z z) at 1. apply Qfloor_resp_le. lra. }
    assert (Hlt : (Qfloor (inject_Z z + (1 # 2)) < z + 1)%Z).
    { rewrite Zlt_Qlt. eapply Qle_lt_trans; [apply Qfloor_le|].
      rewrite inject_Z_plus. change (inject_Z 1) with 1. lra. }
    lia.
  - assert (Hle : (Qceiling (inject_Z z - (1 # 2)) <= z)%Z).
    { rewrite <- (Qceiling_Z z) at 2. apply Qceiling_resp_le. lra. }
    assert (Hlt : (z - 1 < Qceiling (inject_Z z - (1 # 2)))%Z).
    { rewrite Zlt_Qlt. eapply Qlt_le_trans; [|apply Qle_ceiling].
      unfold Z.sub. rewrite inject_Z_plus.
      change (inject_Z (- (1))) with (- (1)). lra. }
    lia.
Qed.

Lemma int_round_integer (q : Q) (z : Z) :
  q == inject_Z z -> int (round q) = z.
Proof.
  intros H. rewrite (int_comp _ _ (round_comp _ _ H)).
  rewrite round_inject_Z. apply int_inject_Z.
Qed.

Lemma int_mult_inject_Z (a b : Z) : int (inject_Z a * inject_Z b) = (a * b)%Z.
Proof.
  rewrite (int_comp _ (inject_Z (a * b))).
  - apply int_inject_Z.
  - now rewrite inject_Z_mult.
Qed.

(** Exact division seen in [Q]. *)
Lemma Qdiv_exact (k t : Z) :
  t <> 0%Z -> inject_Z (k * t) / inject_Z t == inject_Z k.
Proof.
  intros Ht. rewrite inject_Z_mult. field.
  intros H. apply Ht. now apply (inject_Z_injective t 0%Z).
Qed.

End Numbers.

(** ** Binary64 *)

Section Binary64Facts.

Import Binary64.

Local Open Scope Q_scope.

Lemma pow2_pos (e : Z) : 0 < pow2 e.
Proof.
  unfold pow2. destruct (Z.leb_spec 0 e) as [He | He].
  - change 0 with (inject_Z 0). rewrite <- Zlt_Qlt.
    apply Z.pow_pos_nonneg; lia.
  - apply Qinv_lt_0_compat. change 0 with (inject_Z 0). rewrite <- Zlt_Qlt.
    apply Z.pow_pos_nonneg; lia.
Qed.

(** Below zero the power is the inverse of a whole number. *)
Lemma pow2_nonpos (e : Z) : (e <= 0)%Z -> pow2 e == / inject_Z (2 ^ (- e)).
Proof.
  intros He. unfold pow2. destruct (Z.leb_spec 0 e) as [H0 | H0].
  - replace e with 0%Z by lia. reflexivity.
  - reflexivity.
Qed.

Lemma rne_comp (p q : Q) : p == q -> rne p = rne q.
Proof.
  intros H. unfold rne. rewrite (Qfloor_comp _ _ H).
  assert (Hc : (p - inject_Z (Qfloor q) ?= 1 # 2)
               = (q - inject_Z (Qfloor q) ?= 1 # 2)).
  { now rewrite H. }
  now rewrite Hc.
Qed.

Lemma rne_inject_Z (z : Z) : rne (inject_Z z) = z.
Proof.
  unfold rne. rewrite Qfloor_Z.
  assert (Hc : (inject_Z z - inject_Z z ?= 1 # 2) = Lt).
  { rewrite <- Qlt_alt. lra. }
  now rewrite Hc.
Qed.

(** Rounding to the nearest integer moves by at most one half. *)
Lemma rne_nonneg (q : Q) : 0 <= q -> (0 <= rne q)%Z.
Proof.
  intros H. unfold rne.
  assert (Hf : (0 <= Qfloor q)%Z).
  { rewrite <- (Qfloor_Z 0). now apply Qfloor_resp_le. }
  destruct (q - inject_Z (Qfloor q) ?= 1 # 2); [destruct (Z.even _)| |]; lia.
Qed.

Lemma ilog2_comp (p q : Q) : p == q -> ilog2 p = ilog2 q.
Proof.
  intros H. unfold ilog2.
  rewrite (Qle_bool_comp 1 1 p q (Qeq_refl 1) H).
  rewrite (Qfloor_comp _ _ H).
  assert (Hi : / p == / q) by now rewrite H.
  now rewrite (Qceiling_comp _ _ Hi).
Qed.

Lemma nearest_pos_comp (p q : Q) : p == q -> nearest_pos p = nearest_pos q.
Proof.
  intros H. unfold nearest_pos. rewrite (ilog2_comp _ _ H).
  set (e := Z.max (ilog2 q - 52) (-1074)).
  assert (Hd : p / pow2 e == q / pow2 e) by now rewrite H.
  now rewrite (rne_comp _ _ Hd).
Qed.

(** The float depends on the rational only, not on the fraction that
    writes it. *)
Lemma nearest_comp (p q : Q) : p == q -> nearest p = nearest q.
Proof.
  intros H. unfold nearest.
  assert (Hc : (p ?= 0) = (q ?= 0)) by now rewrite H.
  rewrite Hc. destruct (q ?= 0).
  - reflexivity.
  - f_equal. apply nearest_pos_comp. now rewrite H.
  - now apply nearest_pos_comp.
Qed.



(** A whole number below [2^53] is a float. *)
Lemma nearest_pos_inject_Z (n : Z) :
  (0 < n < 2 ^ 53)%Z -> nearest_pos (inject_Z n) == inject_Z n.
Proof.
  intros [Hn Hlt]. unfold nearest_pos, ilog2.
  assert (H1 : Qle_bool 1 (inject_Z n) = true).
  { apply Qle_bool_iff. change 1 with (inject_Z 1). rewrite <- Zle_Qle. lia. }
  rewrite H1, Qfloor_Z.
  assert (HL : (0 <= Z.log2 n < 53)%Z).
  { split; [apply Z.log2_nonneg | now apply Z.log2_lt_pow2]. }
  rewrite Z.max_l by lia.
  set (e := (Z.log2 n - 52)%Z).
  assert (He : (e <= 0)%Z) by (unfold e; lia).
  clearbody e.
  assert (Hp : (0 < 2 ^ (- e))%Z) by (apply Z.pow_pos_nonneg; lia).
  assert (Hpq : ~ inject_Z (2 ^ (- e)) == 0).
  { intros H. pose proof (proj1 (inject_Z_injective (2 ^ (- e)) 0%Z) H). lia. }
  assert (Hd : inject_Z n / pow2 e == inject_Z (n * 2 ^ (- e))).
  { rewrite (pow2_nonpos e He), inject_Z_mult. field. exact Hpq. }
  rewrite (rne_comp _ _ Hd), rne_inject_Z, (pow2_nonpos e He), inject_Z_mult.
  field. exact Hpq.
Qed.

Lemma nearest_inject_Z (n : Z) :
  (- 2 ^ 53 < n < 2 ^ 53)%Z -> nearest (inject_Z n) == inject_Z n.
Proof.
  intros Hn. unfold nearest.
  destruct (inject_Z n ?= 0) eqn:E.
  - apply Qeq_alt in E. now rewrite E.
  - apply Qlt_alt in E. change 0 with (inject_Z 0) in E.
    rewrite <- Zlt_Qlt in E.
    change (- inject_Z n) with (inject_Z (- n)).
    rewrite nearest_pos_inject_Z by lia.
    rewrite inject_Z_opp. ring.
  - apply Qgt_alt in E. change 0 with (inject_Z 0) in E.
    rewrite <- Zlt_Qlt in E. apply nearest_pos_inject_Z. lia.
Qed.

(** The scales [2^-j] pass the guard of [shrink]. *)
Lemma pow2_scale (j : Z) : (0 <= j)%Z -> 0 < pow2 (- j) /\ pow2 (- j) <= 1.
Proof.
  intros Hj. split; [apply pow2_pos|].
  rewrite (pow2_nonpos (- j)) by lia. rewrite Z.opp_involutive.
  assert (Hp : (1 <= 2 ^ j)%Z).
  { pose proof (Z.pow_pos_nonneg 2 j). lia. }
  rewrite Zle_Qle in Hp. change (inject_Z 1) with 1 in Hp.
  apply Qle_shift_inv_r; lra.
Qed.

(** The scale [2^-j] is a float. *)
Lemma pow2_representable (j : Z) :
  (0 <= j <= 1022)%Z -> representable (pow2 (- j)).
Proof.
  intros Hj. unfold representable.
  destruct (Z.eq_dec j 0) as [-> | Hj0].
  { apply (nearest_inject_Z 1). lia. }
  assert (Hp : (2 <= 2 ^ j)%Z).
  { change 2%Z with (2 ^ 1)%Z at 1. apply Z.pow_le_mono_r; lia. }
  assert (Hpq : ~ inject_Z (2 ^ j) == 0).
  { intros H. pose proof (proj1 (inject_Z_injective (2 ^ j) 0%Z) H). lia. }
  assert (Hq : pow2 (- j) == / inject_Z (2 ^ j)).
  { rewrite (pow2_nonpos (- j)) by lia. now rewrite Z.opp_involutive. }
  assert (Hlt : pow2 (- j) < 1).
  { rewrite Hq. rewrite Zle_Qle in Hp. change (inject_Z 2) with 2 in Hp.
    apply Qlt_shift_inv_r; lra. }
  unfold nearest.
  assert (Hc : (pow2 (- j) ?= 0) = Gt).
  { rewrite <- Qgt_alt. apply pow2_pos. }
  rewrite Hc. unfold nearest_pos, ilog2.
  assert (H1 : Qle_bool 1 (pow2 (- j)) = false).
  { destruct (Qle_bool 1 (pow2 (- j))) eqn:E; [|reflexivity].
    apply Qle_bool_iff in E. lra. }
  rewrite H1.
  assert (Hi : / pow2 (- j) == inject_Z (2 ^ j)).
  { rewrite Hq. apply Qinv_involutive. }
  rewrite (Qceiling_comp _ _ Hi), Qceiling_Z, Z.log2_up_pow2 by lia.
  rewrite Z.max_l by lia.
  assert (Hp2 : (0 < 2 ^ (j + 52))%Z) by (apply Z.pow_pos_nonneg; lia).
  assert (Hpq2 : ~ inject_Z (2 ^ (j + 52)) == 0).
  { intros H.
    pose proof (proj1 (inject_Z_injective (2 ^ (j + 52)) 0%Z) H). lia. }
  assert (H52 : ~ inject_Z (2 ^ 52) == 0).
  { intros H. pose proof (proj1 (inject_Z_injective (2 ^ 52) 0%Z) H). lia. }
  assert (He : pow2 (- j - 52) == / inject_Z (2 ^ (j + 52))).
  { rewrite (pow2_nonpos (- j - 52)) by lia.
    now replace (- (- j - 52))%Z with (j + 52)%Z by lia. }
  assert (Hd : pow2 (- j) / pow2 (- j - 52) == inject_Z (2 ^ 52)).
  { rewrite Hq, He, Z.pow_add_r, inject_Z_mult by lia. field.
    split; assumption. }
  rewrite (rne_comp _ _ Hd), rne_inject_Z, Hq, He.
  rewrite Z.pow_add_r, inject_Z_mult by lia. field.
  split; assumption.
Qed.

(** *** The rounding is the one of IEEE 754 *)

Lemma inject_Z_pos (z : Z) : (0 < z)%Z -> 0 < inject_Z z.
Proof. intros H. change 0 with (inject_Z 0). now rewrite <- Zlt_Qlt. Qed.

(** [pow2] doubles at each step. *)
Lemma pow2_succ (e : Z) : pow2 (e + 1) == 2 * pow2 e.
Proof.
  unfold pow2.
  destruct (Z.leb_spec 0 e) as [He | He];
    destruct (Z.leb_spec 0 (e + 1)) as [He1 | He1]; try lia.
  - rewrite Z.pow_add_r, inject_Z_mult by lia. change (inject_Z (2 ^ 1)) with 2.
    ring.
  - replace (e + 1)%Z with 0%Z by lia. replace (- e)%Z with 1%Z by lia.
    reflexivity.
  - replace (- e)%Z with (- (e + 1) + 1)%Z by lia.
    assert (Hp : (0 < 2 ^ (- (e + 1)))%Z) by (apply Z.pow_pos_nonneg; lia).
    rewrite Z.pow_add_r, inject_Z_mult by lia.
    change (inject_Z (2 ^ 1)) with 2. field.
    pose proof (inject_Z_pos _ Hp). lra.
Qed.

(** [ilog2] is the binary order of magnitude. *)
Lemma ilog2_spec (q : Q) :
  0 < q -> pow2 (ilog2 q) <= q /\ q < pow2 (ilog2 q + 1).
Proof.
  intros Hq. unfold ilog2. destruct (Qle_bool 1 q) eqn:E.
  - apply Qle_bool_iff in E.
    assert (Hf : (1 <= Qfloor q)%Z).
    { rewrite <- (Qfloor_Z 1). now apply Qfloor_resp_le. }
    destruct (Z.log2_spec (Qfloor q) ltac:(lia)) as [Hlo Hhi].
    pose proof (Z.log2_nonneg (Qfloor q)) as HL.
    unfold pow2.
    destruct (Z.leb_spec 0 (Z.log2 (Qfloor q))) as [_ | ?]; [|lia].
    destruct (Z.leb_spec 0 (Z.log2 (Qfloor q) + 1)) as [_ | ?]; [|lia].
    split.
    + apply Qle_trans with (inject_Z (Qfloor q)); [|apply Qfloor_le].
      now rewrite <- Zle_Qle.
    + apply Qlt_le_trans with (inject_Z (Qfloor q + 1)); [apply Qlt_floor|].
      rewrite <- Zle_Qle. unfold Z.succ in Hhi. lia.
  - assert (Hq1 : q < 1).
    { apply Qnot_le_lt. intros H. apply Qle_bool_iff in H. congruence. }
    assert (Hinv : 1 < / q).
    { apply Qlt_shift_inv_l; lra. }
    set (c := Qceiling (/ q)).
    assert (Hc : (1 < c)%Z).
    { rewrite Zlt_Qlt. change (inject_Z 1) with 1.
      apply Qlt_le_trans with (/ q); [exact Hinv | apply Qle_ceiling]. }
    destruct (Z.log2_up_spec c Hc) as [Hlo Hhi].
    pose proof (Z.log2_up_pos c Hc) as HU.
    set (U := Z.log2_up c) in *.
    assert (Hcq : / q <= inject_Z (2 ^ U)).
    { apply Qle_trans with (inject_Z c); [apply Qle_ceiling|].
      now rewrite <- Zle_Qle. }
    assert (Hqc : inject_Z (2 ^ (U - 1)) < / q).
    { apply Qle_lt_trans with (inject_Z (c - 1)); [|apply Qceiling_lt].
      rewrite <- Zle_Qle. replace (U - 1)%Z with (Z.pred U) by lia. lia. }
    assert (HpU : (0 < 2 ^ U)%Z) by (apply Z.pow_pos_nonneg; lia).
    assert (HpU1 : (0 < 2 ^ (U - 1))%Z) by (apply Z.pow_pos_nonneg; lia).
    pose proof (inject_Z_pos _ HpU) as HqU.
    pose proof (inject_Z_pos _ HpU1) as HqU1.
    assert (Hone : q * / q == 1) by (field; lra).
    split.
    + rewrite (pow2_nonpos (- U)) by lia. rewrite Z.opp_involutive.
      apply Qle_shift_inv_r; [exact HqU|].
      rewrite <- Hone. apply Qmult_le_l; assumption.
    + rewrite (pow2_nonpos (- U + 1)) by lia.
      replace (- (- U + 1))%Z with (U - 1)%Z by lia.
      apply Qlt_shift_inv_l; [exact HqU1|].
      rewrite <- Hone. apply Qmult_lt_l; assumption.
Qed.

(** [rne] moves by at most one half. *)
Lemma rne_spec (q : Q) :
  inject_Z (rne q) - (1 # 2) <= q /\ q <= inject_Z (rne q) + (1 # 2).
Proof.
  unfold rne. pose proof (Qfloor_le q) as Hlo. pose proof (Qlt_floor q) as Hhi.
  rewrite inject_Z_plus in Hhi. change (inject_Z 1) with 1 in Hhi.
  destruct (q - inject_Z (Qfloor q) ?= 1 # 2) eqn:E.
  - apply Qeq_alt in E.
    destruct (Z.even (Qfloor q)).
    + lra.
    + rewrite inject_Z_plus. change (inject_Z 1) with 1. lra.
  - apply Qlt_alt in E. lra.
  - apply Qgt_alt in E. rewrite inject_Z_plus. change (inject_Z 1) with 1.
    lra.
Qed.

(** On a tie [rne] takes the even neighbour. *)
Lemma rne_tie (q : Q) :
  q - inject_Z (Qfloor q) == 1 # 2 -> Z.even (rne q) = true.
Proof.
  intros H. unfold rne. apply Qeq_alt in H. rewrite H.
  destruct (Z.even (Qfloor q)) eqn:E; [exact E|].
  rewrite Z.even_add, E. reflexivity.
Qed.

Lemma rne_floor (q : Q) : rne q = Qfloor q \/ rne q = (Qfloor q + 1)%Z.
Proof.
  unfold rne.
  destruct (q - inject_Z (Qfloor q) ?= 1 # 2); [destruct (Z.even _)| |]; auto.
Qed.

(** A number half way between two integers goes to the even one. *)
Lemma rne_half_even (q : Q) :
  q == inject_Z (rne q) + (1 # 2) \/ q == inject_Z (rne q) - (1 # 2) ->
  Z.even (rne q) = true.
Proof.
  intros H. apply rne_tie.
  pose proof (Qfloor_le q) as Hlo. pose proof (Qlt_floor q) as Hhi.
  rewrite inject_Z_plus in Hhi. change (inject_Z 1) with 1 in Hhi.
  destruct (rne_floor q) as [E | E]; rewrite E in H;
    try (rewrite inject_Z_plus in H; change (inject_Z 1) with 1 in H);
    destruct H as [H | H]; lra.
Qed.

(** What [nearest_pos] returns is a float, [m * 2^e] with a significand of
    at most 53 bits and [e] no smaller than [-1074], at most half a unit in
    the last place away from [q]; the significand has its 53 bits unless
    the float is subnormal, and it is even when [q] lies half way between
    two floats. *)
Lemma nearest_pos_spec (q : Q) :
  0 < q ->
  exists m e,
    nearest_pos q = inject_Z m * pow2 e
    /\ (0 <= m <= 2 ^ 53)%Z /\ (- 1074 <= e)%Z
    /\ inject_Z m * pow2 e - pow2 e / 2 <= q
    /\ q <= inject_Z m * pow2 e + pow2 e / 2
    /\ (e = (-1074)%Z \/ (2 ^ 52 <= m)%Z)
    /\ (q == inject_Z m * pow2 e + pow2 e / 2
        \/ q == inject_Z m * pow2 e - pow2 e / 2 -> Z.even m = true).
Proof.
  intros Hq. unfold nearest_pos.
  set (e := Z.max (ilog2 q - 52) (-1074)).
  set (x := q / pow2 e).
  exists (rne x), e.
  pose proof (pow2_pos e) as He.
  destruct (rne_spec x) as [Hlo Hhi].
  destruct (ilog2_spec q Hq) as [Hq1 Hq2].
  assert (Hx : x * pow2 e == q) by (unfold x; field; lra).
  assert (Hx0 : 0 <= x) by (apply Qle_shift_div_l; lra).
  (* q < 2^53 * 2^e *)
  assert (Hmono : forall a b, (a <= b)%Z -> pow2 a <= pow2 b).
  { intros a b Hab.
    replace b with (a + Z.of_nat (Z.to_nat (b - a)))%Z by lia.
    induction (Z.to_nat (b - a)) as [|n IH].
    - rewrite Z.add_0_r. lra.
    - rewrite Nat2Z.inj_succ. unfold Z.succ. rewrite Z.add_assoc, pow2_succ.
      pose proof (pow2_pos (a + Z.of_nat n)). lra. }
  assert (Hadd : forall a, pow2 (a + 53) == inject_Z (2 ^ 53) * pow2 a).
  { intros a. replace (a + 53)%Z with
      (a+1+1+1+1+1+1+1+1+1+1+1+1+1+1+1+1+1+1+1+1+1+1+1+1+1+1+1+1+1+1+1+1+1+1+1
        +1+1+1+1+1+1+1+1+1+1+1+1+1+1+1+1+1+1)%Z by lia.
    rewrite !pow2_succ. change (inject_Z (2 ^ 53)) with 9007199254740992.
    ring. }
  assert (Hadd52 : forall a, pow2 (a + 52) == inject_Z (2 ^ 52) * pow2 a).
  { intros a. pose proof (Hadd a) as H. replace (a + 53)%Z with (a + 52 + 1)%Z in H by lia.
    rewrite pow2_succ in H. change (inject_Z (2 ^ 53)) with (2 * inject_Z (2 ^ 52)) in H.
    lra. }
  assert (Hup : x < inject_Z (2 ^ 53)).
  { apply Qlt_shift_div_r; [exact He|]. rewrite <- Hadd.
    apply Qlt_le_trans with (pow2 (ilog2 q + 1)); [exact Hq2|].
    apply Hmono. unfold e. lia. }
  assert (Hm0 : (0 <= rne x)%Z) by now apply rne_nonneg.
  assert (Hm1 : (rne x <= 2 ^ 53)%Z).
  { unfold rne.
    assert (Hf : (Qfloor x < 2 ^ 53)%Z).
    { rewrite Zlt_Qlt. apply Qle_lt_trans with x; [apply Qfloor_le | exact Hup]. }
    destruct (x - inject_Z (Qfloor x) ?= 1 # 2); [destruct (Z.even _)| |]; lia. }
  repeat split; try assumption; try (unfold e; lia).
  - rewrite <- Hx. unfold Qdiv. change (/ 2) with (1 # 2).
    setoid_replace (inject_Z (rne x) * pow2 e - pow2 e * (1 # 2))
      with ((inject_Z (rne x) - (1 # 2)) * pow2 e) by ring.
    apply Qmult_le_compat_r; lra.
  - rewrite <- Hx. unfold Qdiv. change (/ 2) with (1 # 2).
    setoid_replace (inject_Z (rne x) * pow2 e + pow2 e * (1 # 2))
      with ((inject_Z (rne x) + (1 # 2)) * pow2 e) by ring.
    apply Qmult_le_compat_r; lra.
  - destruct (Z.max_spec (ilog2 q - 52) (-1074)) as [[Hlt Hmax] | [Hge Hmax]];
      fold e in Hmax; [left; exact Hmax | right].
    assert (Hlow : inject_Z (2 ^ 52) <= x).
    { apply Qle_shift_div_l; [exact He|]. rewrite <- Hadd52.
      replace (e + 52)%Z with (ilog2 q) by lia. exact Hq1. }
    unfold rne.
    assert (Hf : (2 ^ 52 <= Qfloor x)%Z).
    { rewrite <- (Qfloor_Z (2 ^ 52)). now apply Qfloor_resp_le. }
    destruct (x - inject_Z (Qfloor x) ?= 1 # 2); [destruct (Z.even _)| |]; lia.
  - intros Htie. apply rne_half_even. rewrite <- Hx in Htie.
    unfold Qdiv in Htie. change (/ 2) with (1 # 2) in Htie.
    assert (Hcancel : forall a b, a * pow2 e == b * pow2 e -> a == b).
    { intros a b Hab. apply (Qmult_inj_r a b (pow2 e)); [lra | exact Hab]. }
    destruct Htie as [Ht | Ht]; [left | right]; apply Hcancel; rewrite Ht; ring.
Qed.

(** Literals and products of the program, as CPython rounds them. *)
Lemma nearest_examples :
  (* 0.1, 0.3, 1.15 and 1.0/3 *)
  nearest (1 # 10) == 3602879701896397 # 36028797018963968
  /\ nearest (3 # 10) == 5404319552844595 # 18014398509481984
  /\ nearest (23 # 20) == 2589569785738035 # 2251799813685248
  /\ nearest (1 # 3) == 6004799503160661 # 18014398509481984
  (* 3 * (1.0/3) == 1.0, 20 * 1.15 == 23.0, 49 * (1.0/49) < 1.0 *)
  /\ nearest (3 * nearest (1 # 3)) == 1
  /\ nearest (20 * nearest (23 # 20)) == 23
  /\ nearest (49 * nearest (1 # 49)) == 9007199254740991 # 9007199254740992
  (* 0.3 * 5 == 1.5 *)
  /\ nearest (nearest (3 # 10) * 5) == 3 # 2
  (* float(2**53 + 1) == 2.0**53 and float(2**53 + 3) == 2.0**53 + 4 *)
  /\ nearest (inject_Z (2 ^ 53 + 1)) == inject_Z (2 ^ 53)
  /\ nearest (inject_Z (2 ^ 53 + 3)) == inject_Z (2 ^ 53 + 4)
  (* the smallest float, 2**-1074, and half of it, which rounds to 0.0 *)
  /\ nearest (pow2 (- 1074)) == pow2 (- 1074)
  /\ nearest (pow2 (- 1075)) == 0.
Proof. repeat split; vm_compute; reflexivity. Qed.

End Binary64Facts.

(** ** Geometry of the aligned size *)

Section AlignedSize.

Local Open Scope Q_scope.

(** [int(ceil(q) * T)] is the integer product. *)
Lemma int_ceil_mult (q : Q) (T : Z) :
  int (ceil q * inject_Z T) = (Qceiling q * T)%Z.
Proof. unfold ceil. apply int_mult_inject_Z. Qed.

(** If padding leaves the side unchanged, the pixel offset is zero: the
    aligned side lies beyond [W + x/2], on the side of the sign of [T], and
    so does the remainder [x]. *)
Lemma padded_side_fixed (W a T : Z) :
  T <> 0%Z -> aligned_side W (a mod T) T = W -> (a mod T = 0)%Z.
Proof.
  intros HT HW. unfold aligned_side in HW.
  set (x := (a mod T)%Z) in *.
  set (q := (inject_Z W + inject_Z x / 2) / inject_Z T) in *.
  assert (HTq : ~ inject_Z T == 0).
  { intros H. apply (inject_Z_injective T 0%Z) in H. contradiction. }
  assert (Hq : q * inject_Z T == inject_Z W + inject_Z x * (1 # 2)).
  { unfold q. field. exact HTq. }
  assert (Hc : 0 <= inject_Z (Qceiling q) - q).
  { pose proof (Qle_ceiling q). lra. }
  assert (HWq : inject_Z (Qceiling q) * inject_Z T == inject_Z W).
  { rewrite <- inject_Z_mult, HW. reflexivity. }
  assert (Hdiff : (inject_Z (Qceiling q) - q) * inject_Z T
                  == - (inject_Z x * (1 # 2))).
  { setoid_replace ((inject_Z (Qceiling q) - q) * inject_Z T)
      with (inject_Z (Qceiling q) * inject_Z T - q * inject_Z T) by ring.
    rewrite HWq, Hq. ring. }
  destruct (Z.lt_total T 0) as [Hneg | [H0 | Hpos]]; [| contradiction |].
  - pose proof (Z.mod_neg_bound a T Hneg) as Hx. fold x in Hx.
    assert (Hprod : 0 <= (inject_Z (Qceiling q) - q) * - inject_Z T).
    { apply Qmult_le_0_compat; [exact Hc|].
      rewrite <- inject_Z_opp. change 0 with (inject_Z 0).
      rewrite <- Zle_Qle. lia. }
    setoid_replace ((inject_Z (Qceiling q) - q) * - inject_Z T)
      with (- ((inject_Z (Qceiling q) - q) * inject_Z T)) in Hprod by ring.
    rewrite Hdiff in Hprod.
    assert (Hx0 : inject_Z 0 <= inject_Z x)
      by (change (inject_Z 0) with 0; lra).
    rewrite <- Zle_Qle in Hx0. lia.
  - pose proof (Z.mod_pos_bound a T Hpos) as Hx. fold x in Hx.
    assert (Hprod : 0 <= (inject_Z (Qceiling q) - q) * inject_Z T).
    { apply Qmult_le_0_compat; [exact Hc|].
      change 0 with (inject_Z 0). rewrite <- Zle_Qle. lia. }
    rewrite Hdiff in Hprod.
    assert (Hx0 : inject_Z x <= inject_Z 0)
      by (change (inject_Z 0) with 0; lra).
    rewrite <- Zle_Qle in Hx0. lia.
Qed.

(** A side that is a whole number of tiles is not padded when the pixel
    offset is zero. *)
Lemma padded_side_aligned (W T : Z) :
  T <> 0%Z -> (T | W)%Z -> aligned_side W 0 T = W.
Proof.
  intros HT [k ->]. unfold aligned_side.
  assert (Hq : (inject_Z (k * T) + inject_Z 0 / 2) / inject_Z T == inject_Z k).
  { rewrite <- (Qdiv_exact k T) by exact HT. change (inject_Z 0) with 0.
    field. intros H. apply (inject_Z_injective T 0%Z) in H. contradiction. }
  rewrite Hq, Qceiling_Z. reflexivity.
Qed.

End AlignedSize.

(** ** tms_align *)

Section TmsAlign.

Import VImage.

Variables (self : VImage.t) (tile_width tile_height : Z) (offset : XY.t).

Let x := pixel_x tile_width offset.
Let y := pixel_y self tile_height offset.
Let width := aligned_side (Xsize self) x tile_width.
Let height := aligned_side (Ysize self) y tile_height.

(** [tms_align] with the divisions by the tile sides carried out. *)
Lemma tms_align_eq :
  tile_width <> 0 -> tile_height <> 0 ->
  tms_align self tile_width tile_height offset =
  if (width =? Xsize self) && (height =? Ysize self) then
    (assert ((x =? y) && (y =? 0)) ;;; Ok self)%py
  else Ok (Embed 0 x y width height self).
Proof.
  intros Hw Hh. unfold tms_align, mod_.
  apply Z.eqb_neq in Hw, Hh. rewrite Hw, Hh. cbn [bind].
  rewrite !int_ceil_mult. reflexivity.
Qed.

(** In the no-change branch both pixel offsets are zero. *)
Lemma no_change_offsets :
  tile_width <> 0 -> tile_height <> 0 ->
  width = Xsize self -> height = Ysize self -> x = 0 /\ y = 0.
Proof.
  intros Hw Hh HW HH. split.
  - exact (padded_side_fixed (Xsize self) _ tile_width Hw HW).
  - exact (padded_side_fixed (Ysize self) _ tile_height Hh HH).
Qed.

(** With non-zero tile sides [tms_align] returns: the receiver when the
    aligned size is the current one, the padded image otherwise. *)
Lemma tms_align_cases :
  tile_width <> 0 -> tile_height <> 0 ->
  (width = Xsize self /\ height = Ysize self /\ x = 0 /\ y = 0 /\
   tms_align self tile_width tile_height offset = Ok self)
  \/
  ((width, height) <> (Xsize self, Ysize self) /\
   tms_align self tile_width tile_height offset
   = Ok (Embed 0 x y width height self)).
Proof.
  intros Hw Hh. rewrite tms_align_eq by assumption.
  destruct (Z.eqb_spec width (Xsize self)) as [HW | HW];
    destruct (Z.eqb_spec height (Ysize self)) as [HH | HH]; cbn [andb].
  - left. destruct (no_change_offsets Hw Hh HW HH) as [Hx Hy].
    rewrite Hx, Hy. cbn. auto.
  - right. split; [congruence | reflexivity].
  - right. split; [congruence | reflexivity].
  - right. split; [congruence | reflexivity].
Qed.

End TmsAlign.

Section TmsAlignClaims.

Import VImage.

Local Open Scope Q_scope.

Lemma pixel_x_integer (tile_width : Z) (offset : XY.t) (ox : Z) :
  XY.x offset == inject_Z ox -> pixel_x tile_width offset = 0%Z.
Proof.
  intros H. unfold pixel_x.
  rewrite (int_round_integer _ (ox * tile_width)).
  - apply Z_mod_mult.
  - rewrite H, inject_Z_mult. reflexivity.
Qed.

Lemma pixel_y_integer (self : VImage.t) (tile_height : Z) (offset : XY.t)
  (oy : Z) :
  XY.y offset == inject_Z oy -> (tile_height | Ysize self)%Z ->
  pixel_y self tile_height offset = 0%Z.
Proof.
  intros H [k Hk]. unfold pixel_y.
  rewrite (int_round_integer _ ((k - oy) * tile_height)).
  - apply Z_mod_mult.
  - rewrite H, Hk. unfold Z.sub.
    rewrite !inject_Z_mult, inject_Z_plus, inject_Z_opp. ring.
Qed.

(** C2, as the specification words it, fails: for a 15 x 15 image, 16-pixel
    tiles and offset (0, 1/32) the code rounds [15 - 0.5] up to 15 and embeds
    the image at row 15, while [(H - round(oy.T)) mod T] is 14. *)
Lemma tms_align_spec_y_counterexample :
  ~ Spec.tms_align_claim (Load "image.tif" 15 15) 16 (XY.mk 0 (1 # 32)).
Proof.
  unfold Spec.tms_align_claim. intros H.
  assert (Hne : (aligned_side 15 (Spec.align_x 16 (XY.mk 0 (1 # 32))) 16,
                 aligned_side 15
                   (Spec.align_y 15 16 (XY.mk 0 (1 # 32))) 16)
                <> (15, 15)%Z) by (vm_compute; discriminate).
  specialize (H Hne). vm_compute in H. discriminate H.
Qed.

(** C7: with non-zero tile sides, whenever the aligned width and height
    computed by [tms_align] equal the current ones, both pixel offsets are
    zero, so the assertion of that branch holds and the receiver is
    returned; [tms_align] never raises [AssertionError]; and with an
    integer-valued offset it is the identity on every image whose width and
    height are whole multiples of the tile sides. *)
Theorem tms_align_no_change (self : VImage.t) (tile_width tile_height : Z)
  (offset : XY.t) :
  tile_width <> 0%Z -> tile_height <> 0%Z ->
  (let x := pixel_x tile_width offset in
   let y := pixel_y self tile_height offset in
   aligned_side (Xsize self) x tile_width = Xsize self ->
   aligned_side (Ysize self) y tile_height = Ysize self ->
   x = 0%Z /\ y = 0%Z /\
   tms_align self tile_width tile_height offset = Ok self)
  /\ tms_align self tile_width tile_height offset <> Raise AssertionError
  /\ ((tile_width | Xsize self)%Z -> (tile_height | Ysize self)%Z ->
      integer_offset offset ->
      tms_align self tile_width tile_height offset = Ok self).
Proof.
  intros Hw Hh.
  pose proof (tms_align_cases self tile_width tile_height offset Hw Hh)
    as Hcases.
  cbv zeta in Hcases. split; [|split].
  - intros x y HW HH.
    destruct Hcases as [(_ & _ & Hx & Hy & Hret) | (Hne & _)].
    + auto.
    + exfalso. apply Hne. unfold x, y in HW, HH. congruence.
  - destruct Hcases as [(_ & _ & _ & _ & Hret) | (_ & Hret)];
      rewrite Hret; discriminate.
  - intros HdW HdH (ox & oy & Hox & Hoy).
    destruct Hcases as [(_ & _ & _ & _ & Hret) | (Hne & _)];
      [exact Hret | exfalso; apply Hne].
    rewrite (pixel_x_integer tile_width offset ox Hox).
    rewrite (pixel_y_integer self tile_height offset oy Hoy HdH).
    rewrite (padded_side_aligned _ _ Hw HdW).
    rewrite (padded_side_aligned _ _ Hh HdH). reflexivity.
Qed.

Lemma tms_align_no_change_witness :
  tms_align (Load "image.tif" 16 16) 16 16 (XY.mk 1 1)
  = Ok (Load "image.tif" 16 16).
Proof.
  apply (tms_align_no_change (Load "image.tif" 16 16) 16 16 (XY.mk 1 1));
    [discriminate | discriminate | exists 1%Z; reflexivity
    | exists 1%Z; reflexivity
    | exists 1%Z, 1%Z; split; reflexivity].
Defined.

(** C10: with non-zero tile sides, [tms_align] returns an image, for every
    image and every offset, and the width of the returned image is a whole
    multiple of [tile_width] and its height a whole multiple of
    [tile_height], both when it pads and when it returns the receiver. *)
Theorem tms_align_whole_tiles (self : VImage.t) (tile_width tile_height : Z)
  (offset : XY.t) :
  tile_width <> 0%Z -> tile_height <> 0%Z ->
  exists aligned,
    tms_align self tile_width tile_height offset = Ok aligned
    /\ (tile_width | Xsize aligned)%Z /\ (tile_height | Ysize aligned)%Z
    /\ (Xsize aligned mod tile_width = 0)%Z
    /\ (Ysize aligned mod tile_height = 0)%Z.
Proof.
  intros Hw Hh.
  assert (Hdiv : forall a T : Z, (T | a)%Z -> (a mod T = 0)%Z).
  { intros a T [k ->]. apply Z_mod_mult. }
  destruct (tms_align_cases self tile_width tile_height offset Hw Hh)
    as [(HW & HH & _ & _ & Hret) | (_ & Hret)]; cbv zeta in *.
  - exists self. rewrite Hret.
    assert (Hx : (tile_width | Xsize self)%Z).
    { rewrite <- HW. apply Z.divide_factor_r. }
    assert (Hy : (tile_height | Ysize self)%Z).
    { rewrite <- HH. apply Z.divide_factor_r. }
    auto 6.
  - eexists. split; [exact Hret|]. cbn [Xsize Ysize].
    assert (Hx : forall W x T, (T | aligned_side W x T)%Z).
    { intros. apply Z.divide_factor_r. }
    auto 6.
Qed.

Lemma tms_align_whole_tiles_witness :
  exists aligned,
    tms_align (Load "image.tif" 16 16) 32 32 (XY.mk 1 1) = Ok aligned
    /\ (32 | Xsize aligned)%Z /\ (32 | Ysize aligned)%Z
    /\ (Xsize aligned mod 32 = 0)%Z /\ (Ysize aligned mod 32 = 0)%Z.
Proof.
  apply (tms_align_whole_tiles (Load "image.tif" 16 16) 32 32 (XY.mk 1 1));
    discriminate.
Defined.

End TmsAlignClaims.

(** ** tms_align in binary64 *)

Section TmsAlignBinary64.

Import Binary64 VImage PyNum.

Local Open Scope Q_scope.

(** [int(ceil(q) * T)] is the integer product as long as it is a float. *)
Lemma int_ceil_mult64 (q : PyNum.t) (T : Z) :
  (- 2 ^ 53 < T < 2 ^ 53)%Z ->
  (- 2 ^ 53 < Qceiling (to_float q) * T < 2 ^ 53)%Z ->
  PyNum.int (PyNum.ceil q * Int T)%num = (Qceiling (to_float q) * T)%Z.
Proof.
  intros HT Hprod. unfold PyNum.ceil, Py.ceil.
  cbn [mul PyNum.int to_float].
  set (c := Qceiling (to_float q)) in *.
  assert (Hq : inject_Z c * nearest (inject_Z T) == inject_Z (c * T)).
  { rewrite (nearest_inject_Z T HT), inject_Z_mult. reflexivity. }
  rewrite (nearest_comp _ _ Hq).
  rewrite (int_comp _ _ (nearest_inject_Z (c * T) Hprod)).
  apply int_inject_Z.
Qed.

(** C2 (amended): with non-zero tile sides, [tms_align] computes the pixel
    offsets [x = int(round(ox.T)) mod T] and [y = int(round(H - oy.T)) mod T]
    (the difference is rounded as a whole, ties away from zero), the
    aligned size [W' = int(ceil((W + x/2)/T).T)] and
    [H' = int(ceil((H + y/2)/T).T)], and when [(W', H')] differs from
    [(W, H)] it returns the image embedded at [(x, y)] on a transparent
    canvas of size [W' x H'].  Each product, difference and quotient is the
    one of the program, rounded to binary64 as soon as a float takes part;
    [W'] and [H'] are the whole products [ceil(..).T] as long as the tile
    side and the product are below [2^53]. *)
Theorem tms_align_pads (self : VImage.t) (tile_width tile_height : Z)
  (offset : XY64.t) :
  tile_width <> 0%Z -> tile_height <> 0%Z ->
  let x := (PyNum.int (PyNum.round (XY64.x offset * Int tile_width)%num)
            mod tile_width)%Z in
  let y := (PyNum.int (PyNum.round
                         (Int (Ysize self)
                          - XY64.y offset * Int tile_height)%num)
            mod tile_height)%Z in
  let qx := ((Int (Xsize self) + Int x / Int 2) / Int tile_width)%num in
  let qy := ((Int (Ysize self) + Int y / Int 2) / Int tile_height)%num in
  let W' := PyNum.int (PyNum.ceil qx * Int tile_width)%num in
  let H' := PyNum.int (PyNum.ceil qy * Int tile_height)%num in
  ((W', H') <> (Xsize self, Ysize self) ->
   VImage64.tms_align self tile_width tile_height offset
   = Ok (Embed 0 x y W' H' self))
  /\ ((- 2 ^ 53 < tile_width < 2 ^ 53)%Z ->
      (- 2 ^ 53 < Qceiling (to_float qx) * tile_width < 2 ^ 53)%Z ->
      W' = (Qceiling (to_float qx) * tile_width)%Z)
  /\ ((- 2 ^ 53 < tile_height < 2 ^ 53)%Z ->
      (- 2 ^ 53 < Qceiling (to_float qy) * tile_height < 2 ^ 53)%Z ->
      H' = (Qceiling (to_float qy) * tile_height)%Z).
Proof.
  intros Hw Hh x y qx qy W' H'. split; [|split].
  - intros Hne. unfold VImage64.tms_align, mod_.
    apply Z.eqb_neq in Hw, Hh. rewrite Hw, Hh. cbn [bind].
    fold x y. fold qx qy. fold W' H'.
    destruct (Z.eqb_spec W' (Xsize self)) as [HW | HW];
      destruct (Z.eqb_spec H' (Ysize self)) as [HH | HH]; cbn [andb];
      try reflexivity.
    exfalso. apply Hne. congruence.
  - apply int_ceil_mult64.
  - apply int_ceil_mult64.
Qed.

Lemma tms_align_pads_witness :
  VImage64.tms_align (Load "image.tif" 15 15) 5 5
    (XY64.mk (Float (nearest (3 # 10))) (Float (nearest (1 # 10))))
  = Ok (Embed 0 2 0 20 15 (Load "image.tif" 15 15)).
Proof.
  apply (proj1 (tms_align_pads (Load "image.tif" 15 15) 5 5
                  (XY64.mk (Float (nearest (3 # 10)))
                     (Float (nearest (1 # 10))))
                  ltac:(discriminate) ltac:(discriminate))).
  vm_compute. discriminate.
Defined.

(** At the input that refutes the wording of the specification every
    number is dyadic, and the binary64 reading gives the same image as the
    rational one: the receiver lands on row 15, not 14. *)
Lemma tms_align_rounds_difference :
  VImage64.tms_align (Load "image.tif" 15 15) 16 16
    (XY64.mk (Int 0) (Float (1 # 32)))
  = Ok (Embed 0 0 15 16 32 (Load "image.tif" 15 15))
  /\ VImage.tms_align (Load "image.tif" 15 15) 16 16 (XY.mk 0 (1 # 32))
     = Ok (Embed 0 0 15 16 32 (Load "image.tif" 15 15))
  /\ Spec.align_y 15 16 (XY.mk 0 (1 # 32)) = 14%Z.
Proof. repeat split; vm_compute; reflexivity. Qed.

End TmsAlignBinary64.

(** ** shrink and stretch *)

Section Scaling.

Import VImage.

Local Open Scope Q_scope.

Lemma Qlt_bool_iff (a b : Q) : Qlt_bool a b = true <-> a < b.
Proof.
  unfold Qlt_bool. rewrite negb_true_iff. split.
  - intros H. apply Qnot_le_lt. intros Hle.
    apply Qle_bool_iff in Hle. congruence.
  - intros H. destruct (Qle_bool b a) eqn:E; [|reflexivity].
    apply Qle_bool_iff in E. exfalso. apply (Qlt_not_le _ _ H E).
Qed.

(** The guard of [shrink] on one scale. *)
Lemma shrink_guard (s : Q) :
  Qlt_bool 0 s && Qle_bool s 1 = true <-> 0 < s /\ s <= 1.
Proof. now rewrite andb_true_iff, Qlt_bool_iff, Qle_bool_iff. Qed.

(** On a side of non-negative length a positive scale is truncated down. *)
Lemma int_scaled_side (W : Z) (s : Q) :
  (0 <= W)%Z -> 0 < s -> int (inject_Z W * s) = Qfloor (inject_Z W * s).
Proof.
  intros HW Hs. apply int_nonneg.
  apply Qmult_le_0_compat; [|lra].
  rewrite Zle_Qle in HW. exact HW.
Qed.

End Scaling.

(** ** shrink and stretch in binary64 *)

Section ScalingBinary64.

Import Binary64 VImage PyNum.

Local Open Scope Q_scope.

(** The guards on one scale. *)
Lemma shrink64_guard (s : PyNum.t) :
  lt (Float 0) s && le s (Float 1) = true <-> 0 < value s /\ value s <= 1.
Proof. unfold lt, le. apply shrink_guard. Qed.








(** The two readings of [_scale] give the same size whenever the exact
    products are floats: then nothing rounds. *)
Lemma _scale_readings_agree (self : VImage.t) (xscale yscale : Q) :
  (- 2 ^ 53 < Xsize self < 2 ^ 53)%Z -> (- 2 ^ 53 < Ysize self < 2 ^ 53)%Z ->
  representable (inject_Z (Xsize self) * xscale) ->
  representable (inject_Z (Ysize self) * yscale) ->
  Xsize (VImage64._scale self (Float xscale) (Float yscale))
  = Xsize (VImage._scale self xscale yscale)
  /\ Ysize (VImage64._scale self (Float xscale) (Float yscale))
     = Ysize (VImage._scale self xscale yscale).
Proof.
  intros HW HH Hx Hy.
  assert (Hside : forall (W : Z) (s : Q),
             (- 2 ^ 53 < W < 2 ^ 53)%Z -> representable (inject_Z W * s) ->
             PyNum.int (Int W * Float s)%num = Py.int (inject_Z W * s)).
  { intros W s Hb Hr. cbn [mul PyNum.int to_float].
    assert (Hq : nearest (inject_Z W) * s == inject_Z W * s).
    { now rewrite (nearest_inject_Z W Hb). }
    rewrite (nearest_comp _ _ Hq). apply int_comp. exact Hr. }
  cbn [VImage64._scale VImage._scale Xsize Ysize].
  split; apply Hside; assumption.
Qed.

End ScalingBinary64.

(** ** Loops over the storage *)

Section Loops.

Lemma for_each_emit {A : Type} (f : A -> Storage.call) (l : list A)
  (st : Storage.t) :
  for_each l (fun a => emit (f a)) st = (Ok tt, st ++ map f l).
Proof.
  revert st. induction l as [|a l IH]; intros st; cbn.
  - now rewrite app_nil_r.
  - unfold mbind, emit at 1. rewrite IH, <- app_assoc. reflexivity.
Qed.

(** A loop whose every iteration appends calls and succeeds. *)
Lemma for_each_calls {A : Type} (body : A -> M unit)
  (calls : A -> Storage.t) (l : list A) (st : Storage.t) :
  (forall a st', In a l -> body a st' = (Ok tt, st' ++ calls a)) ->
  for_each l body st = (Ok tt, st ++ flat_map calls l).
Proof.
  revert st. induction l as [|a l IH]; intros st Hbody; cbn.
  - now rewrite app_nil_r.
  - unfold mbind. rewrite Hbody by (left; reflexivity).
    rewrite IH by (intros; apply Hbody; right; assumption).
    now rewrite <- app_assoc.
Qed.

Lemma fill_borders_run (self : TmsTiles.t) (borders : list (Z * Z))
  (z : Z) (st : Storage.t) :
  TmsTiles.fill_borders self borders z st
  = (Ok tt, st ++ border_calls borders z).
Proof.
  unfold TmsTiles.fill_borders, border_calls.
  revert st. induction borders as [|[x y] bs IH]; intros st; cbn.
  - now rewrite app_nil_r.
  - unfold mbind, emit at 1. rewrite IH, <- app_assoc. reflexivity.
Qed.

Lemma _slice_run (self : TmsTiles.t) (st : Storage.t) :
  TmsTiles.tile_width self <> 0 -> TmsTiles.tile_height self <> 0 ->
  TmsTiles._slice self st = (Ok tt, st ++ slice_calls self).
Proof.
  intros Hw Hh. unfold TmsTiles._slice, slice_calls, xrange, mbind, lift.
  apply Z.eqb_neq in Hw, Hh. rewrite Hh.
  apply for_each_calls. intros y st' _. rewrite Hw.
  unfold TmsTiles.slice_tile. apply for_each_emit.
Qed.

End Loops.

(** ** The tile grid *)

Section Grid.

Lemma xrange_items_In (stop step v : Z) :
  0 < step ->
  In v (xrange_items 0 stop step) <-> (0 <= v < stop /\ (step | v)).
Proof.
  intros Hstep. unfold xrange_items, xrange_len.
  rewrite in_map_iff.
  destruct (Z.ltb_spec 0 step) as [_ | ?]; [|lia].
  split.
  - intros (i & <- & Hi). apply in_seq in Hi.
    destruct (Z.ltb_spec 0 stop) as [Hstop | Hstop]; [|cbn in Hi; lia].
    assert (Hq : Z.of_nat i <= (stop - 0 - 1) / step).
    { pose proof (Z.div_pos (stop - 0 - 1) step). lia. }
    pose proof (Z.mul_div_le (stop - 0 - 1) step Hstep) as Hle.
    split; [nia | exists (Z.of_nat i); lia].
  - intros (Hv & k & ->).
    destruct (Z.ltb_spec 0 stop) as [Hstop | Hstop]; [|lia].
    assert (Hk : 0 <= k) by nia.
    exists (Z.to_nat k). split; [lia|].
    apply in_seq.
    assert (Hq : k <= (stop - 0 - 1) / step).
    { apply Z.div_le_lower_bound; lia. }
    lia.
Qed.

Lemma xrange_items_NoDup (start stop step : Z) :
  step <> 0 -> NoDup (xrange_items start stop step).
Proof.
  intros Hstep. unfold xrange_items.
  apply NoDup_map_NoDup_ForallPairs; [|apply seq_NoDup].
  intros i j _ _ Heq. nia.
Qed.

Lemma grid_In (xs ys : list Z) (x y : Z) :
  In (x, y) (grid xs ys) <-> In x xs /\ In y ys.
Proof.
  unfold grid. rewrite in_flat_map. split.
  - intros (y' & Hy & Hin). apply in_map_iff in Hin.
    destruct Hin as (x' & [= <- <-] & Hx). auto.
  - intros [Hx Hy]. exists y. split; [exact Hy|].
    apply in_map_iff. exists x. auto.
Qed.

Lemma grid_NoDup (xs ys : list Z) :
  NoDup xs -> NoDup ys -> NoDup (grid xs ys).
Proof.
  intros Hxs Hys. induction Hys as [|y ys Hy Hys IH].
  - constructor.
  - change (grid xs (y :: ys))
      with (map (fun x => (x, y)) xs ++ grid xs ys).
    apply NoDup_app; [|exact IH|].
    + apply NoDup_map_NoDup_ForallPairs; [|exact Hxs].
      intros a b _ _ [= ->]. reflexivity.
    + intros [a b] Hin Hin'. apply in_map_iff in Hin.
      destruct Hin as (x' & [= <- <-] & _).
      apply grid_In in Hin'. tauto.
Qed.

(** A nested loop visits the grid. *)
Lemma flat_map_grid {B : Type} (f : Z -> Z -> B) (xs ys : list Z) :
  flat_map (fun y => map (f y) xs) ys
  = map (fun p => f (snd p) (fst p)) (grid xs ys).
Proof.
  unfold grid. induction ys as [|y ys IH]; cbn; [reflexivity|].
  rewrite map_app, map_map, IH. reflexivity.
Qed.

End Grid.

(** ** TmsTiles *)

Section Slicing.

Import TmsTiles.

Local Open Scope Q_scope.

(** True division of a multiple is the integer quotient. *)
Lemma Qdiv_divide (a t : Z) :
  t <> 0%Z -> (t | a)%Z -> inject_Z a / inject_Z t == inject_Z (a / t).
Proof.
  intros Ht [k ->]. rewrite Z.div_mul by exact Ht. now apply Qdiv_exact.
Qed.

(** On the grid of an aligned image with an integer-valued offset the
    saved address is computed without rounding. *)
Lemma tile_call_aligned (self : TmsTiles.t) (ox oy x y : Z) :
  tile_width self <> 0%Z -> tile_height self <> 0%Z ->
  XY.x (offset self) == inject_Z ox -> XY.y (offset self) == inject_Z oy ->
  (tile_width self | x)%Z -> (tile_height self | image_height self - y)%Z ->
  tile_call self y x
  = Storage.save (x / tile_width self + ox)
      ((image_height self - y) / tile_height self + oy - 1)
      (resolution self)
      (VImage.ExtractArea x y (tile_width self) (tile_height self)
         (image self)).
Proof.
  intros Hw Hh Hox Hoy Hx Hy. unfold tile_call, VImage.extract_area.
  f_equal.
  - rewrite <- (int_inject_Z (x / tile_width self + ox)).
    apply int_comp.
    rewrite Hox, (Qdiv_divide _ _ Hw Hx), <- inject_Z_plus. reflexivity.
  - rewrite <- (int_inject_Z
                  ((image_height self - y) / tile_height self + oy - 1)).
    apply int_comp.
    rewrite Hoy, (Qdiv_divide _ _ Hh Hy).
    set (q := ((image_height self - y) / tile_height self)%Z).
    unfold Z.sub. rewrite !inject_Z_plus, inject_Z_opp.
    change (inject_Z 1) with 1. ring.
Qed.

(** C1: for tiles whose image width and height are exact multiples of the
    (positive) tile sides and whose offset is integer-valued, [_slice]
    submits exactly one tile per grid point [(x, y)] of
    [{0, T, 2T, ...} x {0, T, 2T, ...}] inside the image: the [T x T] area
    extracted at [(x, y)], saved at zoom [resolution] with TMS address
    [tms_x = x/T + offset.x] and [tms_y = (H - y)/T + offset.y - 1].  In
    particular a 1024 x 1024 image with [T = 256] and offset [(0, 0)] yields
    exactly the 16 addresses of [{0..3} x {0..3}]. *)
Theorem _slice_tiles :
  (forall (self : TmsTiles.t) (st : Storage.t) (ox oy : Z),
      (0 < tile_width self)%Z -> (0 < tile_height self)%Z ->
      (tile_width self | image_width self)%Z ->
      (tile_height self | image_height self)%Z ->
      XY.x (offset self) == inject_Z ox ->
      XY.y (offset self) == inject_Z oy ->
      exists points : list (Z * Z),
        NoDup points
        /\ (forall x y,
               In (x, y) points <->
               ((0 <= x < image_width self)%Z /\ (tile_width self | x)%Z)
               /\ ((0 <= y < image_height self)%Z /\ (tile_height self | y)%Z))
        /\ _slice self st
           = (Ok tt,
              st ++ map (fun p =>
                           Storage.save
                             (fst p / tile_width self + ox)
                             ((image_height self - snd p) / tile_height self
                              + oy - 1)
                             (resolution self)
                             (VImage.ExtractArea (fst p) (snd p)
                                (tile_width self) (tile_height self)
                                (image self)))
                        points))
  /\
  (forall (filename : string) (z : Z) (st : Storage.t),
      exists calls,
        _slice (mk (VImage.Load filename 1024 1024) 256 256 (XY.mk 0 0) z) st
        = (Ok tt, st ++ calls)
        /\ map address calls
           = map Some
               [ (0, 3); (1, 3); (2, 3); (3, 3);
                 (0, 2); (1, 2); (2, 2); (3, 2);
                 (0, 1); (1, 1); (2, 1); (3, 1);
                 (0, 0); (1, 0); (2, 0); (3, 0) ]%Z).
Proof.
  split.
  - intros self st ox oy Hw Hh HdW HdH Hox Hoy.
    exists (grid (xrange_items 0 (image_width self) (tile_width self))
                 (xrange_items 0 (image_height self) (tile_height self))).
    split; [|split].
    + apply grid_NoDup; apply xrange_items_NoDup; lia.
    + intros x y. rewrite grid_In.
      rewrite (xrange_items_In _ _ x Hw), (xrange_items_In _ _ y Hh).
      reflexivity.
    + rewrite _slice_run by lia. unfold slice_calls.
      rewrite flat_map_grid. do 2 f_equal.
      apply map_ext_in. intros [x y] Hin. cbn [fst snd].
      apply grid_In in Hin. destruct Hin as [Hx Hy].
      apply (xrange_items_In _ _ x Hw) in Hx.
      apply (xrange_items_In _ _ y Hh) in Hy.
      apply tile_call_aligned; try assumption; try lia.
      * tauto.
      * apply Z.divide_sub_r; tauto.
  - intros filename z st.
    exists (slice_calls
              (mk (VImage.Load filename 1024 1024) 256 256 (XY.mk 0 0) z)).
    split.
    + apply _slice_run; discriminate.
    + vm_compute. reflexivity.
Qed.

Lemma _slice_tiles_witness :
  exists points : list (Z * Z),
    NoDup points
    /\ (forall x y,
           In (x, y) points <->
           ((0 <= x < 512)%Z /\ (256 | x)%Z)
           /\ ((0 <= y < 256)%Z /\ (256 | y)%Z))
    /\ _slice (mk (VImage.Load "aligned.tif" 512 256) 256 256 (XY.mk 1 1) 2)
              []
       = (Ok tt,
          [] ++ map (fun p =>
                       Storage.save (fst p / 256 + 1)
                         ((256 - snd p) / 256 + 1 - 1) 2
                         (VImage.ExtractArea (fst p) (snd p) 256 256
                            (VImage.Load "aligned.tif" 512 256)))
                    points).
Proof.
  apply (proj1 _slice_tiles
           (mk (VImage.Load "aligned.tif" 512 256) 256 256 (XY.mk 1 1) 2)
           [] 1%Z 1%Z);
    [reflexivity | reflexivity | exists 2%Z; reflexivity
    | exists 1%Z; reflexivity | reflexivity | reflexivity].
Defined.

(** C6: with non-zero tile sides, [slice] raises the unaligned-input error
    if and only if the image width is not a whole multiple of the tile
    width or the image height is not a whole multiple of the tile height;
    when it does, nothing has been submitted and the storage is unchanged;
    otherwise it slices the image and waits for the storage. *)
Theorem slice_unaligned (self : TmsTiles.t) (st : Storage.t) :
  tile_width self <> 0%Z -> tile_height self <> 0%Z ->
  ((exists e st', slice self st = (Raise e, st') /\ unaligned_error e)
   <-> (~ (tile_width self | image_width self)%Z
        \/ ~ (tile_height self | image_height self)%Z))
  /\ (forall e st', slice self st = (Raise e, st') ->
        unaligned_error e /\ st' = st)
  /\ ((tile_width self | image_width self)%Z ->
      (tile_height self | image_height self)%Z ->
      slice self st = (Ok tt, st ++ slice_calls self ++ [Storage.waitall])).
Proof.
  intros Hw Hh.
  assert (Hrun :
    (~ (tile_width self | image_width self)%Z /\
     slice self st
     = (Raise (ValueError (WidthNotWholeTiles (image_width self)
                                              (tile_width self))), st))
    \/ ((tile_width self | image_width self)%Z /\
        ~ (tile_height self | image_height self)%Z /\
        slice self st
        = (Raise (ValueError (HeightNotWholeTiles (image_height self)
                                                  (tile_height self))), st))
    \/ ((tile_width self | image_width self)%Z /\
        (tile_height self | image_height self)%Z /\
        slice self st
        = (Ok tt, st ++ slice_calls self ++ [Storage.waitall]))).
  { unfold slice, mbind, lift, mod_, raise, ret.
    pose proof (Z.mod_divide (image_width self) _ Hw) as HdW.
    pose proof (Z.mod_divide (image_height self) _ Hh) as HdH.
    rewrite (proj2 (Z.eqb_neq _ _) Hw).
    destruct (Z.eqb_spec (image_width self mod tile_width self) 0)
      as [Ew | Ew]; cbn [negb].
    - rewrite (proj2 (Z.eqb_neq _ _) Hh).
      destruct (Z.eqb_spec (image_height self mod tile_height self) 0)
        as [Eh | Eh]; cbn [negb].
      + right. right. split; [tauto|]. split; [tauto|].
        rewrite _slice_run by assumption.
        unfold emit. now rewrite <- app_assoc.
      + right. left. tauto.
    - left. tauto. }
  split; [|split].
  - split.
    + intros (e & st' & Hs & He).
      destruct Hrun as [[Hn _] | [(_ & Hn & _) | (_ & _ & Hok)]];
        [tauto | tauto |].
      rewrite Hok in Hs. discriminate Hs.
    + intros Hn.
      destruct Hrun as [[_ Hr] | [(_ & _ & Hr) | (HW & HH & _)]];
        [| | tauto]; do 2 eexists; (split; [exact Hr | exact I]).
  - intros e st' Hs.
    destruct Hrun as [[_ Hr] | [(_ & _ & Hr) | (_ & _ & Hr)]];
      rewrite Hr in Hs; inversion Hs; subst; split; try exact I;
      reflexivity.
  - intros HW HH.
    destruct Hrun as [[Hn _] | [(_ & Hn & _) | (_ & _ & Hok)]];
      [tauto | tauto | exact Hok].
Qed.

Lemma slice_unaligned_witness :
  exists e st',
    slice (mk (VImage.Load "spanning.tif" 300 256) 256 256 (XY.mk 0 0) 2)
          [Storage.save_border 0 0 2]
    = (Raise e, st') /\ unaligned_error e.
Proof.
  apply (slice_unaligned
           (mk (VImage.Load "spanning.tif" 300 256) 256 256 (XY.mk 0 0) 2)
           [Storage.save_border 0 0 2]);
    [discriminate | discriminate |].
  left. intros [k Hk]. cbn in Hk. lia.
Defined.

End Slicing.

(** ** Resampling one level *)

Section Resampling.

Import TmsTiles.

Lemma range_single (r : Z) : range (r - 1) r = [r - 1].
Proof.
  unfold range. replace (r - (r - 1)) with 1 by lia.
  change (Z.to_nat 1) with 1%nat. cbn [seq map Z.of_nat].
  f_equal. lia.
Qed.

(** [downsample(levels=1)] of a level above zoom 0 with non-zero tile
    sides returns the level below. *)
Lemma downsample_one (prev : TmsTiles.t) :
  1 <= resolution prev -> tile_width prev <> 0 -> tile_height prev <> 0 ->
  exists cur,
    downsample prev 1 = Ok cur /\ halved prev cur
    /\ resolution cur = resolution prev - 1
    /\ tile_width cur = tile_width prev
    /\ tile_height cur = tile_height prev.
Proof.
  intros Hres Hw Hh. unfold downsample.
  rewrite (proj2 (Z.leb_le 1 (resolution prev)) Hres).
  cbn [andb Z.ltb Z.compare assert bind].
  rewrite range_single. cbn [rev app fold_result bind].
  unfold downsample_step.
  change (VImage.shrink (l_image
            {| l_image := image prev; l_offset := offset prev;
               l_tiles := None |}) (1 # 2) (1 # 2))
    with (Ok (VImage._scale (image prev) (1 # 2) (1 # 2))).
  cbn [bind l_offset l_image].
  set (shrunk := VImage._scale (image prev) (1 # 2) (1 # 2)).
  set (off := XY.mk (XY.x (offset prev) / 2) (XY.y (offset prev) / 2)).
  destruct (tms_align_cases shrunk (tile_width prev) (tile_height prev) off
              Hw Hh) as [(_ & _ & _ & _ & Hal) | (_ & Hal)];
    rewrite Hal; cbn [bind l_tiles TmsTiles.image];
    eexists; (split; [reflexivity|]);
    (split; [|cbn; auto]);
    exists shrunk; cbn [TmsTiles.image TmsTiles.tile_width
                        TmsTiles.tile_height TmsTiles.offset
                        TmsTiles.resolution];
    fold off; auto.
Qed.

Lemma stretch_power (im : VImage.t) (levels : Z) :
  0 < levels ->
  exists stretched,
    VImage.stretch im (inject_Z (2 ^ levels)) (inject_Z (2 ^ levels))
    = Ok stretched.
Proof.
  intros Hl. unfold VImage.stretch.
  assert (Hge : Qlt_bool (inject_Z (2 ^ levels)) 1 = false).
  { unfold Qlt_bool. apply negb_false_iff, Qle_bool_iff.
    change 1%Q with (inject_Z 1). rewrite <- Zle_Qle.
    assert (0 < 2 ^ levels) by (apply Z.pow_pos_nonneg; lia). lia. }
  rewrite Hge. cbn. eexists. reflexivity.
Qed.

(** [upsample(levels)] with non-zero tile sides returns the level [levels]
    above, stretched in one step. *)
Lemma upsample_levels (native : TmsTiles.t) (levels : Z) :
  0 < levels -> tile_width native <> 0 -> tile_height native <> 0 ->
  exists up,
    upsample native levels = Ok up /\ stretched_from native levels up
    /\ resolution up = resolution native + levels
    /\ tile_width up = tile_width native
    /\ tile_height up = tile_height native.
Proof.
  intros Hl Hw Hh. unfold upsample.
  rewrite (proj2 (Z.ltb_lt 0 levels) Hl). cbn [assert bind].
  destruct (stretch_power (image native) levels Hl) as [stretched Hst].
  rewrite Hst. cbn [bind].
  set (off := XY.mk (XY.x (offset native) * inject_Z (2 ^ levels))
                   (XY.y (offset native) * inject_Z (2 ^ levels))).
  destruct (tms_align_cases stretched (tile_width native)
              (tile_height native) off Hw Hh)
    as [(_ & _ & _ & _ & Hal) | (_ & Hal)];
    rewrite Hal; cbn [bind];
    eexists; (split; [reflexivity|]);
    (split; [|cbn; auto]);
    exists stretched; cbn [TmsTiles.image TmsTiles.tile_width
                           TmsTiles.tile_height TmsTiles.offset
                           TmsTiles.resolution];
    fold off; auto.
Qed.

End Resampling.

(** ** TmsPyramid *)

Section Ranges.

Lemma range_In (start stop z : Z) :
  In z (range start stop) <-> start <= z < stop.
Proof.
  unfold range. rewrite in_map_iff. split.
  - intros (i & <- & Hi). apply in_seq in Hi. lia.
  - intros Hz. exists (Z.to_nat (z - start)). split; [lia|].
    apply in_seq. lia.
Qed.

Lemma range_nil (start stop : Z) : stop <= start -> range start stop = [].
Proof.
  intros H. unfold range.
  replace (Z.to_nat (stop - start)) with 0%nat by lia. reflexivity.
Qed.

Lemma range_snoc (start stop : Z) :
  start < stop -> range start stop = range start (stop - 1) ++ [stop - 1].
Proof.
  intros H. unfold range.
  replace (Z.to_nat (stop - start))
    with (S (Z.to_nat (stop - 1 - start))) by lia.
  rewrite seq_S, map_app. cbn [map]. do 2 f_equal. lia.
Qed.

Lemma rev_range_step (start stop : Z) :
  start < stop ->
  rev (range start stop) = (stop - 1) :: rev (range start (stop - 1)).
Proof.
  intros H. rewrite (range_snoc _ _ H), rev_app_distr. reflexivity.
Qed.

End Ranges.

Section Pyramid.

Import TmsPyramid.

Variable TILE_SIDE : Z.
Hypothesis TILE_SIDE_nonzero : TILE_SIDE <> 0.

Variable self : TmsPyramid.t.

Let borders := Dataset.GetWorldTmsBorders (dataset self).

(** One level is produced: its borders are filled and it is sliced. *)
Lemma level_run (tiles : TmsTiles.t) (st : Storage.t) :
  TmsTiles.tile_width tiles <> 0 -> TmsTiles.tile_height tiles <> 0 ->
  mbind (TmsTiles.fill_borders tiles (borders (TmsTiles.resolution tiles))
           (TmsTiles.resolution tiles))
        (fun _ => TmsTiles._slice tiles) st
  = (Ok tt, st ++ level_calls borders tiles).
Proof.
  intros Hw Hh. unfold mbind. rewrite fill_borders_run.
  rewrite _slice_run by assumption. unfold level_calls.
  now rewrite <- app_assoc.
Qed.

(** The downsampling loop: each level comes from the one before. *)
Lemma slice_downsample_loop (n : nat) :
  forall (m : Z) (prev : TmsTiles.t) (st : Storage.t),
    Z.to_nat (TmsTiles.resolution prev - m) = n -> 0 <= m ->
    TmsTiles.tile_width prev <> 0 -> TmsTiles.tile_height prev <> 0 ->
    exists downs last,
      down_chain prev downs
      /\ map TmsTiles.resolution downs
         = rev (range m (TmsTiles.resolution prev))
      /\ for_fold (rev (range m (TmsTiles.resolution prev)))
           (slice_downsample_body self) prev st
         = (Ok last, st ++ flat_map (level_calls borders) downs).
Proof.
  induction n as [|n IH]; intros m prev st Hn Hm Hw Hh.
  - rewrite range_nil by lia. exists [], prev. cbn.
    rewrite app_nil_r. repeat split. constructor.
  - rewrite rev_range_step by lia.
    destruct (downsample_one prev ltac:(lia) Hw Hh)
      as (cur & Hds & Hhalf & Hres & Hcw & Hch).
    destruct (IH m cur (st ++ level_calls borders cur)
                ltac:(lia) Hm ltac:(lia) ltac:(lia))
      as (downs & last & Hchain & Hzs & Hrun).
    exists (cur :: downs), last. split; [|split].
    + now constructor.
    + cbn [map]. rewrite Hzs, Hres. reflexivity.
    + cbn [for_fold]. unfold mbind at 1.
      unfold slice_downsample_body at 1. unfold mbind at 1, lift at 1.
      rewrite Hds. rewrite <- Hres.
      pose proof (level_run cur st ltac:(lia) ltac:(lia)) as Hlevel.
      unfold mbind in Hlevel |- *. 
      destruct (TmsTiles.fill_borders cur (borders (TmsTiles.resolution cur))
                  (TmsTiles.resolution cur) st) as [[[]|e] st1] eqn:Efill.
      * fold borders. rewrite Efill. rewrite Hlevel. unfold ret.
        rewrite Hres in Hrun |- *. rewrite Hrun.
        cbn [flat_map]. now rewrite app_assoc.
      * discriminate Hlevel.
Qed.

(** The upsampling loop: each level comes from the native one. *)
Lemma slice_upsample_loop (native : TmsTiles.t) (zs : list Z) :
  TmsTiles.resolution native = resolution self ->
  TmsTiles.tile_width native <> 0 -> TmsTiles.tile_height native <> 0 ->
  (forall z, In z zs -> resolution self < z) ->
  forall st : Storage.t,
  exists ups,
    Forall2 (up_level native) zs ups
    /\ for_each zs (slice_upsample_body self native) st
       = (Ok tt, st ++ flat_map (level_calls borders) ups).
Proof.
  intros Hres Hw Hh. induction zs as [|z zs IH]; intros Hzs st.
  - exists []. cbn. rewrite app_nil_r. split; [constructor | reflexivity].
  - destruct (upsample_levels native (z - resolution self)
                ltac:(specialize (Hzs z (or_introl eq_refl)); lia) Hw Hh)
      as (up & Hup & Hstr & Hur & Huw & Huh).
    assert (Hz : TmsTiles.resolution up = z) by lia.
    destruct (IH ltac:(intros; apply Hzs; right; assumption)
                (st ++ level_calls borders up)) as (ups & Hall & Hrun).
    exists (up :: ups). split.
    + constructor; [|exact Hall].
      unfold up_level. rewrite Hres. auto.
    + cbn [for_each]. unfold mbind at 1.
      unfold slice_upsample_body at 1. unfold mbind at 1, lift at 1.
      rewrite Hup.
      pose proof (level_run up st ltac:(lia) ltac:(lia)) as Hlevel.
      rewrite Hz in Hlevel. fold borders. rewrite Hlevel, Hrun.
      cbn [flat_map]. now rewrite app_assoc.
Qed.

(** The native level of the pyramid. *)
Let native : TmsTiles.t :=
  TmsTiles.mk (image self) TILE_SIDE TILE_SIDE
    (Dataset.lower_left (Dataset.GetTmsExtents (dataset self)))
    (resolution self).

Lemma slice_native_run (st : Storage.t) :
  slice_native TILE_SIDE self st
  = (Ok native, st ++ level_calls borders native).
Proof.
  unfold slice_native. fold native.
  pose proof (level_run native st TILE_SIDE_nonzero TILE_SIDE_nonzero)
    as Hlevel.
  unfold mbind in Hlevel |- *. cbn [TmsTiles.resolution native] in Hlevel.
  fold borders.
  destruct (TmsTiles.fill_borders native (borders (resolution self))
              (resolution self) st) as [[[]|e] st1];
    [|discriminate Hlevel].
  rewrite Hlevel. reflexivity.
Qed.

(** What [_validate_resolutions] decides. *)
Lemma validate_cases (min max : option Z) :
  (bad_resolutions (resolution self) min max
   /\ exists e, _validate_resolutions self min max = Raise e
                /\ resolution_error e)
  \/ (~ bad_resolutions (resolution self) min max
      /\ _validate_resolutions self min max = Ok tt
      /\ (forall m, min = Some m -> 0 <= m < resolution self)
      /\ (forall m, max = Some m -> resolution self <= m)).
Proof.
  unfold _validate_resolutions, bad_resolutions.
  destruct min as [m|], max as [n|];
    repeat match goal with
      | |- context [0 <=? ?a] => destruct (Z.leb_spec 0 a)
      | |- context [?a <? resolution self] =>
          destruct (Z.ltb_spec a (resolution self))
      end;
    cbn [andb negb bind];
    first
      [ solve [ right; split;
                [ intros [(? & Hs & ?) | (? & Hs & ?)];
                  inversion Hs; subst; lia
                | split; [reflexivity|];
                  split; intros ? Hs; inversion Hs; subst; lia ] ]
      | match goal with
        | a : Z |- _ =>
            solve [ left; split;
                    [ (left + right); exists a; split; [reflexivity | lia]
                    | eexists; split; [reflexivity | exact I] ] ]
        end ].
Qed.

Lemma slice_downsample_run (m : Z) (st : Storage.t) :
  0 <= m < resolution self ->
  exists downs,
    down_chain native downs
    /\ map TmsTiles.resolution downs = rev (range m (resolution self))
    /\ slice_downsample self native m st
       = (Ok tt, st ++ flat_map (level_calls borders) downs).
Proof.
  intros Hm. unfold slice_downsample.
  destruct (validate_cases (Some m) None)
    as [([(? & [= <-] & ?) | (? & [=] & _)] & _) | (_ & Hok & _)];
    [lia|].
  destruct (slice_downsample_loop _ m native st eq_refl ltac:(lia)
              TILE_SIDE_nonzero TILE_SIDE_nonzero)
    as (downs & last & Hchain & Hzs & Hrun).
  cbn [TmsTiles.resolution native] in Hzs, Hrun.
  exists downs. repeat split; try assumption.
  unfold mbind, lift. rewrite Hok, Hrun. reflexivity.
Qed.

Lemma slice_upsample_run (m : Z) (st : Storage.t) :
  resolution self <= m ->
  exists ups,
    Forall2 (up_level native) (range (resolution self + 1) (m + 1)) ups
    /\ slice_upsample self native m st
       = (Ok tt, st ++ flat_map (level_calls borders) ups).
Proof.
  intros Hm. unfold slice_upsample.
  destruct (validate_cases None (Some m))
    as [([(? & [=] & _) | (? & [= <-] & ?)] & _) | (_ & Hok & _)];
    [lia|].
  destruct (slice_upsample_loop native (range (resolution self + 1) (m + 1))
              eq_refl TILE_SIDE_nonzero TILE_SIDE_nonzero
              ltac:(intros z Hz; apply range_In in Hz; lia) st)
    as (ups & Hall & Hrun).
  exists ups. split; [exact Hall|].
  unfold mbind, lift. rewrite Hok. exact Hrun.
Qed.

(** A validated pyramid is sliced: the native level, then the levels
    below it, then the levels above it, then the storage is flushed. *)
Lemma slice_run (st : Storage.t) :
  _validate_resolutions self (min_resolution self) (max_resolution self)
  = Ok tt ->
  exists downs ups,
    down_chain native downs
    /\ map TmsTiles.resolution downs
       = down_zooms (resolution self) (min_resolution self)
    /\ Forall2 (up_level native)
         (up_zooms (resolution self) (max_resolution self)) ups
    /\ slice TILE_SIDE self st
       = (Ok tt,
          st ++ level_calls borders native
             ++ flat_map (level_calls borders) downs
             ++ flat_map (level_calls borders) ups
             ++ [Storage.waitall]).
Proof.
  intros Hok.
  destruct (validate_cases (min_resolution self) (max_resolution self))
    as [(_ & e & He & _) | (_ & _ & Hmin & Hmax)]; [congruence|].
  unfold slice, mbind at 1, lift. rewrite Hok.
  unfold mbind at 1. rewrite slice_native_run.
  set (st1 := st ++ level_calls borders native).
  assert (Hdown : exists downs,
             down_chain native downs
             /\ map TmsTiles.resolution downs
                = down_zooms (resolution self) (min_resolution self)
             /\ match min_resolution self with
                | Some m => slice_downsample self native m
                | None => ret tt
                end st1
                = (Ok tt, st1 ++ flat_map (level_calls borders) downs)).
  { destruct (min_resolution self) as [m|].
    - exact (slice_downsample_run m st1 (Hmin m eq_refl)).
    - exists []. cbn. rewrite app_nil_r. repeat split. constructor. }
  destruct Hdown as (downs & Hchain & Hzs & Hd).
  set (st2 := st1 ++ flat_map (level_calls borders) downs) in *.
  assert (Hup : exists ups,
             Forall2 (up_level native)
               (up_zooms (resolution self) (max_resolution self)) ups
             /\ match max_resolution self with
                | Some m => slice_upsample self native m
                | None => ret tt
                end st2
                = (Ok tt, st2 ++ flat_map (level_calls borders) ups)).
  { destruct (max_resolution self) as [m|].
    - exact (slice_upsample_run m st2 (Hmax m eq_refl)).
    - exists []. cbn. rewrite app_nil_r. split; [constructor | reflexivity]. }
  destruct Hup as (ups & Hall & Hu).
  exists downs, ups. repeat split; try assumption.
  unfold mbind. rewrite Hd, Hu. unfold emit, st2, st1.
  now rewrite <- !app_assoc.
Qed.

End Pyramid.

(** ** The claims on the pyramid *)

Section PyramidClaims.

Import TmsPyramid.

Lemma down_zooms_In (native : Z) (min : option Z) (z : Z) :
  In z (down_zooms native min) <-> exists m, min = Some m /\ m <= z < native.
Proof.
  unfold down_zooms. destruct min as [m|].
  - rewrite <- in_rev, range_In. split.
    + intros H. exists m. auto.
    + intros (? & [= <-] & H). exact H.
  - split; [intros [] | intros (? & [=] & _)].
Qed.

Lemma up_zooms_In (native : Z) (max : option Z) (z : Z) :
  In z (up_zooms native max) <-> exists m, max = Some m /\ native < z <= m.
Proof.
  unfold up_zooms. destruct max as [m|].
  - rewrite range_In. split.
    + intros H. exists m. split; [reflexivity | lia].
    + intros (? & [= <-] & H). lia.
  - split; [intros [] | intros (? & [=] & _)].
Qed.

(** C3: a pyramid whose resolutions pass validation is sliced as follows
    (tile side non-zero).  The native level is produced first.  Then every
    zoom from native - 1 down to [min_resolution] is produced, each level
    built from the previous one by [downsample(levels=1)]: offset halved,
    image shrunk by one half and aligned, resolution one less.  Then every
    zoom [z] from native + 1 up to [max_resolution] is produced, each level
    built from the native level by [upsample(z - native)], which stretches
    the whole native image once by [2 ^ (z - native)].  At each produced
    zoom the borders are filled and the level is sliced; the storage is
    flushed at the end. *)
Theorem slice_pyramid_levels (TILE_SIDE : Z) (self : TmsPyramid.t)
  (st : Storage.t) :
  TILE_SIDE <> 0 ->
  _validate_resolutions self (min_resolution self) (max_resolution self)
  = Ok tt ->
  let borders := Dataset.GetWorldTmsBorders (dataset self) in
  let native :=
    TmsTiles.mk (image self) TILE_SIDE TILE_SIDE
      (Dataset.lower_left (Dataset.GetTmsExtents (dataset self)))
      (resolution self) in
  exists downs ups : list TmsTiles.t,
    down_chain native downs
    /\ map TmsTiles.resolution downs
       = down_zooms (resolution self) (min_resolution self)
    /\ (forall z, In z (map TmsTiles.resolution downs) <->
                  exists m, min_resolution self = Some m
                            /\ m <= z < resolution self)
    /\ Forall2 (up_level native)
         (up_zooms (resolution self) (max_resolution self)) ups
    /\ (forall z, In z (map TmsTiles.resolution ups) <->
                  exists m, max_resolution self = Some m
                            /\ resolution self < z <= m)
    /\ slice TILE_SIDE self st
       = (Ok tt,
          st ++ level_calls borders native
             ++ flat_map (level_calls borders) downs
             ++ flat_map (level_calls borders) ups
             ++ [Storage.waitall]).
Proof.
  intros HT Hok borders native.
  destruct (slice_run TILE_SIDE HT self st Hok)
    as (downs & ups & Hchain & Hzs & Hall & Hrun).
  exists downs, ups.
  assert (Hups : map TmsTiles.resolution ups
                 = up_zooms (resolution self) (max_resolution self)).
  { clear Hrun. induction Hall as [|z up zs ups (_ & _ & Hz) _ IH];
      [reflexivity | cbn [map]; congruence]. }
  repeat split; try assumption.
  - rewrite Hzs. apply down_zooms_In.
  - rewrite Hzs. apply down_zooms_In.
  - rewrite Hups. apply up_zooms_In.
  - rewrite Hups. apply up_zooms_In.
Qed.

(** C8: [_validate_resolutions] raises a resolution error exactly when
    [min_resolution] is given and does not satisfy
    [0 <= min_resolution < native], or [max_resolution] is given and is
    strictly less than the native resolution; otherwise it returns, and in
    particular [max_resolution] equal to the native resolution is accepted.
    With a non-zero tile side, [TmsPyramid.slice] fails with a resolution
    error in exactly the same cases. *)
Theorem validate_resolutions_spec (TILE_SIDE : Z) (self : TmsPyramid.t)
  (min max : option Z) :
  ((exists e, _validate_resolutions self min max = Raise e
              /\ resolution_error e)
   <-> bad_resolutions (resolution self) min max)
  /\ (~ bad_resolutions (resolution self) min max ->
      _validate_resolutions self min max = Ok tt)
  /\ _validate_resolutions self None (Some (resolution self)) = Ok tt
  /\ (TILE_SIDE <> 0 ->
      forall st,
        (exists e st', slice TILE_SIDE self st = (Raise e, st')
                       /\ resolution_error e)
        <-> bad_resolutions (resolution self)
              (min_resolution self) (max_resolution self)).
Proof.
  split; [|split; [|split]].
  - destruct (validate_cases self min max)
      as [(Hbad & e & He & Hre) | (Hgood & Hok & _)].
    + split; [intros _; exact Hbad | intros _; eauto].
    + split; [|tauto]. intros (e & He & _). congruence.
  - intros Hgood.
    destruct (validate_cases self min max)
      as [(Hbad & _) | (_ & Hok & _)]; [tauto | exact Hok].
  - destruct (validate_cases self None (Some (resolution self)))
      as [([(? & [=] & _) | (? & [= <-] & ?)] & _) | (_ & Hok & _)];
      [lia | exact Hok].
  - intros HT st.
    destruct (validate_cases self (min_resolution self) (max_resolution self))
      as [(Hbad & e & He & Hre) | (Hgood & Hok & _)].
    + split; [intros _; exact Hbad|]. intros _. exists e, st.
      split; [|exact Hre]. unfold slice, mbind, lift. now rewrite He.
    + split; [|tauto]. intros (e & st' & Hs & _).
      destruct (slice_run TILE_SIDE HT self st Hok)
        as (? & ? & _ & _ & _ & Hrun).
      rewrite Hrun in Hs. discriminate Hs.
Qed.

Lemma slice_pyramid_levels_witness :
  let borders := Dataset.GetWorldTmsBorders (dataset bluemarble) in
  let native :=
    TmsTiles.mk (image bluemarble) 256 256
      (Dataset.lower_left (Dataset.GetTmsExtents (dataset bluemarble)))
      (resolution bluemarble) in
  exists downs ups : list TmsTiles.t,
    down_chain native downs
    /\ map TmsTiles.resolution downs
       = down_zooms (resolution bluemarble) (min_resolution bluemarble)
    /\ (forall z, In z (map TmsTiles.resolution downs) <->
                  exists m, min_resolution bluemarble = Some m
                            /\ m <= z < resolution bluemarble)
    /\ Forall2 (up_level native)
         (up_zooms (resolution bluemarble) (max_resolution bluemarble)) ups
    /\ (forall z, In z (map TmsTiles.resolution ups) <->
                  exists m, max_resolution bluemarble = Some m
                            /\ resolution bluemarble < z <= m)
    /\ slice 256 bluemarble []
       = (Ok tt,
          [] ++ level_calls borders native
             ++ flat_map (level_calls borders) downs
             ++ flat_map (level_calls borders) ups
             ++ [Storage.waitall]).
Proof.
  apply (slice_pyramid_levels 256 bluemarble []);
    [discriminate | reflexivity].
Defined.

Lemma validate_resolutions_spec_witness :
  exists e,
    _validate_resolutions bluemarble (Some 2) None = Raise e
    /\ resolution_error e.
Proof.
  apply (validate_resolutions_spec 256 bluemarble (Some 2) None).
  left. exists 2. split; [reflexivity|]. cbn. lia.
Defined.

End PyramidClaims.

(** * Further properties *)

(** ** embed, shrink and stretch *)

Section ScalingMore.

Import VImage.

Local Open Scope Q_scope.

Lemma Qfloor_plus_le (a b : Q) : (Qfloor a + Qfloor b <= Qfloor (a + b))%Z.
Proof.
  rewrite <- (Qfloor_Z (Qfloor a + Qfloor b)).
  apply Qfloor_resp_le. rewrite inject_Z_plus.
  pose proof (Qfloor_le a). pose proof (Qfloor_le b). lra.
Qed.

Lemma Qfloor_nonneg (a : Q) : 0 <= a -> (0 <= Qfloor a)%Z.
Proof.
  intros H. rewrite <- (Qfloor_Z 0). now apply Qfloor_resp_le.
Qed.

(** [shrink] returns exactly when both scales pass its guard. *)
Lemma shrink_ok (self : VImage.t) (xscale yscale : Q) (r : VImage.t) :
  shrink self xscale yscale = Ok r ->
  (0 < xscale /\ xscale <= 1) /\ (0 < yscale /\ yscale <= 1)
  /\ r = _scale self xscale yscale.
Proof.
  unfold shrink. intros H.
  destruct (Qlt_bool 0 xscale && Qle_bool xscale 1) eqn:Ex;
    cbn [negb] in H; [|discriminate H].
  destruct (Qlt_bool 0 yscale && Qle_bool yscale 1) eqn:Ey;
    cbn [negb] in H; [|discriminate H].
  apply shrink_guard in Ex, Ey. injection H as <-. auto.
Qed.

(** A side scaled down stays between 0 and itself. *)
Lemma int_shrunk_side (W : Z) (s : Q) :
  (0 <= W)%Z -> 0 < s -> s <= 1 -> (0 <= int (inject_Z W * s) <= W)%Z.
Proof.
  intros HW Hs Hs1. rewrite (int_scaled_side _ _ HW Hs).
  assert (HWq : 0 <= inject_Z W).
  { change 0 with (inject_Z 0). now rewrite <- Zle_Qle. }
  split.
  - apply Qfloor_nonneg. apply Qmult_le_0_compat; lra.
  - rewrite <- (Qfloor_Z W) at 2. apply Qfloor_resp_le.
    setoid_replace (inject_Z W) with (inject_Z W * 1) at 2 by ring.
    rewrite (Qmult_comm (inject_Z W) s), (Qmult_comm (inject_Z W) 1).
    apply Qmult_le_compat_r; assumption.
Qed.

Lemma lookup_missing (name : string) (d : list (string * Z)) :
  ~ In name (map fst d) -> lookup name d = None.
Proof.
  induction d as [|[k v] d IH]; intros Hnot; cbn; [reflexivity|].
  destruct (String.eqb_spec name k) as [-> | Hne].
  - exfalso. apply Hnot. left. reflexivity.
  - apply IH. intros Hin. apply Hnot. right. exact Hin.
Qed.

(** X1: [embed] resolves a fill given by name through [FILL_OPTIONS]: a
    listed name gives the same image as its code, a name that is not
    listed raises [ValueError], and whatever the fill, the image returned
    has the width and height asked for. *)
Theorem embed_fill_names (self : VImage.t) (name : string)
  (left top width height : Z) :
  (forall code, In (name, code) FILL_OPTIONS ->
     embed self (FillName name) left top width height
     = embed self (FillCode code) left top width height)
  /\ (~ In name (map fst FILL_OPTIONS) ->
      embed self (FillName name) left top width height
      = Raise (ValueError (InvalidFill name)))
  /\ (forall fill r, embed self fill left top width height = Ok r ->
        Xsize r = width /\ Ysize r = height).
Proof.
  split; [|split].
  - intros code Hin. cbn in Hin.
    repeat (destruct Hin as [[= <- <-] | Hin]; [reflexivity|]).
    destruct Hin.
  - intros Hnot. unfold embed. now rewrite (lookup_missing _ _ Hnot).
  - intros fill r. unfold embed. destruct fill as [n | code].
    + destruct (lookup n FILL_OPTIONS); intros [= <-]; auto.
    + intros [= <-]; auto.
Qed.

Lemma embed_fill_names_witness :
  embed (Load "image.tif" 16 16) (FillName "transparent") 0 0 32 32
  = Raise (ValueError (InvalidFill "transparent")).
Proof.
  apply (embed_fill_names (Load "image.tif" 16 16) "transparent" 0 0 32 32).
  cbn. intros H.
  repeat (destruct H as [H | H]; [discriminate H|]). exact H.
Defined.

(** X2: [shrink] never enlarges: on an image of non-negative size, the
    image it returns has a width between 0 and the width of the receiver
    and a height between 0 and its height. *)
Theorem shrink_never_enlarges (self : VImage.t) (xscale yscale : Q)
  (r : VImage.t) :
  (0 <= Xsize self)%Z -> (0 <= Ysize self)%Z ->
  shrink self xscale yscale = Ok r ->
  (0 <= Xsize r <= Xsize self)%Z /\ (0 <= Ysize r <= Ysize self)%Z.
Proof.
  intros HW HH Hs.
  destruct (shrink_ok _ _ _ _ Hs) as ([Hx Hx1] & [Hy Hy1] & ->).
  cbn [_scale Xsize Ysize]. split; apply int_shrunk_side; assumption.
Qed.

Lemma shrink_never_enlarges_witness :
  (0 <= 1 <= 16)%Z /\ (0 <= 3 <= 16)%Z.
Proof.
  apply (shrink_never_enlarges (Load "image.tif" 16 16) (1 # 10) (1 # 5)
           (Affine (1 # 10) 0 0 (1 # 5)
              (((1 # 10) - 1) / 2) (((1 # 5) - 1) / 2) 0 0 1 3
              (Load "image.tif" 16 16)));
    [discriminate | discriminate | reflexivity].
Defined.

(** [stretch] once both scales pass its guard. *)
Lemma stretch_eq (self : VImage.t) (xscale yscale : Q) :
  Qlt_bool xscale 1 = false -> Qlt_bool yscale 1 = false ->
  stretch self xscale yscale
  = Ok (ExtractArea (int (inject_Z 1 * xscale)) (int (inject_Z 1 * yscale))
          (int (inject_Z (Xsize self) * xscale))
          (int (inject_Z (Ysize self) * yscale))
          (_scale (Embed 1 1 1 (Xsize self + 1 * 2) (Ysize self + 1 * 2) self)
                  xscale yscale)).
Proof.
  intros Ex Ey. unfold stretch. rewrite Ex, Ey. reflexivity.
Qed.

Lemma Qlt_bool_false (a b : Q) : Qlt_bool a b = false <-> b <= a.
Proof.
  unfold Qlt_bool. rewrite negb_false_iff. apply Qle_bool_iff.
Qed.

(** [stretch] returns exactly when both scales are at least 1. *)
Lemma stretch_ok (self : VImage.t) (xscale yscale : Q) (r : VImage.t) :
  stretch self xscale yscale = Ok r ->
  1 <= xscale /\ 1 <= yscale
  /\ r = ExtractArea (int (inject_Z 1 * xscale)) (int (inject_Z 1 * yscale))
           (int (inject_Z (Xsize self) * xscale))
           (int (inject_Z (Ysize self) * yscale))
           (_scale
              (Embed 1 1 1 (Xsize self + 1 * 2) (Ysize self + 1 * 2) self)
              xscale yscale).
Proof.
  intros H.
  destruct (Qlt_bool xscale 1) eqn:Ex.
  { unfold stretch in H. rewrite Ex in H. discriminate H. }
  destruct (Qlt_bool yscale 1) eqn:Ey.
  { unfold stretch in H. rewrite Ex, Ey in H. discriminate H. }
  rewrite (stretch_eq _ _ _ Ex Ey) in H. injection H as <-.
  apply Qlt_bool_false in Ex, Ey. auto.
Qed.

(** X4: [stretch] by whole scales [a >= 1] and [b >= 1] returns an image of
    exactly [W * a] by [H * b] pixels. *)
Theorem stretch_integer_scale (self : VImage.t) (a b : Z) :
  (1 <= a)%Z -> (1 <= b)%Z ->
  exists r,
    stretch self (inject_Z a) (inject_Z b) = Ok r
    /\ Xsize r = (Xsize self * a)%Z /\ Ysize r = (Ysize self * b)%Z.
Proof.
  intros Ha Hb.
  assert (Hguard : forall c : Z, (1 <= c)%Z -> Qlt_bool (inject_Z c) 1 = false).
  { intros c Hc. apply Qlt_bool_false. change 1 with (inject_Z 1).
    now rewrite <- Zle_Qle. }
  rewrite (stretch_eq _ _ _ (Hguard a Ha) (Hguard b Hb)).
  eexists. split; [reflexivity|]. cbn [Xsize Ysize].
  rewrite !int_mult_inject_Z. auto.
Qed.

Lemma stretch_integer_scale_witness :
  exists r,
    stretch (Load "image.tif" 16 16) (inject_Z 3) (inject_Z 5) = Ok r
    /\ Xsize r = (16 * 3)%Z /\ Ysize r = (16 * 5)%Z.
Proof.
  apply (stretch_integer_scale (Load "image.tif" 16 16) 3 5); discriminate.
Defined.

(** The crop of one axis of [stretch]: the scaled border fits on both
    sides of the scaled side, and the scaled side is not shorter. *)
Lemma stretched_axis (W : Z) (s : Q) :
  (0 <= W)%Z -> 1 <= s ->
  (0 <= int (inject_Z 1 * s))%Z
  /\ (int (inject_Z 1 * s) + int (inject_Z W * s) + int (inject_Z 1 * s)
      <= int (inject_Z (W + 1 * 2) * s))%Z
  /\ (W <= int (inject_Z W * s))%Z.
Proof.
  intros HW Hs.
  assert (HWq : 0 <= inject_Z W).
  { change 0 with (inject_Z 0). now rewrite <- Zle_Qle. }
  assert (H1 : 0 <= inject_Z 1 * s) by (change (inject_Z 1) with 1; lra).
  assert (H2 : 0 <= inject_Z W * s) by (apply Qmult_le_0_compat; lra).
  assert (H3 : 0 <= inject_Z (W + 1 * 2) * s).
  { apply Qmult_le_0_compat; [|lra].
    change 0 with (inject_Z 0). rewrite <- Zle_Qle. lia. }
  rewrite (int_nonneg _ H1), (int_nonneg _ H2), (int_nonneg _ H3).
  split; [now apply Qfloor_nonneg|]. split.
  - assert (Hsum : inject_Z (W + 1 * 2) * s
                   == (inject_Z 1 * s + inject_Z W * s) + inject_Z 1 * s).
    { rewrite inject_Z_plus. change (inject_Z (1 * 2)) with 2.
      change (inject_Z 1) with 1. ring. }
    rewrite Hsum.
    pose proof (Qfloor_plus_le (inject_Z 1 * s) (inject_Z W * s)).
    pose proof (Qfloor_plus_le (inject_Z 1 * s + inject_Z W * s)
                  (inject_Z 1 * s)).
    lia.
  - rewrite <- (Qfloor_Z W) at 1. apply Qfloor_resp_le.
    setoid_replace (inject_Z W) with (inject_Z W * 1) at 1 by ring.
    rewrite (Qmult_comm (inject_Z W) 1), (Qmult_comm (inject_Z W) s).
    apply Qmult_le_compat_r; assumption.
Qed.

(** X5: on an image of non-negative size, the image [stretch] returns is a
    crop that lies inside the scaled extended image, with the scaled border
    left out on every side ([left + width + left] does not exceed the
    scaled width, and the same for rows), and it is never smaller than the
    receiver. *)
Theorem stretch_crop_inside (self : VImage.t) (xscale yscale : Q)
  (r : VImage.t) :
  (0 <= Xsize self)%Z -> (0 <= Ysize self)%Z ->
  stretch self xscale yscale = Ok r ->
  exists left top stretched,
    r = ExtractArea left top (Xsize r) (Ysize r) stretched
    /\ stretched
       = _scale (Embed 1 1 1 (Xsize self + 2) (Ysize self + 2) self)
                xscale yscale
    /\ (0 <= left)%Z /\ (left + Xsize r + left <= Xsize stretched)%Z
    /\ (0 <= top)%Z /\ (top + Ysize r + top <= Ysize stretched)%Z
    /\ (Xsize self <= Xsize r)%Z /\ (Ysize self <= Ysize r)%Z.
Proof.
  intros HW HH Hs.
  destruct (stretch_ok _ _ _ _ Hs) as (Hx & Hy & ->).
  destruct (stretched_axis _ _ HW Hx) as (Hl & Hlw & Hwx).
  destruct (stretched_axis _ _ HH Hy) as (Ht & Hth & Hhy).
  do 3 eexists. split; [reflexivity|]. split; [reflexivity|].
  cbn [_scale Xsize Ysize]. auto 8.
Qed.

Lemma stretch_crop_inside_witness :
  exists left top stretched,
    ExtractArea 3 5 48 80
      (Affine 3 0 0 5 ((3 - 1) / 2) ((5 - 1) / 2) 0 0 54 90
         (Embed 1 1 1 18 18 (Load "image.tif" 16 16)))
    = ExtractArea left top 48 80 stretched
    /\ stretched
       = _scale (Embed 1 1 1 18 18 (Load "image.tif" 16 16)) 3 5
    /\ (0 <= left)%Z /\ (left + 48 + left <= Xsize stretched)%Z
    /\ (0 <= top)%Z /\ (top + 80 + top <= Ysize stretched)%Z
    /\ (16 <= 48)%Z /\ (16 <= 80)%Z.
Proof.
  apply (stretch_crop_inside (Load "image.tif" 16 16) 3 5
           (ExtractArea 3 5 48 80
              (Affine 3 0 0 5 ((3 - 1) / 2) ((5 - 1) / 2) 0 0 54 90
                 (Embed 1 1 1 18 18 (Load "image.tif" 16 16)))));
    [discriminate | discriminate | reflexivity].
Defined.

End ScalingMore.

Section ShrinkBinary64.

Import Binary64 VImage PyNum.

Local Open Scope Q_scope.

(** An image scaled down by a power of two that divides its side. *)
Lemma int_scaled_pow2 (c j : Z) :
  (0 <= j)%Z -> (0 <= c * 2 ^ j < 2 ^ 53)%Z ->
  PyNum.int (Int (c * 2 ^ j) * Float (pow2 (- j)))%num = c.
Proof.
  intros Hj HW. cbn [mul PyNum.int to_float].
  assert (Hp : (0 < 2 ^ j)%Z) by (apply Z.pow_pos_nonneg; lia).
  assert (Hc : (0 <= c < 2 ^ 53)%Z) by nia.
  assert (Hq : nearest (inject_Z (c * 2 ^ j)) * pow2 (- j) == inject_Z c).
  { rewrite (nearest_inject_Z (c * 2 ^ j)) by lia.
    rewrite (pow2_nonpos (- j)) by lia. rewrite Z.opp_involutive.
    rewrite inject_Z_mult. field.
    intros H. pose proof (proj1 (inject_Z_injective (2 ^ j) 0%Z) H). lia. }
  rewrite (nearest_comp _ _ Hq).
  rewrite (int_comp _ _ (nearest_inject_Z c ltac:(lia))).
  apply int_inject_Z.
Qed.

(** X3: [shrink] by the floats [2^-j] and [2^-k] of a non-empty image whose
    width is a multiple of [2^j] and whose height is a multiple of [2^k],
    with sides below [2^53], returns an image of exactly [W / 2^j] by
    [H / 2^k] pixels: no product rounds.  In particular the scale 1 keeps
    the size, and the scale 0.5 halves an even side. *)
Theorem shrink_exact_fraction (self : VImage.t) (j k : Z) :
  (0 <= j)%Z -> (0 <= k)%Z ->
  (0 < Xsize self < 2 ^ 53)%Z -> (0 < Ysize self < 2 ^ 53)%Z ->
  (2 ^ j | Xsize self)%Z -> (2 ^ k | Ysize self)%Z ->
  representable (pow2 (- j)) /\ representable (pow2 (- k))
  /\ exists r,
       VImage64.shrink self (Float (pow2 (- j))) (Float (pow2 (- k))) = Ok r
       /\ Xsize r = (Xsize self / 2 ^ j)%Z
       /\ Ysize r = (Ysize self / 2 ^ k)%Z.
Proof.
  intros Hj Hk HW HH [cx Hx] [cy Hy].
  assert (Hsmall : forall i c W : Z,
             (0 <= i)%Z -> (0 < W < 2 ^ 53)%Z -> W = (c * 2 ^ i)%Z ->
             (i <= 1022)%Z).
  { intros i c W Hi HWb HWc.
    assert (Hp : (0 < 2 ^ i)%Z) by (apply Z.pow_pos_nonneg; lia).
    assert (Hlt : (2 ^ i < 2 ^ 53)%Z).
    { apply Z.le_lt_trans with W; [|lia]. rewrite HWc in *.
      assert (Hc : (1 <= c)%Z) by nia. nia. }
    destruct (Z.le_gt_cases 53 i) as [Hge | ?]; [|lia].
    pose proof (Z.pow_le_mono_r 2 53 i ltac:(lia) Hge). lia. }
  split; [|split].
  - apply pow2_representable.
    split; [exact Hj | exact (Hsmall j cx (Xsize self) Hj HW Hx)].
  - apply pow2_representable.
    split; [exact Hk | exact (Hsmall k cy (Ysize self) Hk HH Hy)].
  - unfold VImage64.shrink.
    rewrite (proj2 (shrink64_guard (Float (pow2 (- j)))) (pow2_scale j Hj)).
    rewrite (proj2 (shrink64_guard (Float (pow2 (- k)))) (pow2_scale k Hk)).
    cbn [negb]. eexists. split; [reflexivity|].
    cbn [VImage64._scale Xsize Ysize]. rewrite Hx, Hy in *.
    rewrite !int_scaled_pow2 by lia.
    assert (Hpj : (0 < 2 ^ j)%Z) by (apply Z.pow_pos_nonneg; lia).
    assert (Hpk : (0 < 2 ^ k)%Z) by (apply Z.pow_pos_nonneg; lia).
    rewrite !Z.div_mul by lia. auto.
Qed.

Lemma shrink_exact_fraction_witness :
  representable (pow2 (- 2)) /\ representable (pow2 (- 1))
  /\ exists r,
       VImage64.shrink (Load "image.tif" 16 16)
         (Float (pow2 (- 2))) (Float (pow2 (- 1))) = Ok r
       /\ Xsize r = (16 / 2 ^ 2)%Z /\ Ysize r = (16 / 2 ^ 1)%Z.
Proof.
  apply (shrink_exact_fraction (Load "image.tif" 16 16) 2 1);
    try (split; reflexivity); try discriminate;
    [exists 4%Z; reflexivity | exists 8%Z; reflexivity].
Defined.

End ShrinkBinary64.

(** ** More on tms_align *)

Section TmsAlignMore.

Import VImage.

(** The aligned side in integers: it is the first multiple of [T] at or
    beyond [W + x/2]. *)
Lemma aligned_side_Z (W x T : Z) :
  0 < T ->
  2 * W + x <= 2 * aligned_side W x T < 2 * W + x + 2 * T
  /\ (T | aligned_side W x T).
Proof.
  intros HT. split; [|apply Z.divide_factor_r].
  unfold aligned_side.
  set (q := ((inject_Z W + inject_Z x / 2) / inject_Z T)%Q).
  assert (HTq : (0 < inject_Z T)%Q).
  { change 0%Q with (inject_Z 0). now rewrite <- Zlt_Qlt. }
  assert (Hq : (q * inject_Z T == inject_Z W + inject_Z x * (1 # 2))%Q).
  { unfold q. field. lra. }
  assert (Hlo : (q * inject_Z T <= inject_Z (Qceiling q) * inject_Z T)%Q).
  { apply Qmult_le_compat_r; [apply Qle_ceiling | lra]. }
  assert (Hhi : ((inject_Z (Qceiling q) - 1) * inject_Z T
                 < q * inject_Z T)%Q).
  { apply Qmult_lt_compat_r; [exact HTq|].
    pose proof (Qceiling_lt q) as Hc.
    unfold Z.sub in Hc. rewrite inject_Z_plus in Hc.
    change (inject_Z (- (1))) with (- (1))%Q in Hc. lra. }
  rewrite Hq in Hlo, Hhi.
  setoid_replace ((inject_Z (Qceiling q) - 1) * inject_Z T)%Q
    with (inject_Z (Qceiling q) * inject_Z T - inject_Z T)%Q in Hhi by ring.
  rewrite <- inject_Z_mult in Hlo, Hhi.
  set (W' := Qceiling q * T) in *.
  split.
  - rewrite Zle_Qle. rewrite inject_Z_plus, !inject_Z_mult.
    change (inject_Z 2) with 2%Q. lra.
  - rewrite Zlt_Qlt. rewrite !inject_Z_plus, !inject_Z_mult.
    change (inject_Z 2) with 2%Q. lra.
Qed.

(** An image whose sides leave room for the pixel offset inside their last
    tile lies within the aligned side. *)
Lemma aligned_side_fits (W x T : Z) :
  0 < T -> 0 <= x -> x + W mod T <= T -> x + W <= aligned_side W x T.
Proof.
  intros HT Hx Hroom.
  destruct (aligned_side_Z W x T HT) as [[Hlo _] [c Hc]].
  rewrite Hc in *.
  pose proof (Z.div_mod W T ltac:(lia)) as HW.
  pose proof (Z.mod_pos_bound W T HT) as Hr.
  set (k := W / T) in *. set (r := W mod T) in *.
  destruct (Z.eq_dec x 0) as [-> | Hx0]; [lia|].
  assert (Hck : k + 1 <= c) by nia.
  nia.
Qed.

Variables (self : VImage.t) (tile_width tile_height : Z) (offset : XY.t).

(** What [tms_align] returns, whatever the branch. *)
Lemma tms_align_result :
  tile_width <> 0 -> tile_height <> 0 ->
  exists r,
    tms_align self tile_width tile_height offset = Ok r
    /\ Xsize r = aligned_side (Xsize self) (pixel_x tile_width offset)
                   tile_width
    /\ Ysize r = aligned_side (Ysize self) (pixel_y self tile_height offset)
                   tile_height
    /\ (r = self
        \/ r = Embed 0 (pixel_x tile_width offset)
                 (pixel_y self tile_height offset) (Xsize r) (Ysize r) self).
Proof.
  intros Hw Hh.
  destruct (tms_align_cases self tile_width tile_height offset Hw Hh)
    as [(HW & HH & _ & _ & Hret) | (_ & Hret)]; cbv zeta in *;
    rewrite Hret; eexists; (split; [reflexivity|]).
  - auto.
  - cbn [Xsize Ysize]. auto.
Qed.

(** [tms_align] leaves an aligned image alone when the offset is
    integer-valued. *)
Lemma tms_align_aligned_id :
  tile_width <> 0 -> tile_height <> 0 ->
  (tile_width | Xsize self) -> (tile_height | Ysize self) ->
  integer_offset offset ->
  tms_align self tile_width tile_height offset = Ok self.
Proof.
  intros Hw Hh HdW HdH (ox & oy & Hox & Hoy).
  destruct (tms_align_cases self tile_width tile_height offset Hw Hh)
    as [(_ & _ & _ & _ & Hret) | (Hne & _)];
    [exact Hret | exfalso; apply Hne].
  rewrite (pixel_x_integer tile_width offset ox Hox).
  rewrite (pixel_y_integer self tile_height offset oy Hoy HdH).
  rewrite (padded_side_aligned _ _ Hw HdW).
  rewrite (padded_side_aligned _ _ Hh HdH). reflexivity.
Qed.

End TmsAlignMore.

Section TmsAlignExtras.

Import VImage.

(** X6: with positive tile sides, the image [tms_align] returns is at least
    as wide and as high as the receiver, and less than one and a half tiles
    wider and higher.  This bounds the size of the canvas only; where the
    receiver lands on it is another matter, see [tms_align_crosses_canvas]
    below. *)
Theorem tms_align_covers (self : VImage.t) (tile_width tile_height : Z)
  (offset : XY.t) (r : VImage.t) :
  0 < tile_width -> 0 < tile_height ->
  tms_align self tile_width tile_height offset = Ok r ->
  (Xsize self <= Xsize r /\ 2 * (Xsize r - Xsize self) < 3 * tile_width)
  /\ (Ysize self <= Ysize r /\ 2 * (Ysize r - Ysize self) < 3 * tile_height).
Proof.
  intros Hw Hh Hal.
  destruct (tms_align_result self tile_width tile_height offset
              ltac:(lia) ltac:(lia)) as (r' & Hr & HX & HY & _).
  rewrite Hr in Hal. injection Hal as <-. rewrite HX, HY.
  pose proof (Z.mod_pos_bound
                (int (round (XY.x offset * inject_Z tile_width)))
                tile_width Hw) as Hx.
  pose proof (Z.mod_pos_bound
                (int (round (inject_Z (Ysize self)
                             - XY.y offset * inject_Z tile_height)))
                tile_height Hh) as Hy.
  fold (pixel_x tile_width offset) in Hx.
  fold (pixel_y self tile_height offset) in Hy.
  destruct (aligned_side_Z (Xsize self) (pixel_x tile_width offset)
              tile_width Hw) as [HWb _].
  destruct (aligned_side_Z (Ysize self) (pixel_y self tile_height offset)
              tile_height Hh) as [HHb _].
  lia.
Qed.

Lemma tms_align_covers_witness :
  (16 <= 32 /\ 2 * (32 - 16) < 3 * 16) /\ (16 <= 32 /\ 2 * (32 - 16) < 3 * 16).
Proof.
  apply (tms_align_covers (Load "image.tif" 16 16) 16 16
           (XY.mk (3 # 2) (3 # 2))
           (Embed 0 8 8 32 32 (Load "image.tif" 16 16)));
    reflexivity.
Defined.

(** The canvas may be too small for the position the receiver is given: a
    24 x 24 image with 16-pixel tiles and offset (15/16, 9/16) is embedded
    at (15, 15) on a canvas of 32 x 32, so that it crosses the right and
    the bottom edge. *)
Lemma tms_align_crosses_canvas :
  tms_align (Load "image.tif" 24 24) 16 16 (XY.mk (15 # 16) (9 # 16))
  = Ok (Embed 0 15 15 32 32 (Load "image.tif" 24 24))
  /\ 32 < 15 + 24.
Proof. split; reflexivity. Qed.

(** X7: with non-zero tile sides, an image returned by [tms_align] is
    aligned for good: aligning it again, at any integer-valued offset,
    returns it unchanged. *)
Theorem tms_align_idempotent (self : VImage.t) (tile_width tile_height : Z)
  (offset offset' : XY.t) (r : VImage.t) :
  tile_width <> 0 -> tile_height <> 0 ->
  integer_offset offset' ->
  tms_align self tile_width tile_height offset = Ok r ->
  tms_align r tile_width tile_height offset' = Ok r.
Proof.
  intros Hw Hh Hint Hal.
  destruct (tms_align_result self tile_width tile_height offset Hw Hh)
    as (r' & Hr & HX & HY & _).
  rewrite Hr in Hal. injection Hal as <-.
  apply tms_align_aligned_id; try assumption.
  - rewrite HX. apply Z.divide_factor_r.
  - rewrite HY. apply Z.divide_factor_r.
Qed.

Lemma tms_align_idempotent_witness :
  tms_align (Embed 0 8 8 32 32 (Load "image.tif" 16 16)) 16 16 (XY.mk 1 1)
  = Ok (Embed 0 8 8 32 32 (Load "image.tif" 16 16)).
Proof.
  apply (tms_align_idempotent (Load "image.tif" 16 16) 16 16
           (XY.mk (3 # 2) (3 # 2)) (XY.mk 1 1));
    [discriminate | discriminate
    | exists 1, 1; split; reflexivity | reflexivity].
Defined.

(** X8: with positive tile sides, an image whose width and height are
    whole multiples of the tile sides is never cut by [tms_align], whatever
    the offset: either it is returned unchanged, or it is embedded at a
    position [(x, y)] where it lies entirely inside the canvas. *)
Theorem tms_align_keeps_whole_tiles (self : VImage.t)
  (tile_width tile_height : Z) (offset : XY.t) (r : VImage.t) :
  0 < tile_width -> 0 < tile_height ->
  (tile_width | Xsize self) -> (tile_height | Ysize self) ->
  tms_align self tile_width tile_height offset = Ok r ->
  r = self
  \/ exists x y,
       r = Embed 0 x y (Xsize r) (Ysize r) self
       /\ 0 <= x /\ x + Xsize self <= Xsize r
       /\ 0 <= y /\ y + Ysize self <= Ysize r.
Proof.
  intros Hw Hh HdW HdH Hal.
  destruct (tms_align_result self tile_width tile_height offset
              ltac:(lia) ltac:(lia)) as (r' & Hr & HX & HY & Hshape).
  rewrite Hr in Hal. injection Hal as <-.
  destruct Hshape as [-> | Hemb]; [left; reflexivity | right].
  pose proof (Z.mod_pos_bound
                (int (round (XY.x offset * inject_Z tile_width)))
                tile_width Hw) as Hx.
  pose proof (Z.mod_pos_bound
                (int (round (inject_Z (Ysize self)
                             - XY.y offset * inject_Z tile_height)))
                tile_height Hh) as Hy.
  fold (pixel_x tile_width offset) in Hx.
  fold (pixel_y self tile_height offset) in Hy.
  exists (pixel_x tile_width offset), (pixel_y self tile_height offset).
  split; [exact Hemb|]. rewrite HX, HY.
  assert (HmW : Xsize self mod tile_width = 0)
    by (apply Z.mod_divide; [lia | exact HdW]).
  assert (HmH : Ysize self mod tile_height = 0)
    by (apply Z.mod_divide; [lia | exact HdH]).
  repeat split; try lia.
  - apply aligned_side_fits; lia.
  - apply aligned_side_fits; lia.
Qed.

Lemma tms_align_keeps_whole_tiles_witness :
  Embed 0 8 8 32 32 (Load "image.tif" 16 16) = Load "image.tif" 16 16
  \/ exists x y,
       Embed 0 8 8 32 32 (Load "image.tif" 16 16)
       = Embed 0 x y 32 32 (Load "image.tif" 16 16)
       /\ 0 <= x /\ x + 16 <= 32 /\ 0 <= y /\ y + 16 <= 32.
Proof.
  apply (tms_align_keeps_whole_tiles (Load "image.tif" 16 16) 16 16
           (XY.mk (3 # 2) (3 # 2))
           (Embed 0 8 8 32 32 (Load "image.tif" 16 16)));
    [reflexivity | reflexivity | exists 1; reflexivity
    | exists 1; reflexivity | reflexivity].
Defined.

End TmsAlignExtras.

(** ** More on TmsTiles *)

Section SlicingMore.

Import TmsTiles.

(** The tiles of an aligned image with an integer-valued offset, as a map
    over the grid. *)
Lemma slice_calls_aligned (self : TmsTiles.t) (ox oy : Z) :
  0 < tile_width self -> 0 < tile_height self ->
  (tile_width self | image_width self) ->
  (tile_height self | image_height self) ->
  (XY.x (offset self) == inject_Z ox)%Q ->
  (XY.y (offset self) == inject_Z oy)%Q ->
  slice_calls self
  = map (fun p =>
           Storage.save (fst p / tile_width self + ox)
             ((image_height self - snd p) / tile_height self + oy - 1)
             (resolution self)
             (VImage.ExtractArea (fst p) (snd p)
                (tile_width self) (tile_height self) (image self)))
        (grid (xrange_items 0 (image_width self) (tile_width self))
              (xrange_items 0 (image_height self) (tile_height self))).
Proof.
  intros Hw Hh HdW HdH Hox Hoy. unfold slice_calls.
  rewrite flat_map_grid. apply map_ext_in. intros [x y] Hin.
  cbn [fst snd]. apply grid_In in Hin. destruct Hin as [Hx Hy].
  apply (xrange_items_In _ _ x Hw) in Hx.
  apply (xrange_items_In _ _ y Hh) in Hy.
  apply tile_call_aligned; try assumption; try lia.
  - tauto.
  - apply Z.divide_sub_r; tauto.
Qed.

Lemma xrange_items_length (stop step : Z) :
  0 < step -> 0 <= stop ->
  Z.of_nat (List.length (xrange_items 0 stop step)) = (stop + step - 1) / step.
Proof.
  intros Hstep Hstop. unfold xrange_items, xrange_len.
  rewrite List.length_map, List.length_seq.
  destruct (Z.ltb_spec 0 step) as [_ | ?]; [|lia].
  destruct (Z.ltb_spec 0 stop) as [Hpos | Hz].
  - replace (stop + step - 1) with (stop - 0 - 1 + 1 * step) by lia.
    rewrite Z.div_add by lia.
    pose proof (Z.div_pos (stop - 0 - 1) step). lia.
  - replace stop with 0 by lia. cbn [Z.to_nat Z.of_nat].
    symmetry. apply Z.div_small. lia.
Qed.

Lemma slice_calls_length (self : TmsTiles.t) :
  List.length (slice_calls self)
  = (List.length (xrange_items 0 (image_width self) (tile_width self))
     * List.length (xrange_items 0 (image_height self) (tile_height self)))%nat.
Proof.
  unfold slice_calls.
  induction (xrange_items 0 (image_height self) (tile_height self))
    as [|y ys IH]; cbn [flat_map].
  - now rewrite Nat.mul_0_r.
  - rewrite List.length_app, List.length_map, IH. cbn [List.length]. lia.
Qed.

Lemma slice_calls_Forall (self : TmsTiles.t) (P : Storage.call -> Prop) :
  Forall P (slice_calls self) <->
  (forall x y,
      In x (xrange_items 0 (image_width self) (tile_width self)) ->
      In y (xrange_items 0 (image_height self) (tile_height self)) ->
      P (tile_call self y x)).
Proof.
  unfold slice_calls. rewrite Forall_forall. split.
  - intros H x y Hx Hy. apply H. apply in_flat_map. exists y.
    split; [exact Hy|]. apply in_map. exact Hx.
  - intros H c Hc. apply in_flat_map in Hc. destruct Hc as (y & Hy & Hc).
    apply in_map_iff in Hc. destruct Hc as (x & <- & Hx). now apply H.
Qed.

(** On an aligned image every extracted area lies within the image. *)
Lemma slice_calls_within (self : TmsTiles.t) :
  0 < tile_width self -> 0 < tile_height self ->
  (tile_width self | image_width self) ->
  (tile_height self | image_height self) ->
  Forall within_image (slice_calls self).
Proof.
  intros Hw Hh [cw HdW] [ch HdH]. apply slice_calls_Forall.
  unfold image_width, image_height in *. intros x y Hx Hy.
  apply (xrange_items_In _ _ x Hw) in Hx.
  apply (xrange_items_In _ _ y Hh) in Hy.
  destruct Hx as [Hx [i ->]], Hy as [Hy [j ->]].
  cbn. rewrite HdW, HdH in *.
  assert (Hi : i + 1 <= cw) by nia.
  assert (Hj : j + 1 <= ch) by nia.
  repeat split; nia.
Qed.

(** X9: on an image of non-negative size whose width and height are whole
    multiples of the positive tile sides, [_slice] returns after submitting
    only tiles: each call saves, at the zoom of the level, an extract of
    [tile_width] x [tile_height] pixels that lies within the level's image,
    and there are [(W / tile_width) * (H / tile_height)] of them. *)
Theorem _slice_tile_shape (self : TmsTiles.t) (st : Storage.t) :
  0 < tile_width self -> 0 < tile_height self ->
  0 <= image_width self -> 0 <= image_height self ->
  (tile_width self | image_width self) ->
  (tile_height self | image_height self) ->
  exists calls,
    _slice self st = (Ok tt, st ++ calls)
    /\ Forall (tile_of (image self) (tile_width self) (tile_height self)
                 (resolution self)) calls
    /\ Forall within_image calls
    /\ Z.of_nat (List.length calls)
       = (image_width self / tile_width self)
         * (image_height self / tile_height self).
Proof.
  intros Hw Hh HW HH HdW HdH. exists (slice_calls self).
  split; [apply _slice_run; lia|]. split; [|split].
  - apply slice_calls_Forall. intros x y _ _.
    unfold tile_call, VImage.extract_area, tile_of. cbn. eauto 6.
  - now apply slice_calls_within.
  - rewrite slice_calls_length, Nat2Z.inj_mul.
    rewrite !xrange_items_length by assumption.
    assert (Hwhole : forall a T, 0 < T -> (T | a) -> (a + T - 1) / T = a / T).
    { intros a T HT [c ->].
      replace (c * T + T - 1) with (T - 1 + c * T) by lia.
      rewrite Z.div_add, Z.div_mul by lia.
      rewrite Z.div_small by lia. lia. }
    now rewrite !Hwhole.
Qed.

Lemma _slice_tile_shape_witness :
  exists calls,
    _slice (mk (VImage.Load "aligned.tif" 512 256) 256 256 (XY.mk 0 0) 2) []
    = (Ok tt, [] ++ calls)
    /\ Forall (tile_of (VImage.Load "aligned.tif" 512 256) 256 256 2) calls
    /\ Forall within_image calls
    /\ Z.of_nat (List.length calls) = (512 / 256) * (256 / 256).
Proof.
  apply (_slice_tile_shape
           (mk (VImage.Load "aligned.tif" 512 256) 256 256 (XY.mk 0 0) 2)
           []);
    [reflexivity | reflexivity | discriminate | discriminate
    | exists 2; reflexivity | exists 1; reflexivity].
Defined.

(** On a non-empty image that is not aligned some extracted area leaves
    the image. *)
Lemma slice_calls_aligned_of_within (self : TmsTiles.t) :
  0 < tile_width self -> 0 < tile_height self ->
  0 < image_width self -> 0 < image_height self ->
  Forall within_image (slice_calls self) ->
  (tile_width self | image_width self)
  /\ (tile_height self | image_height self).
Proof.
  intros Hw Hh HW HH Hall. rewrite slice_calls_Forall in Hall.
  assert (Hlast : forall stop step, 0 < step -> 0 < stop ->
             In ((stop - 1) / step * step) (xrange_items 0 stop step)).
  { intros stop step Hstep Hstop. apply xrange_items_In; [exact Hstep|].
    pose proof (Z.mul_div_le (stop - 1) step Hstep).
    pose proof (Z.div_pos (stop - 1) step).
    split; [nia | apply Z.divide_factor_r]. }
  assert (Hfirst : forall stop step, 0 < step -> 0 < stop ->
             In 0 (xrange_items 0 stop step)).
  { intros stop step Hstep Hstop. apply xrange_items_In; [exact Hstep|].
    split; [lia | apply Z.divide_0_r]. }
  assert (Hdiv : forall stop step, 0 < step -> 0 < stop ->
             (stop - 1) / step * step + step <= stop -> (step | stop)).
  { intros stop step Hstep Hstop Hle.
    exists ((stop - 1) / step + 1).
    pose proof (Z.mod_pos_bound (stop - 1) step Hstep).
    pose proof (Z.div_mod (stop - 1) step ltac:(lia)). nia. }
  unfold image_width, image_height in *. split.
  - specialize (Hall _ 0 (Hlast _ _ Hw HW) (Hfirst _ _ Hh HH)).
    cbn in Hall. apply Hdiv; lia.
  - specialize (Hall 0 _ (Hfirst _ _ Hw HW) (Hlast _ _ Hh HH)).
    cbn in Hall. apply Hdiv; lia.
Qed.

(** X10: with positive tile sides and a non-empty image, every area
    [_slice] extracts lies within the image if and only if the width and
    the height of the image are whole multiples of the tile sides, the
    condition [slice] checks before slicing. *)
Theorem _slice_within_image_iff (self : TmsTiles.t) (st : Storage.t) :
  0 < tile_width self -> 0 < tile_height self ->
  0 < image_width self -> 0 < image_height self ->
  exists calls,
    _slice self st = (Ok tt, st ++ calls)
    /\ (Forall within_image calls
        <-> (tile_width self | image_width self)
            /\ (tile_height self | image_height self)).
Proof.
  intros Hw Hh HW HH. exists (slice_calls self).
  split; [apply _slice_run; lia|]. split.
  - now apply slice_calls_aligned_of_within.
  - intros [HdW HdH]. now apply slice_calls_within.
Qed.

Lemma _slice_within_image_iff_witness :
  exists calls,
    _slice (mk (VImage.Load "spanning.tif" 300 256) 256 256 (XY.mk 0 0) 2) []
    = (Ok tt, [] ++ calls)
    /\ (Forall within_image calls <-> (256 | 300) /\ (256 | 256)).
Proof.
  apply (_slice_within_image_iff
           (mk (VImage.Load "spanning.tif" 300 256) 256 256 (XY.mk 0 0) 2)
           []);
    reflexivity.
Defined.

(** The addresses of the tiles of an aligned level with integer offset. *)
Lemma slice_calls_addresses (self : TmsTiles.t) (ox oy : Z) :
  0 < tile_width self -> 0 < tile_height self ->
  (tile_width self | image_width self) ->
  (tile_height self | image_height self) ->
  (XY.x (offset self) == inject_Z ox)%Q ->
  (XY.y (offset self) == inject_Z oy)%Q ->
  NoDup (map address (slice_calls self))
  /\ (forall c, In c (slice_calls self) -> address c <> None)
  /\ (forall a b,
         In (Some (a, b)) (map address (slice_calls self)) <->
         ox <= a < ox + image_width self / tile_width self
         /\ oy <= b < oy + image_height self / tile_height self).
Proof.
  intros Hw Hh HdW HdH Hox Hoy.
  rewrite (slice_calls_aligned self ox oy Hw Hh HdW HdH Hox Hoy).
  set (xs := xrange_items 0 (image_width self) (tile_width self)).
  set (ys := xrange_items 0 (image_height self) (tile_height self)).
  assert (Hgrid : forall x y, In (x, y) (grid xs ys) <->
             (0 <= x < image_width self /\ (tile_width self | x))
             /\ (0 <= y < image_height self /\ (tile_height self | y))).
  { intros x y. rewrite grid_In. unfold xs, ys.
    now rewrite (xrange_items_In _ _ x Hw), (xrange_items_In _ _ y Hh). }
  destruct HdW as [cw HdW], HdH as [ch HdH].
  rewrite HdW, HdH in *.
  rewrite !Z.div_mul by lia. rewrite map_map. cbn [address].
  split; [|split].
  - apply NoDup_map_NoDup_ForallPairs.
    + intros [x y] [x' y'] Hin Hin' Heq. cbn [fst snd] in Heq.
      apply Hgrid in Hin, Hin'.
      destruct Hin as [[_ [i ->]] [_ [j ->]]].
      destruct Hin' as [[_ [i' ->]] [_ [j' ->]]].
      injection Heq as Hx Hy.
      replace (ch * tile_height self - j * tile_height self)
        with ((ch - j) * tile_height self) in Hy by ring.
      replace (ch * tile_height self - j' * tile_height self)
        with ((ch - j') * tile_height self) in Hy by ring.
      rewrite !Z.div_mul in Hx, Hy by lia.
      f_equal; f_equal; lia.
    + apply grid_NoDup; apply xrange_items_NoDup; lia.
  - intros c Hc. apply in_map_iff in Hc. destruct Hc as (p & <- & _).
    discriminate.
  - intros a b. rewrite in_map_iff. split.
    + intros ([x y] & Heq & Hin). cbn [fst snd] in Heq.
      apply Hgrid in Hin. destruct Hin as [[Hx [i ->]] [Hy [j ->]]].
      replace (ch * tile_height self - j * tile_height self)
        with ((ch - j) * tile_height self) in Heq by ring.
      rewrite !Z.div_mul in Heq by lia. injection Heq as <- <-.
      assert (0 <= i < cw) by nia. assert (0 <= j < ch) by nia. lia.
    + intros [Ha Hb].
      exists ((a - ox) * tile_width self,
              (ch - 1 - (b - oy)) * tile_height self).
      cbn [fst snd]. split.
      * replace (ch * tile_height self
                 - (ch - 1 - (b - oy)) * tile_height self)
          with ((b - oy + 1) * tile_height self) by ring.
        rewrite !Z.div_mul by lia. f_equal. f_equal; lia.
      * apply Hgrid. repeat split; try nia; apply Z.divide_factor_r.
Qed.

(** X11: for an aligned level (positive tile sides dividing the image
    sides) with integer offset [(ox, oy)], the TMS addresses [_slice] saves
    are pairwise distinct and are exactly the rectangle
    [ox <= tms_x < ox + W/tile_width], [oy <= tms_y < oy + H/tile_height]:
    the offset is the address of the lower-left tile. *)
Theorem _slice_addresses (self : TmsTiles.t) (st : Storage.t) (ox oy : Z) :
  0 < tile_width self -> 0 < tile_height self ->
  (tile_width self | image_width self) ->
  (tile_height self | image_height self) ->
  (XY.x (offset self) == inject_Z ox)%Q ->
  (XY.y (offset self) == inject_Z oy)%Q ->
  exists calls,
    _slice self st = (Ok tt, st ++ calls)
    /\ NoDup (map address calls)
    /\ (forall c, In c calls -> address c <> None)
    /\ (forall a b,
           In (Some (a, b)) (map address calls) <->
           ox <= a < ox + image_width self / tile_width self
           /\ oy <= b < oy + image_height self / tile_height self).
Proof.
  intros Hw Hh HdW HdH Hox Hoy. exists (slice_calls self).
  split; [apply _slice_run; lia|].
  now apply slice_calls_addresses.
Qed.

Lemma _slice_addresses_witness :
  exists calls,
    _slice (mk (VImage.Load "aligned.tif" 512 256) 256 256 (XY.mk 1 1) 2) []
    = (Ok tt, [] ++ calls)
    /\ NoDup (map address calls)
    /\ (forall c, In c calls -> address c <> None)
    /\ (forall a b,
           In (Some (a, b)) (map address calls) <->
           1 <= a < 1 + 512 / 256 /\ 1 <= b < 1 + 256 / 256).
Proof.
  apply (_slice_addresses
           (mk (VImage.Load "aligned.tif" 512 256) 256 256 (XY.mk 1 1) 2)
           [] 1 1);
    [reflexivity | reflexivity | exists 2; reflexivity
    | exists 1; reflexivity | reflexivity | reflexivity].
Defined.

(** X12: edge cases of [_slice].  With positive tile sides an image with no
    column or no row gives no tile and leaves the storage as it is.  A zero
    [tile_height], or a zero [tile_width] under a positive [tile_height]
    and a non-empty image, makes [xrange] raise [ValueError] before
    anything is submitted. *)
Theorem _slice_edge_cases (self : TmsTiles.t) (st : Storage.t) :
  (0 < tile_width self -> 0 < tile_height self ->
   image_width self <= 0 \/ image_height self <= 0 ->
   _slice self st = (Ok tt, st))
  /\ (tile_height self = 0 ->
      _slice self st = (Raise (ValueError XrangeZeroStep), st))
  /\ (tile_width self = 0 -> 0 < tile_height self ->
      0 < image_height self ->
      _slice self st = (Raise (ValueError XrangeZeroStep), st)).
Proof.
  assert (Hempty : forall stop step, 0 < step -> stop <= 0 ->
             xrange_items 0 stop step = []).
  { intros stop step Hstep Hstop. unfold xrange_items, xrange_len.
    destruct (Z.ltb_spec 0 step); [|lia].
    destruct (Z.ltb_spec 0 stop); [lia|]. reflexivity. }
  split; [|split].
  - intros Hw Hh Hsize. rewrite _slice_run by lia.
    rewrite <- (app_nil_r st) at 2. f_equal. unfold slice_calls.
    destruct Hsize as [HW | HH].
    + rewrite (Hempty _ _ Hw HW). cbn [map].
      induction (xrange_items 0 (image_height self) (tile_height self));
        [reflexivity | exact IHl].
    + now rewrite (Hempty _ _ Hh HH).
  - intros Hh. unfold _slice, mbind, lift, xrange. now rewrite Hh.
  - intros Hw Hh HH. unfold _slice, mbind, lift, xrange.
    rewrite (proj2 (Z.eqb_neq _ _) (Z.neq_sym _ _ (Z.lt_neq _ _ Hh))).
    unfold xrange_items at 1, xrange_len at 1.
    destruct (Z.ltb_spec 0 (tile_height self)); [|lia].
    destruct (Z.ltb_spec 0 (image_height self)); [|lia].
    pose proof (Z.div_pos (image_height self - 0 - 1) (tile_height self)).
    destruct (Z.to_nat ((image_height self - 0 - 1) / tile_height self + 1))
      as [|n] eqn:En; [lia|].
    cbn [seq map for_each]. unfold mbind. rewrite Hw. reflexivity.
Qed.

Lemma _slice_edge_cases_witness :
  _slice (mk (VImage.Load "image.tif" 16 16) 0 16 (XY.mk 0 0) 2) []
  = (Raise (ValueError XrangeZeroStep), []).
Proof.
  apply (_slice_edge_cases
           (mk (VImage.Load "image.tif" 16 16) 0 16 (XY.mk 0 0) 2) []);
    reflexivity.
Defined.

End SlicingMore.

(** ** More on resampling *)

Section ResamplingMore.

Import TmsTiles.

Lemma range_cons (start stop : Z) :
  start < stop -> range start stop = start :: range (start + 1) stop.
Proof.
  intros H. unfold range.
  replace (Z.to_nat (stop - start))
    with (S (Z.to_nat (stop - (start + 1)))) by lia.
  cbn [seq map]. f_equal; [cbn; lia|].
  rewrite <- seq_shift, map_map. apply map_ext. intros i. lia.
Qed.

Lemma rev_range_last (start stop : Z) :
  start < stop ->
  rev (range start stop) = rev (range (start + 1) stop) ++ [start].
Proof. intros H. now rewrite (range_cons _ _ H). Qed.

Lemma fold_result_app {A S : Type} (body : A -> S -> result S)
  (l1 l2 : list A) (s : S) :
  fold_result (l1 ++ l2) body s
  = bind (fold_result l1 body s) (fold_result l2 body).
Proof.
  revert s. induction l1 as [|a l1 IH]; intros s; cbn; [reflexivity|].
  destruct (body a s) as [s' | e]; cbn; [apply IH | reflexivity].
Qed.

(** One iteration of the loop of [downsample] always yields a level, whose
    image is a whole number of tiles and whose offset is integer-valued. *)
Lemma downsample_step_level (self : TmsTiles.t) (res : Z)
  (l : downsample_locals) :
  tile_width self <> 0 -> tile_height self <> 0 ->
  exists l' t,
    downsample_step self res l = Ok l'
    /\ l_tiles l' = Some t
    /\ resolution t = res
    /\ tile_width t = tile_width self
    /\ tile_height t = tile_height self
    /\ (tile_width self | image_width t)
    /\ (tile_height self | image_height t)
    /\ integer_offset (offset t).
Proof.
  intros Hw Hh. unfold downsample_step.
  change (VImage.shrink (l_image l) (1 # 2) (1 # 2))
    with (Ok (VImage._scale (l_image l) (1 # 2) (1 # 2))).
  cbn [bind].
  set (shrunk := VImage._scale (l_image l) (1 # 2) (1 # 2)).
  set (off := XY.mk (XY.x (l_offset l) / 2) (XY.y (l_offset l) / 2)).
  destruct (tms_align_result shrunk (tile_width self) (tile_height self) off
              Hw Hh) as (aligned & Hal & HX & HY & _).
  rewrite Hal. cbn [bind]. do 2 eexists.
  split; [reflexivity|]. split; [reflexivity|].
  cbn [resolution tile_width tile_height offset image
       image_width image_height].
  unfold image_width, image_height. cbn [image].
  repeat split.
  - rewrite HX. apply Z.divide_factor_r.
  - rewrite HY. apply Z.divide_factor_r.
  - do 2 eexists. split; reflexivity.
Qed.

Lemma downsample_fold_total (self : TmsTiles.t) (zs : list Z) :
  tile_width self <> 0 -> tile_height self <> 0 ->
  forall l, exists l', fold_result zs (downsample_step self) l = Ok l'.
Proof.
  intros Hw Hh. induction zs as [|z zs IH]; intros l; cbn [fold_result].
  - eauto.
  - destruct (downsample_step_level self z l Hw Hh) as (l1 & _ & Hl1 & _).
    rewrite Hl1. cbn [bind]. apply IH.
Qed.

(** X13: with non-zero tile sides, [downsample(levels)] fails, with
    [AssertionError], exactly when [levels] is not between 1 and the
    resolution of the level; otherwise it returns a level [levels] zooms
    below, with the same tile sides, an image that is a whole number of
    tiles and an integer-valued offset, that is, a level [slice] accepts. *)
Theorem downsample_levels (self : TmsTiles.t) (levels : Z) :
  tile_width self <> 0 -> tile_height self <> 0 ->
  (~ (0 < levels <= resolution self) ->
   downsample self levels = Raise AssertionError)
  /\ (0 < levels <= resolution self ->
      exists t,
        downsample self levels = Ok t
        /\ resolution t = resolution self - levels
        /\ tile_width t = tile_width self
        /\ tile_height t = tile_height self
        /\ (tile_width t | image_width t)
        /\ (tile_height t | image_height t)
        /\ integer_offset (offset t)).
Proof.
  intros Hw Hh. unfold downsample. split.
  - intros Hbad.
    destruct (Z.leb_spec levels (resolution self));
      destruct (Z.ltb_spec 0 levels); cbn [andb assert bind];
      try reflexivity; lia.
  - intros [Hpos Hle].
    rewrite (proj2 (Z.leb_le _ _) Hle), (proj2 (Z.ltb_lt _ _) Hpos).
    cbn [andb assert bind].
    rewrite rev_range_last by lia. rewrite fold_result_app.
    destruct (downsample_fold_total self
                (rev (range (resolution self - levels + 1) (resolution self)))
                Hw Hh (mk_locals (image self) (offset self) None))
      as [l1 Hl1].
    rewrite Hl1. cbn [bind fold_result].
    destruct (downsample_step_level self (resolution self - levels) l1 Hw Hh)
      as (l2 & t & Hl2 & Ht & Hres & Htw & Hth & HdW & HdH & Hoff).
    rewrite Hl2. cbn [bind]. rewrite Ht.
    exists t. rewrite Htw, Hth. auto 8.
Qed.

Lemma downsample_levels_witness :
  exists t,
    downsample (mk (VImage.Load "bluemarble.tif" 1024 1024) 256 256
                   (XY.mk 0 0) 2) 2
    = Ok t
    /\ resolution t = 2 - 2
    /\ tile_width t = 256
    /\ tile_height t = 256
    /\ (tile_width t | image_width t)
    /\ (tile_height t | image_height t)
    /\ integer_offset (offset t).
Proof.
  apply (downsample_levels
           (mk (VImage.Load "bluemarble.tif" 1024 1024) 256 256
               (XY.mk 0 0) 2) 2);
    [discriminate | discriminate | split; [reflexivity | discriminate]].
Defined.

Lemma int_integer (q : Q) (z : Z) : (q == inject_Z z)%Q -> int q = z.
Proof. intros H. rewrite (int_comp _ _ H). apply int_inject_Z. Qed.

(** [upsample] of an aligned level with integer offset. *)
Lemma upsample_scales (self : TmsTiles.t) (levels ox oy : Z) :
  tile_width self <> 0 -> tile_height self <> 0 ->
  (tile_width self | image_width self) ->
  (tile_height self | image_height self) ->
  (XY.x (offset self) == inject_Z ox)%Q ->
  (XY.y (offset self) == inject_Z oy)%Q ->
  (levels <= 0 -> upsample self levels = Raise AssertionError)
  /\ (0 < levels ->
      exists t,
        upsample self levels = Ok t
        /\ VImage.stretch (image self) (inject_Z (2 ^ levels))
             (inject_Z (2 ^ levels)) = Ok (image t)
        /\ image_width t = image_width self * 2 ^ levels
        /\ image_height t = image_height self * 2 ^ levels
        /\ offset t = XY.mk (inject_Z (ox * 2 ^ levels))
                            (inject_Z (oy * 2 ^ levels))
        /\ resolution t = resolution self + levels
        /\ tile_width t = tile_width self
        /\ tile_height t = tile_height self).
Proof.
  intros Hw Hh HdW HdH Hox Hoy. unfold upsample. split.
  - intros Hl. destruct (Z.ltb_spec 0 levels); [lia | reflexivity].
  - intros Hl. rewrite (proj2 (Z.ltb_lt _ _) Hl). cbn [assert bind].
    assert (Hguard : Qlt_bool (inject_Z (2 ^ levels)) 1 = false).
    { apply Qlt_bool_false. change 1%Q with (inject_Z 1).
      rewrite <- Zle_Qle.
      assert (0 < 2 ^ levels) by (apply Z.pow_pos_nonneg; lia). lia. }
    rewrite (stretch_eq _ _ _ Hguard Hguard). cbn [bind].
    set (stretched := VImage.ExtractArea _ _ _ _ _).
    set (off := XY.mk (XY.x (offset self) * inject_Z (2 ^ levels))
                      (XY.y (offset self) * inject_Z (2 ^ levels))).
    assert (HX : VImage.Xsize stretched = image_width self * 2 ^ levels).
    { unfold stretched. cbn [VImage.Xsize]. apply int_mult_inject_Z. }
    assert (HY : VImage.Ysize stretched = image_height self * 2 ^ levels).
    { unfold stretched. cbn [VImage.Ysize]. apply int_mult_inject_Z. }
    assert (Hofx : (XY.x off == inject_Z (ox * 2 ^ levels))%Q).
    { unfold off. cbn [XY.x]. now rewrite Hox, inject_Z_mult. }
    assert (Hofy : (XY.y off == inject_Z (oy * 2 ^ levels))%Q).
    { unfold off. cbn [XY.y]. now rewrite Hoy, inject_Z_mult. }
    rewrite (tms_align_aligned_id stretched (tile_width self)
               (tile_height self) off Hw Hh).
    + cbn [bind]. eexists. split; [reflexivity|].
      unfold image_width, image_height. cbn [image offset resolution
        tile_width tile_height].
      rewrite (int_integer _ _ Hofx), (int_integer _ _ Hofy).
      repeat split; assumption.
    + rewrite HX. now apply Z.divide_mul_l.
    + rewrite HY. now apply Z.divide_mul_l.
    + do 2 eexists. split; eassumption.
Qed.

(** X14: [upsample(levels)] fails with [AssertionError] when [levels] is
    not positive.  On an aligned level (non-zero tile sides dividing the
    image sides) with integer offset [(ox, oy)] and [levels > 0] nothing is
    padded: the new level holds the stretched image itself, of
    [W * 2^levels] by [H * 2^levels] pixels, at offset
    [(ox * 2^levels, oy * 2^levels)] and resolution [resolution + levels]. *)
Theorem upsample_exact (self : TmsTiles.t) (levels ox oy : Z) :
  tile_width self <> 0 -> tile_height self <> 0 ->
  (tile_width self | image_width self) ->
  (tile_height self | image_height self) ->
  (XY.x (offset self) == inject_Z ox)%Q ->
  (XY.y (offset self) == inject_Z oy)%Q ->
  (levels <= 0 -> upsample self levels = Raise AssertionError)
  /\ (0 < levels ->
      exists t,
        upsample self levels = Ok t
        /\ VImage.stretch (image self) (inject_Z (2 ^ levels))
             (inject_Z (2 ^ levels)) = Ok (image t)
        /\ image_width t = image_width self * 2 ^ levels
        /\ image_height t = image_height self * 2 ^ levels
        /\ offset t = XY.mk (inject_Z (ox * 2 ^ levels))
                            (inject_Z (oy * 2 ^ levels))
        /\ resolution t = resolution self + levels
        /\ tile_width t = tile_width self
        /\ tile_height t = tile_height self).
Proof. exact (upsample_scales self levels ox oy). Qed.

Lemma upsample_exact_witness :
  exists t,
    upsample (mk (VImage.Load "aligned.tif" 256 256) 256 256 (XY.mk 1 1) 2) 1
    = Ok t
    /\ VImage.stretch (VImage.Load "aligned.tif" 256 256) (inject_Z (2 ^ 1))
         (inject_Z (2 ^ 1)) = Ok (image t)
    /\ image_width t = 256 * 2 ^ 1
    /\ image_height t = 256 * 2 ^ 1
    /\ offset t = XY.mk (inject_Z (1 * 2 ^ 1)) (inject_Z (1 * 2 ^ 1))
    /\ resolution t = 2 + 1
    /\ tile_width t = 256
    /\ tile_height t = 256.
Proof.
  apply (upsample_exact
           (mk (VImage.Load "aligned.tif" 256 256) 256 256 (XY.mk 1 1) 2)
           1 1 1);
    [discriminate | discriminate | exists 1; reflexivity
    | exists 1; reflexivity | reflexivity | reflexivity | reflexivity].
Defined.

(** Half of an even side. *)
Lemma int_half (k : Z) : int (inject_Z (k * 2) * (1 # 2)) = k.
Proof.
  apply int_integer. unfold Qeq. cbn. ring.
Qed.

(** [downsample()] of a level made of double tiles at an even offset. *)
Lemma downsample_halves (self : TmsTiles.t) (a b : Z) :
  tile_width self <> 0 -> tile_height self <> 0 ->
  1 <= resolution self ->
  (2 * tile_width self | image_width self) ->
  (2 * tile_height self | image_height self) ->
  (XY.x (offset self) == inject_Z (2 * a))%Q ->
  (XY.y (offset self) == inject_Z (2 * b))%Q ->
  exists t,
    downsample self 1 = Ok t
    /\ VImage.shrink (image self) (1 # 2) (1 # 2) = Ok (image t)
    /\ image_width t = image_width self / 2
    /\ image_height t = image_height self / 2
    /\ offset t = XY.mk (inject_Z a) (inject_Z b)
    /\ resolution t = resolution self - 1
    /\ tile_width t = tile_width self
    /\ tile_height t = tile_height self.
Proof.
  intros Hw Hh Hres [kw HdW] [kh HdH] Hox Hoy.
  destruct (downsample_one self Hres Hw Hh)
    as (t & Hds & (shrunk & Hshr & Hal & Ht) & Hr & Htw & Hth).
  cbv zeta in Hal, Ht.
  set (off := XY.mk (XY.x (offset self) / 2) (XY.y (offset self) / 2)) in *.
  destruct (shrink_ok _ _ _ _ Hshr) as (_ & _ & Hscale).
  assert (HX : VImage.Xsize shrunk = kw * tile_width self).
  { rewrite Hscale. cbn [VImage._scale VImage.Xsize].
    fold (image_width self). rewrite HdW.
    replace (kw * (2 * tile_width self)) with (kw * tile_width self * 2)
      by ring.
    apply int_half. }
  assert (HY : VImage.Ysize shrunk = kh * tile_height self).
  { rewrite Hscale. cbn [VImage._scale VImage.Ysize].
    fold (image_height self). rewrite HdH.
    replace (kh * (2 * tile_height self)) with (kh * tile_height self * 2)
      by ring.
    apply int_half. }
  assert (Hofx : (XY.x off == inject_Z a)%Q).
  { unfold off. cbn [XY.x]. rewrite Hox, inject_Z_mult.
    change (inject_Z 2) with 2%Q. field. }
  assert (Hofy : (XY.y off == inject_Z b)%Q).
  { unfold off. cbn [XY.y]. rewrite Hoy, inject_Z_mult.
    change (inject_Z 2) with 2%Q. field. }
  rewrite (tms_align_aligned_id shrunk (tile_width self) (tile_height self)
             off Hw Hh) in Hal.
  - injection Hal as Himg.
    exists t. split; [exact Hds|]. split; [now rewrite <- Himg|].
    unfold image_width, image_height. rewrite <- Himg, HX, HY.
    fold (image_width self) (image_height self). rewrite HdW, HdH.
    replace (kw * (2 * tile_width self)) with (kw * tile_width self * 2)
      by ring.
    replace (kh * (2 * tile_height self)) with (kh * tile_height self * 2)
      by ring.
    rewrite !Z.div_mul by discriminate.
    repeat split; try assumption.
    rewrite Ht. cbn [offset].
    now rewrite (int_integer _ _ Hofx), (int_integer _ _ Hofy).
  - rewrite HX. apply Z.divide_factor_r.
  - rewrite HY. apply Z.divide_factor_r.
  - do 2 eexists. split; eassumption.
Qed.

(** X15: [downsample()] of a level above zoom 0 whose image is a whole
    number of double tiles (non-zero tile sides) and whose offset
    [(2a, 2b)] is even pads nothing: the new level holds the shrunk image
    itself, of [W/2] by [H/2] pixels, at offset [(a, b)], one zoom below. *)
Theorem downsample_exact (self : TmsTiles.t) (a b : Z) :
  tile_width self <> 0 -> tile_height self <> 0 ->
  1 <= resolution self ->
  (2 * tile_width self | image_width self) ->
  (2 * tile_height self | image_height self) ->
  (XY.x (offset self) == inject_Z (2 * a))%Q ->
  (XY.y (offset self) == inject_Z (2 * b))%Q ->
  exists t,
    downsample self 1 = Ok t
    /\ VImage.shrink (image self) (1 # 2) (1 # 2) = Ok (image t)
    /\ image_width t = image_width self / 2
    /\ image_height t = image_height self / 2
    /\ offset t = XY.mk (inject_Z a) (inject_Z b)
    /\ resolution t = resolution self - 1
    /\ tile_width t = tile_width self
    /\ tile_height t = tile_height self.
Proof. exact (downsample_halves self a b). Qed.

Lemma downsample_exact_witness :
  exists t,
    downsample (mk (VImage.Load "bluemarble.tif" 1024 1024) 256 256
                   (XY.mk 0 0) 2) 1
    = Ok t
    /\ VImage.shrink (VImage.Load "bluemarble.tif" 1024 1024) (1 # 2) (1 # 2)
       = Ok (image t)
    /\ image_width t = 1024 / 2
    /\ image_height t = 1024 / 2
    /\ offset t = XY.mk (inject_Z 0) (inject_Z 0)
    /\ resolution t = 2 - 1
    /\ tile_width t = 256
    /\ tile_height t = 256.
Proof.
  apply (downsample_exact
           (mk (VImage.Load "bluemarble.tif" 1024 1024) 256 256
               (XY.mk 0 0) 2) 0 0);
    [discriminate | discriminate | discriminate | exists 2; reflexivity
    | exists 2; reflexivity | reflexivity | reflexivity].
Defined.

(** A multiple of half a tile leaves a remainder of nothing or half a
    tile. *)
Lemma half_tile_mod (k h : Z) :
  0 < h -> (k * h) mod (2 * h) = 0 \/ (k * h) mod (2 * h) = h.
Proof.
  intros Hh.
  pose proof (Z.div_mod k 2 ltac:(lia)) as Hk.
  pose proof (Z.mod_pos_bound k 2 ltac:(lia)) as Hb.
  replace (k * h) with ((k mod 2) * h + (k / 2) * (2 * h)) by nia.
  rewrite Z_mod_plus_full.
  assert (Hcase : k mod 2 = 0 \/ k mod 2 = 1) by lia.
  destruct Hcase as [-> | ->].
  - left. rewrite Z.mul_0_l. apply Z.mod_0_l. lia.
  - right. rewrite Z.mul_1_l. apply Z.mod_small. lia.
Qed.

(** X16: with even tile sides, [downsample()] of a level above zoom 0 whose
    image is a whole number of tiles and whose offset is integer-valued
    never cuts the shrunk image: the new level holds the shrunk image
    either as it is or embedded at a position [(x, y)] where it lies
    entirely inside the canvas. *)
Theorem downsample_keeps_image (self : TmsTiles.t) (hw hh : Z) :
  0 < hw -> 0 < hh ->
  tile_width self = 2 * hw -> tile_height self = 2 * hh ->
  1 <= resolution self ->
  (tile_width self | image_width self) ->
  (tile_height self | image_height self) ->
  integer_offset (offset self) ->
  exists t shrunk,
    downsample self 1 = Ok t
    /\ VImage.shrink (image self) (1 # 2) (1 # 2) = Ok shrunk
    /\ (image t = shrunk
        \/ exists x y,
             image t = VImage.Embed 0 x y (image_width t) (image_height t)
                         shrunk
             /\ 0 <= x /\ x + VImage.Xsize shrunk <= image_width t
             /\ 0 <= y /\ y + VImage.Ysize shrunk <= image_height t).
Proof.
  intros Hhw Hhh Htw Hth Hres [kw HdW] [kh HdH] (ox & oy & Hox & Hoy).
  assert (Hw : tile_width self <> 0) by lia.
  assert (Hh : tile_height self <> 0) by lia.
  destruct (downsample_one self Hres Hw Hh)
    as (t & Hds & (shrunk & Hshr & Hal & Ht) & _).
  cbv zeta in Hal, Ht.
  set (off := XY.mk (XY.x (offset self) / 2) (XY.y (offset self) / 2)) in *.
  exists t, shrunk. split; [exact Hds|]. split; [exact Hshr|].
  destruct (shrink_ok _ _ _ _ Hshr) as (_ & _ & Hscale).
  assert (HX : VImage.Xsize shrunk = kw * hw).
  { rewrite Hscale. cbn [VImage._scale VImage.Xsize].
    fold (image_width self). rewrite HdW, Htw.
    replace (kw * (2 * hw)) with (kw * hw * 2) by ring. apply int_half. }
  assert (HY : VImage.Ysize shrunk = kh * hh).
  { rewrite Hscale. cbn [VImage._scale VImage.Ysize].
    fold (image_height self). rewrite HdH, Hth.
    replace (kh * (2 * hh)) with (kh * hh * 2) by ring. apply int_half. }
  assert (Hpx : pixel_x (tile_width self) off = (ox * hw) mod (2 * hw)).
  { unfold pixel_x. rewrite Htw. f_equal. apply int_round_integer.
    unfold off. cbn [XY.x]. rewrite Hox, !inject_Z_mult.
    change (inject_Z 2) with 2%Q. field. }
  assert (Hpy : pixel_y shrunk (tile_height self) off
                = ((kh - oy) * hh) mod (2 * hh)).
  { unfold pixel_y. rewrite Hth, HY. f_equal. apply int_round_integer.
    unfold off. cbn [XY.y]. rewrite Hoy. unfold Z.sub.
    rewrite !inject_Z_mult, inject_Z_plus, inject_Z_opp.
    change (inject_Z 2) with 2%Q. field. }
  destruct (tms_align_result shrunk (tile_width self) (tile_height self) off
              Hw Hh) as (r & Hr & HrX & HrY & Hshape).
  rewrite Hr in Hal. injection Hal as Himg.
  unfold image_width, image_height. rewrite <- Himg.
  destruct Hshape as [-> | Hemb]; [left; reflexivity | right].
  exists (pixel_x (tile_width self) off),
         (pixel_y shrunk (tile_height self) off).
  split; [exact Hemb|]. rewrite HrX, HrY, Hpx, Hpy, Htw, Hth, HX, HY.
  pose proof (Z.mod_pos_bound (ox * hw) (2 * hw) ltac:(lia)) as Bx.
  pose proof (Z.mod_pos_bound ((kh - oy) * hh) (2 * hh) ltac:(lia)) as By.
  pose proof (half_tile_mod ox hw Hhw) as Cx.
  pose proof (half_tile_mod (kh - oy) hh Hhh) as Cy.
  pose proof (half_tile_mod kw hw Hhw) as Dx.
  pose proof (half_tile_mod kh hh Hhh) as Dy.
  repeat split; try lia.
  - apply aligned_side_fits; lia.
  - apply aligned_side_fits; lia.
Qed.

Lemma downsample_keeps_image_witness :
  exists t shrunk,
    downsample (mk (VImage.Load "aligned.tif" 256 256) 256 256
                   (XY.mk 1 1) 2) 1
    = Ok t
    /\ VImage.shrink (VImage.Load "aligned.tif" 256 256) (1 # 2) (1 # 2)
       = Ok shrunk
    /\ (image t = shrunk
        \/ exists x y,
             image t = VImage.Embed 0 x y (image_width t) (image_height t)
                         shrunk
             /\ 0 <= x /\ x + VImage.Xsize shrunk <= image_width t
             /\ 0 <= y /\ y + VImage.Ysize shrunk <= image_height t).
Proof.
  apply (downsample_keeps_image
           (mk (VImage.Load "aligned.tif" 256 256) 256 256 (XY.mk 1 1) 2)
           128 128);
    [reflexivity | reflexivity | reflexivity | reflexivity | discriminate
    | exists 1; reflexivity | exists 1; reflexivity
    | exists 1, 1; split; reflexivity].
Defined.

End ResamplingMore.

(** ** More on TmsPyramid *)

Section PyramidMore.

Import TmsPyramid.

Lemma down_chain_tile_sides (prev : TmsTiles.t) (downs : list TmsTiles.t) :
  down_chain prev downs ->
  Forall (fun t => TmsTiles.tile_width t = TmsTiles.tile_width prev
                   /\ TmsTiles.tile_height t = TmsTiles.tile_height prev)
         downs.
Proof.
  induction 1 as [prev | prev cur rest _ Hhalf _ IH]; constructor.
  - destruct Hhalf as (shrunk & _ & _ & ->). cbn. auto.
  - destruct Hhalf as (shrunk & _ & _ & Hcur).
    assert (Hw : TmsTiles.tile_width cur = TmsTiles.tile_width prev)
      by (rewrite Hcur; reflexivity).
    assert (Hh : TmsTiles.tile_height cur = TmsTiles.tile_height prev)
      by (rewrite Hcur; reflexivity).
    rewrite <- Hw, <- Hh. exact IH.
Qed.

Lemma up_level_tile_sides (native : TmsTiles.t) (zs : list Z)
  (ups : list TmsTiles.t) :
  Forall2 (up_level native) zs ups ->
  Forall (fun t => TmsTiles.tile_width t = TmsTiles.tile_width native
                   /\ TmsTiles.tile_height t = TmsTiles.tile_height native)
         ups
  /\ map TmsTiles.resolution ups = zs.
Proof.
  induction 1 as [|z up zs ups (_ & (s & _ & _ & Hup) & Hz) _ [IH1 IH2]].
  - split; [constructor | reflexivity].
  - split.
    + constructor; [|exact IH1]. rewrite Hup. cbn. auto.
    + cbn [map]. congruence.
Qed.

(** The calls of one level are calls a pyramid may make. *)
Lemma level_calls_pyramid (borders : Z -> list (Z * Z)) (t : TmsTiles.t)
  (T lo hi : Z) :
  TmsTiles.tile_width t = T -> TmsTiles.tile_height t = T ->
  lo <= TmsTiles.resolution t <= hi ->
  Forall (fun c => pyramid_call T lo hi c /\ c <> Storage.waitall)
         (level_calls borders t).
Proof.
  intros Hw Hh Hz. unfold level_calls. apply Forall_app. split.
  - unfold border_calls. apply Forall_forall. intros c Hc.
    apply in_map_iff in Hc. destruct Hc as ([x y] & <- & _).
    split; [exact Hz | discriminate].
  - apply slice_calls_Forall. intros x y _ _.
    unfold TmsTiles.tile_call, VImage.extract_area. cbn.
    split; [auto | discriminate].
Qed.

Lemma levels_calls_pyramid (borders : Z -> list (Z * Z))
  (levels : list TmsTiles.t) (T lo hi : Z) :
  Forall (fun t => TmsTiles.tile_width t = T
                   /\ TmsTiles.tile_height t = T) levels ->
  (forall z, In z (map TmsTiles.resolution levels) -> lo <= z <= hi) ->
  Forall (fun c => pyramid_call T lo hi c /\ c <> Storage.waitall)
         (flat_map (level_calls borders) levels).
Proof.
  intros Hsides Hz. induction Hsides as [|t levels [Hw Hh] _ IH];
    cbn [flat_map]; [constructor|].
  apply Forall_app. split.
  - apply level_calls_pyramid; try assumption.
    apply Hz. left. reflexivity.
  - apply IH. intros z Hin. apply Hz. right. exact Hin.
Qed.

(** X17: with a non-zero tile side, [TmsPyramid.slice] raises nothing but
    the resolution error; it raises it for every rejected pair of bounds,
    and then nothing has been submitted: the storage is as it was. *)
Theorem slice_fails_clean (TILE_SIDE : Z) (self : TmsPyramid.t)
  (st : Storage.t) :
  TILE_SIDE <> 0 ->
  (forall e st', slice TILE_SIDE self st = (Raise e, st') ->
     resolution_error e /\ st' = st)
  /\ (bad_resolutions (resolution self)
        (min_resolution self) (max_resolution self) ->
      exists e, slice TILE_SIDE self st = (Raise e, st)
                /\ resolution_error e).
Proof.
  intros HT.
  destruct (validate_cases self (min_resolution self) (max_resolution self))
    as [(Hbad & e & He & Hre) | (Hgood & Hok & _)].
  - assert (Hs : slice TILE_SIDE self st = (Raise e, st)).
    { unfold slice, mbind, lift. now rewrite He. }
    split.
    + intros e' st' Hs'. rewrite Hs in Hs'. injection Hs' as <- <-. auto.
    + intros _. eauto.
  - destruct (slice_run TILE_SIDE HT self st Hok)
      as (? & ? & _ & _ & _ & Hrun).
    split.
    + intros e st' Hs. rewrite Hrun in Hs. discriminate Hs.
    + intros Hbad. contradiction.
Qed.

Lemma slice_fails_clean_witness :
  exists e,
    slice 256
      (TmsPyramid.mk
         (Dataset.mk 2 (Dataset.mk_extents (XY.mk 0 0) (XY.mk 4 4))
            (fun _ => [(0, 0)]))
         (VImage.Load "bluemarble.tif" 1024 1024) (Some 2) None)
      [Storage.waitall]
    = (Raise e, [Storage.waitall])
    /\ resolution_error e.
Proof.
  apply (slice_fails_clean 256
           (TmsPyramid.mk
              (Dataset.mk 2 (Dataset.mk_extents (XY.mk 0 0) (XY.mk 4 4))
                 (fun _ => [(0, 0)]))
              (VImage.Load "bluemarble.tif" 1024 1024) (Some 2) None)
           [Storage.waitall]);
    [discriminate|].
  left. exists 2. split; [reflexivity|]. cbn. lia.
Defined.

(** X18: with a non-zero tile side and accepted bounds, every call
    [TmsPyramid.slice] makes is a tile of [TILE_SIDE] x [TILE_SIDE] pixels
    or a border tile, at a zoom between [min_resolution] and
    [max_resolution] (the native zoom standing for a bound that is not
    given), except the last call, which is the only [waitall]. *)
Theorem slice_calls_invariant (TILE_SIDE : Z) (self : TmsPyramid.t)
  (st : Storage.t) :
  TILE_SIDE <> 0 ->
  _validate_resolutions self (min_resolution self) (max_resolution self)
  = Ok tt ->
  exists calls,
    slice TILE_SIDE self st = (Ok tt, st ++ calls ++ [Storage.waitall])
    /\ Forall (fun c =>
                 pyramid_call TILE_SIDE
                   (lowest_zoom (resolution self) (min_resolution self))
                   (highest_zoom (resolution self) (max_resolution self)) c
                 /\ c <> Storage.waitall)
              calls.
Proof.
  intros HT Hok.
  destruct (slice_run TILE_SIDE HT self st Hok)
    as (downs & ups & Hchain & Hzs & Hall & Hrun).
  destruct (validate_cases self (min_resolution self) (max_resolution self))
    as [(_ & e & He & _) | (_ & _ & Hmin & Hmax)]; [congruence|].
  set (borders := Dataset.GetWorldTmsBorders (dataset self)) in *.
  set (native := TmsTiles.mk _ _ _ _ _) in *.
  set (lo := lowest_zoom (resolution self) (min_resolution self)).
  set (hi := highest_zoom (resolution self) (max_resolution self)).
  assert (Hlo : lo <= resolution self).
  { unfold lo, lowest_zoom. destruct (min_resolution self) as [m|];
      [specialize (Hmin m eq_refl)|]; lia. }
  assert (Hhi : resolution self <= hi).
  { unfold hi, highest_zoom. destruct (max_resolution self) as [m|];
      [specialize (Hmax m eq_refl)|]; lia. }
  exists (level_calls borders native
          ++ flat_map (level_calls borders) downs
          ++ flat_map (level_calls borders) ups).
  split; [rewrite Hrun; now rewrite <- !app_assoc|].
  destruct (up_level_tile_sides _ _ _ Hall) as [Hupsides Hupz].
  apply Forall_app. split; [|apply Forall_app; split].
  - apply level_calls_pyramid; cbn; try reflexivity. lia.
  - apply levels_calls_pyramid.
    + exact (down_chain_tile_sides _ _ Hchain).
    + intros z Hz. rewrite Hzs in Hz. apply down_zooms_In in Hz.
      destruct Hz as (m & Hm & Hz). unfold lo, lowest_zoom.
      rewrite Hm. lia.
  - apply levels_calls_pyramid.
    + exact Hupsides.
    + intros z Hz. rewrite Hupz in Hz. apply up_zooms_In in Hz.
      destruct Hz as (m & Hm & Hz). unfold hi, highest_zoom.
      rewrite Hm. lia.
Qed.

Lemma slice_calls_invariant_witness :
  exists calls,
    slice 256 bluemarble [] = (Ok tt, [] ++ calls ++ [Storage.waitall])
    /\ Forall (fun c =>
                 pyramid_call 256
                   (lowest_zoom (resolution bluemarble)
                      (min_resolution bluemarble))
                   (highest_zoom (resolution bluemarble)
                      (max_resolution bluemarble)) c
                 /\ c <> Storage.waitall)
              calls.
Proof.
  apply (slice_calls_invariant 256 bluemarble []);
    [discriminate | reflexivity].
Defined.

(** X19: with a non-zero tile side, a pyramid with no [min_resolution]
    and with [max_resolution] absent or equal to the native resolution
    produces the native level alone: its borders, its tiles, then
    [waitall]. *)
Theorem slice_native_only (TILE_SIDE : Z) (self : TmsPyramid.t)
  (st : Storage.t) :
  TILE_SIDE <> 0 ->
  min_resolution self = None ->
  max_resolution self = None
  \/ max_resolution self = Some (resolution self) ->
  let native :=
    TmsTiles.mk (image self) TILE_SIDE TILE_SIDE
      (Dataset.lower_left (Dataset.GetTmsExtents (dataset self)))
      (resolution self) in
  slice TILE_SIDE self st
  = (Ok tt,
     st ++ border_calls
             (Dataset.GetWorldTmsBorders (dataset self) (resolution self))
             (resolution self)
        ++ slice_calls native
        ++ [Storage.waitall]).
Proof.
  intros HT Hmin Hmax native.
  assert (Hok : _validate_resolutions self (min_resolution self)
                  (max_resolution self) = Ok tt).
  { destruct (validate_cases self (min_resolution self)
                (max_resolution self))
      as [([(m & Hm & _) | (m & Hm & Hlt)] & _) | (_ & Hok & _)];
      [congruence | | exact Hok].
    destruct Hmax as [Hmax | Hmax]; rewrite Hmax in Hm;
      [discriminate | injection Hm as <-; lia]. }
  destruct (slice_run TILE_SIDE HT self st Hok)
    as (downs & ups & _ & Hzs & Hall & Hrun).
  rewrite Hmin in Hzs. cbn [down_zooms] in Hzs.
  apply map_eq_nil in Hzs. subst downs.
  assert (Hups : ups = []).
  { destruct Hmax as [Hmax | Hmax]; rewrite Hmax in Hall;
      cbn [up_zooms] in Hall.
    - inversion Hall. reflexivity.
    - rewrite range_nil in Hall by lia. inversion Hall. reflexivity. }
  subst ups. rewrite Hrun. cbn [flat_map app].
  unfold level_calls. cbn [TmsTiles.resolution].
  now rewrite <- !app_assoc.
Qed.

Lemma slice_native_only_witness :
  slice 256
    (TmsPyramid.mk
       (Dataset.mk 2 (Dataset.mk_extents (XY.mk 1 1) (XY.mk 2 2))
          (fun _ => [(0, 0)]))
       (VImage.Load "aligned.tif" 256 256) None (Some 2))
    []
  = (Ok tt,
     [] ++ border_calls [(0, 0)] 2
        ++ slice_calls
             (TmsTiles.mk (VImage.Load "aligned.tif" 256 256) 256 256
                (XY.mk 1 1) 2)
        ++ [Storage.waitall]).
Proof.
  apply (slice_native_only 256
           (TmsPyramid.mk
              (Dataset.mk 2 (Dataset.mk_extents (XY.mk 1 1) (XY.mk 2 2))
                 (fun _ => [(0, 0)]))
              (VImage.Load "aligned.tif" 256 256) None (Some 2))
           []);
    [discriminate | reflexivity | right; reflexivity].
Defined.

(** A level made by [tms_align] is a whole number of tiles. *)
Lemma aligned_image (im aligned : VImage.t) (tw th : Z) (off : XY.t) :
  tw <> 0 -> th <> 0 ->
  VImage.tms_align im tw th off = Ok aligned ->
  (tw | VImage.Xsize aligned) /\ (th | VImage.Ysize aligned).
Proof.
  intros Hw Hh Hal.
  destruct (tms_align_result im tw th off Hw Hh) as (r & Hr & HX & HY & _).
  rewrite Hr in Hal. injection Hal as <-. rewrite HX, HY.
  split; apply Z.divide_factor_r.
Qed.

Lemma down_chain_within (prev : TmsTiles.t) (downs : list TmsTiles.t)
  (borders : Z -> list (Z * Z)) :
  0 < TmsTiles.tile_width prev -> 0 < TmsTiles.tile_height prev ->
  down_chain prev downs ->
  Forall within_image (flat_map (level_calls borders) downs).
Proof.
  intros Hw Hh Hchain.
  induction Hchain as [prev | prev cur rest _ Hhalf _ IH];
    cbn [flat_map]; [constructor|].
  destruct Hhalf as (shrunk & _ & Hal & Hcur). cbv zeta in Hal.
  assert (Hw0 : TmsTiles.tile_width prev <> 0) by lia.
  assert (Hh0 : TmsTiles.tile_height prev <> 0) by lia.
  destruct (aligned_image _ _ _ _ _ Hw0 Hh0 Hal) as [HdW HdH].
  assert (Hcw : TmsTiles.tile_width cur = TmsTiles.tile_width prev)
    by (rewrite Hcur; reflexivity).
  assert (Hch : TmsTiles.tile_height cur = TmsTiles.tile_height prev)
    by (rewrite Hcur; reflexivity).
  apply Forall_app. split.
  - unfold level_calls. apply Forall_app. split.
    + unfold border_calls. apply Forall_forall. intros c Hc.
      apply in_map_iff in Hc. destruct Hc as ([x y] & <- & _). exact I.
    + apply slice_calls_within; unfold TmsTiles.image_width,
        TmsTiles.image_height; rewrite ?Hcw, ?Hch; assumption.
  - apply IH; lia.
Qed.

Lemma up_levels_within (native : TmsTiles.t) (zs : list Z)
  (ups : list TmsTiles.t) (borders : Z -> list (Z * Z)) :
  0 < TmsTiles.tile_width native -> 0 < TmsTiles.tile_height native ->
  Forall2 (up_level native) zs ups ->
  Forall within_image (flat_map (level_calls borders) ups).
Proof.
  intros Hw Hh Hall.
  induction Hall as [|z up zs ups (_ & (s & _ & Hal & Hup) & _) _ IH];
    cbn [flat_map]; [constructor|].
  cbv zeta in Hal.
  assert (Hw0 : TmsTiles.tile_width native <> 0) by lia.
  assert (Hh0 : TmsTiles.tile_height native <> 0) by lia.
  destruct (aligned_image _ _ _ _ _ Hw0 Hh0 Hal) as [HdW HdH].
  assert (Hcw : TmsTiles.tile_width up = TmsTiles.tile_width native)
    by (rewrite Hup; reflexivity).
  assert (Hch : TmsTiles.tile_height up = TmsTiles.tile_height native)
    by (rewrite Hup; reflexivity).
  apply Forall_app. split; [|exact IH].
  unfold level_calls. apply Forall_app. split.
  - unfold border_calls. apply Forall_forall. intros c Hc.
    apply in_map_iff in Hc. destruct Hc as ([x y] & <- & _). exact I.
  - apply slice_calls_within; unfold TmsTiles.image_width,
      TmsTiles.image_height; rewrite ?Hcw, ?Hch; assumption.
Qed.

(** X20: [TmsPyramid.slice] slices the native level without the check that
    [TmsTiles.slice] makes.  With a positive tile side, accepted bounds and
    a non-empty input image, every area it extracts, at every zoom, lies
    within the image of its level if and only if the width and height of
    the input image are whole multiples of the tile side; the resampled
    levels are always aligned, so only the native level can leave its
    image. *)
Theorem slice_within_images (TILE_SIDE : Z) (self : TmsPyramid.t)
  (st : Storage.t) :
  0 < TILE_SIDE ->
  _validate_resolutions self (min_resolution self) (max_resolution self)
  = Ok tt ->
  0 < VImage.Xsize (image self) -> 0 < VImage.Ysize (image self) ->
  exists calls,
    slice TILE_SIDE self st = (Ok tt, st ++ calls)
    /\ (Forall within_image calls
        <-> (TILE_SIDE | VImage.Xsize (image self))
            /\ (TILE_SIDE | VImage.Ysize (image self))).
Proof.
  intros HT Hok HW HH.
  destruct (slice_run TILE_SIDE ltac:(lia) self st Hok)
    as (downs & ups & Hchain & _ & Hall & Hrun).
  set (borders := Dataset.GetWorldTmsBorders (dataset self)) in *.
  set (native := TmsTiles.mk _ _ _ _ _) in *.
  eexists. split; [exact Hrun|].
  assert (Hrest : Forall within_image
                    (flat_map (level_calls borders) downs
                     ++ flat_map (level_calls borders) ups
                     ++ [Storage.waitall])).
  { apply Forall_app. split; [|apply Forall_app; split].
    - now apply (down_chain_within native).
    - now apply (up_levels_within native _ _ borders HT HT Hall).
    - repeat constructor. }
  assert (Hborders : Forall within_image
                       (border_calls
                          (borders (TmsTiles.resolution native))
                          (TmsTiles.resolution native))).
  { unfold border_calls. apply Forall_forall. intros c Hc.
    apply in_map_iff in Hc. destruct Hc as ([x y] & <- & _). exact I. }
  split.
  - intros Hwithin. apply Forall_app in Hwithin.
    destruct Hwithin as [Hnative _]. unfold level_calls in Hnative.
    apply Forall_app in Hnative. destruct Hnative as [_ Hnative].
    exact (slice_calls_aligned_of_within native HT HT HW HH Hnative).
  - intros [HdW HdH]. apply Forall_app. split; [|exact Hrest].
    unfold level_calls. apply Forall_app. split; [exact Hborders|].
    now apply slice_calls_within.
Qed.

Lemma slice_within_images_witness :
  exists calls,
    slice 256
      (TmsPyramid.mk
         (Dataset.mk 2 (Dataset.mk_extents (XY.mk 0 0) (XY.mk 2 1))
            (fun _ => []))
         (VImage.Load "spanning.tif" 300 256) (Some 1) None)
      []
    = (Ok tt, [] ++ calls)
    /\ (Forall within_image calls <-> (256 | 300) /\ (256 | 256)).
Proof.
  apply (slice_within_images 256
           (TmsPyramid.mk
              (Dataset.mk 2 (Dataset.mk_extents (XY.mk 0 0) (XY.mk 2 1))
                 (fun _ => []))
              (VImage.Load "spanning.tif" 300 256) (Some 1) None)
           []);
    reflexivity.
Defined.

End PyramidMore.

(** ** A pyramid over the whole world *)

Section WorldPyramid.

Import TmsPyramid.

Variable T : Z.
Hypothesis T_pos : 0 < T.

Lemma world_level_down (prev cur : TmsTiles.t) :
  world_level T prev -> 1 <= TmsTiles.resolution prev ->
  TmsTiles.downsample prev 1 = Ok cur ->
  world_level T cur
  /\ TmsTiles.resolution cur = TmsTiles.resolution prev - 1.
Proof.
  intros (Hw & Hh & HW & HH & Hox & Hoy & Hz) Hres Hds.
  assert (Hpow : 2 ^ TmsTiles.resolution prev
                 = 2 * 2 ^ (TmsTiles.resolution prev - 1)).
  { rewrite <- Z.pow_succ_r by lia. f_equal. lia. }
  destruct (downsample_halves prev 0 0) as (t & Ht & _ & HtW & HtH & Hoff
                                            & Htres & Htw & Hth).
  - lia.
  - lia.
  - exact Hres.
  - rewrite HW, Hw, Hpow.
    exists (2 ^ (TmsTiles.resolution prev - 1)). ring.
  - rewrite HH, Hh, Hpow.
    exists (2 ^ (TmsTiles.resolution prev - 1)). ring.
  - exact Hox.
  - exact Hoy.
  - rewrite Ht in Hds. injection Hds as <-.
    split; [|exact Htres].
    unfold world_level. rewrite Htw, Hth, HtW, HtH, Hoff, Htres, HW, HH, Hpow.
    cbn [XY.x XY.y].
    replace (T * (2 * 2 ^ (TmsTiles.resolution prev - 1)))
      with (T * 2 ^ (TmsTiles.resolution prev - 1) * 2) by ring.
    rewrite Z.div_mul by discriminate.
    repeat split; try assumption; try reflexivity; lia.
Qed.

Lemma world_chain (prev : TmsTiles.t) (downs : list TmsTiles.t) :
  world_level T prev -> down_chain prev downs ->
  (forall z, In z (map TmsTiles.resolution downs) -> 0 <= z) ->
  Forall (world_level T) downs.
Proof.
  intros Hprev Hchain. revert Hprev.
  induction Hchain as [prev | prev cur rest Hds Hhalf _ IH];
    intros Hprev Hz; constructor.
  - assert (Hres : TmsTiles.resolution cur = TmsTiles.resolution prev - 1).
    { destruct Hhalf as (? & _ & _ & ->). reflexivity. }
    assert (H0 : 0 <= TmsTiles.resolution cur)
      by (apply Hz; left; reflexivity).
    apply (world_level_down prev cur Hprev ltac:(lia) Hds).
  - assert (Hres : TmsTiles.resolution cur = TmsTiles.resolution prev - 1).
    { destruct Hhalf as (? & _ & _ & ->). reflexivity. }
    assert (H0 : 0 <= TmsTiles.resolution cur)
      by (apply Hz; left; reflexivity).
    apply IH.
    + apply (world_level_down prev cur Hprev ltac:(lia) Hds).
    + intros z Hin. apply Hz. right. exact Hin.
Qed.

Lemma world_level_up (native up : TmsTiles.t) (levels : Z) :
  world_level T native -> 0 < levels ->
  TmsTiles.upsample native levels = Ok up ->
  world_level T up.
Proof.
  intros (Hw & Hh & HW & HH & Hox & Hoy & Hz) Hl Hup.
  destruct (upsample_scales native levels 0 0) as [_ Hex].
  - lia.
  - lia.
  - rewrite HW, Hw. apply Z.divide_factor_l.
  - rewrite HH, Hh. apply Z.divide_factor_l.
  - exact Hox.
  - exact Hoy.
  - destruct (Hex Hl) as (t & Ht & _ & HtW & HtH & Hoff & Htres & Htw & Hth).
    rewrite Ht in Hup. injection Hup as <-.
    unfold world_level.
    rewrite Htw, Hth, HtW, HtH, Hoff, Htres, HW, HH.
    cbn [XY.x XY.y]. rewrite Z.pow_add_r by lia.
    repeat split; try assumption; try reflexivity; try ring; lia.
Qed.

Lemma world_ups (native : TmsTiles.t) (zs : list Z) (ups : list TmsTiles.t) :
  world_level T native ->
  (forall z, In z zs -> TmsTiles.resolution native < z) ->
  Forall2 (up_level native) zs ups ->
  Forall (world_level T) ups.
Proof.
  intros Hnative Hzs Hall.
  induction Hall as [|z up zs ups (Hup & _ & _) _ IH]; constructor.
  - apply (world_level_up native up (z - TmsTiles.resolution native)
             Hnative); [|exact Hup].
    specialize (Hzs z (or_introl eq_refl)). lia.
  - apply IH. intros z' Hin. apply Hzs. right. exact Hin.
Qed.

Lemma saved_tiles_app (l1 l2 : Storage.t) :
  saved_tiles (l1 ++ l2) = saved_tiles l1 ++ saved_tiles l2.
Proof. unfold saved_tiles. apply flat_map_app. Qed.

Lemma saved_tiles_borders (bs : list (Z * Z)) (z : Z) :
  saved_tiles (border_calls bs z) = [].
Proof.
  induction bs as [|[x y] bs IH]; [reflexivity | exact IH].
Qed.

(** The tiles saved by calls that are all saves at zoom [z], through their
    addresses. *)
Lemma saved_tiles_at (z : Z) (l : Storage.t) :
  Forall (fun c => exists x y im, c = Storage.save x y z im) l ->
  (forall z' a b,
      In (z', a, b) (saved_tiles l)
      <-> z' = z /\ In (Some (a, b)) (map address l))
  /\ (NoDup (map address l) -> NoDup (saved_tiles l)).
Proof.
  induction 1 as [|c l (x & y & im & ->) _ [IHin IHnd]].
  - split; [|constructor]. intros z' a b. cbn. tauto.
  - assert (Hin : forall z' a b,
               In (z', a, b) (saved_tiles (Storage.save x y z im :: l))
               <-> z' = z
                   /\ In (Some (a, b))
                        (map address (Storage.save x y z im :: l))).
    { intros z' a b.
      change (saved_tiles (Storage.save x y z im :: l))
        with ((z, x, y) :: saved_tiles l).
      cbn [map address In]. rewrite IHin. split.
      - intros [[= <- <- <-] | [-> Hin]]; auto.
      - intros [-> [[= <- <-] | Hin]]; auto. }
    split; [exact Hin|].
    intros Hnd. cbn [map address] in Hnd.
    apply NoDup_cons_iff in Hnd. destruct Hnd as [Hnot Hnd].
    change (saved_tiles (Storage.save x y z im :: l))
      with ((z, x, y) :: saved_tiles l).
    constructor; [|now apply IHnd].
    intros Hc. apply IHin in Hc. tauto.
Qed.

(** The tiles of one world level: the whole square of its zoom, once. *)
Lemma saved_tiles_world_level (borders : Z -> list (Z * Z))
  (t : TmsTiles.t) :
  world_level T t ->
  NoDup (saved_tiles (level_calls borders t))
  /\ (forall z a b,
         In (z, a, b) (saved_tiles (level_calls borders t))
         <-> z = TmsTiles.resolution t
             /\ 0 <= a < 2 ^ z /\ 0 <= b < 2 ^ z).
Proof.
  intros (Hw & Hh & HW & HH & Hox & Hoy & Hz).
  unfold level_calls. rewrite saved_tiles_app, saved_tiles_borders.
  cbn [app].
  destruct (slice_calls_addresses t 0 0) as (Hnd & _ & Hin); try lia;
    try assumption.
  { rewrite HW, Hw. apply Z.divide_factor_l. }
  { rewrite HH, Hh. apply Z.divide_factor_l. }
  destruct (saved_tiles_at (TmsTiles.resolution t) (slice_calls t))
    as [Hsin Hsnd].
  { apply slice_calls_Forall. intros x y _ _.
    unfold TmsTiles.tile_call. eauto. }
  split; [now apply Hsnd|].
  intros z a b. rewrite Hsin, Hin.
  rewrite HW, HH, Hw, Hh.
  rewrite !(Z.mul_comm T), !Z.div_mul by lia.
  split.
  - intros (-> & Ha & Hb). repeat split; lia.
  - intros (-> & Ha & Hb). repeat split; lia.
Qed.

(** The tiles of several world levels at distinct zooms. *)
Lemma saved_tiles_world_levels (borders : Z -> list (Z * Z))
  (levels : list TmsTiles.t) :
  Forall (world_level T) levels ->
  NoDup (map TmsTiles.resolution levels) ->
  NoDup (saved_tiles (flat_map (level_calls borders) levels))
  /\ (forall z a b,
         In (z, a, b) (saved_tiles (flat_map (level_calls borders) levels))
         <-> In z (map TmsTiles.resolution levels)
             /\ 0 <= a < 2 ^ z /\ 0 <= b < 2 ^ z).
Proof.
  induction 1 as [|t levels Ht _ IH]; intros Hnd.
  - split; [constructor|]. intros z a b. cbn. tauto.
  - cbn [map] in Hnd. apply NoDup_cons_iff in Hnd.
    destruct Hnd as [Hnot Hnd]. destruct (IH Hnd) as [IHnd IHin].
    destruct (saved_tiles_world_level borders t Ht) as [Hlnd Hlin].
    cbn [flat_map]. rewrite saved_tiles_app. split.
    + apply NoDup_app; try assumption.
      intros [[z a] b] Hin1 Hin2.
      apply Hlin in Hin1. apply IHin in Hin2.
      destruct Hin1 as (-> & _). tauto.
    + intros z a b. rewrite in_app_iff, Hlin, IHin. cbn [map In].
      split.
      * intros [(-> & Hab) | (Hin & Hab)]; auto.
      * intros [[<- | Hin] Hab]; auto.
Qed.

(** The zooms of a validated pyramid, in the order they are produced. *)
Lemma pyramid_zooms (native : Z) (min max : option Z) :
  (forall m, min = Some m -> 0 <= m < native) ->
  (forall m, max = Some m -> native <= m) ->
  NoDup (native :: down_zooms native min ++ up_zooms native max)
  /\ (forall z,
         In z (native :: down_zooms native min ++ up_zooms native max)
         <-> lowest_zoom native min <= z <= highest_zoom native max).
Proof.
  intros Hmin Hmax.
  assert (Hrange : forall a b, NoDup (range a b)).
  { intros a b. unfold range.
    apply NoDup_map_NoDup_ForallPairs; [|apply seq_NoDup].
    intros i j _ _ Heq. lia. }
  split.
  - constructor.
    + rewrite in_app_iff, down_zooms_In, up_zooms_In.
      intros [(m & _ & Hz) | (m & _ & Hz)]; lia.
    + apply NoDup_app.
      * unfold down_zooms. destruct min; [|constructor].
        apply NoDup_rev, Hrange.
      * unfold up_zooms. destruct max; [|constructor]. apply Hrange.
      * intros z Hd Hu. apply down_zooms_In in Hd. apply up_zooms_In in Hu.
        destruct Hd as (? & _ & ?), Hu as (? & _ & ?). lia.
  - intros z. cbn [In]. rewrite in_app_iff, down_zooms_In, up_zooms_In.
    unfold lowest_zoom, highest_zoom.
    destruct min as [m|], max as [n|];
      try specialize (Hmin m eq_refl); try specialize (Hmax n eq_refl);
      split;
      try (intros [<- | [(? & [= <-] & ?) | (? & [= <-] & ?)]]; lia);
      try (intros [<- | [(? & [=] & ?) | (? & [= <-] & ?)]]; lia);
      try (intros [<- | [(? & [= <-] & ?) | (? & [=] & ?)]]; lia);
      try (intros [<- | [(? & [=] & ?) | (? & [=] & ?)]]; lia);
      intros Hz;
      destruct (Z.lt_total z native) as [Hlt | [Heq | Hgt]];
      try (left; lia);
      try (right; left; eexists; split; [reflexivity | lia]);
      try (right; right; eexists; split; [reflexivity | lia]);
      lia.
Qed.

End WorldPyramid.

Section WorldPyramidClaim.

Import TmsPyramid.

(** X21: a pyramid over the whole world.  Let the tile side be positive,
    the bounds accepted, the native zoom [z0 >= 0], the input image
    [TILE_SIDE * 2^z0] pixels wide and high and its lower-left tile
    [(0, 0)].  Then [TmsPyramid.slice] saves, at every zoom [z] from
    [min_resolution] to [max_resolution] (the native zoom standing for a
    bound that is not given), exactly the tiles [(x, y)] with
    [0 <= x, y < 2^z], each of them once, and no other tile. *)
Theorem slice_world_pyramid (TILE_SIDE : Z) (self : TmsPyramid.t)
  (st : Storage.t) :
  0 < TILE_SIDE ->
  _validate_resolutions self (min_resolution self) (max_resolution self)
  = Ok tt ->
  0 <= resolution self ->
  VImage.Xsize (image self) = TILE_SIDE * 2 ^ resolution self ->
  VImage.Ysize (image self) = TILE_SIDE * 2 ^ resolution self ->
  (XY.x (Dataset.lower_left (Dataset.GetTmsExtents (dataset self)))
   == inject_Z 0)%Q ->
  (XY.y (Dataset.lower_left (Dataset.GetTmsExtents (dataset self)))
   == inject_Z 0)%Q ->
  exists calls,
    slice TILE_SIDE self st = (Ok tt, st ++ calls)
    /\ NoDup (saved_tiles calls)
    /\ (forall z x y,
           In (z, x, y) (saved_tiles calls)
           <-> lowest_zoom (resolution self) (min_resolution self) <= z
               <= highest_zoom (resolution self) (max_resolution self)
               /\ 0 <= x < 2 ^ z /\ 0 <= y < 2 ^ z).
Proof.
  intros HT Hok Hz0 HW HH Hox Hoy.
  destruct (slice_run TILE_SIDE ltac:(lia) self st Hok)
    as (downs & ups & Hchain & Hzs & Hall & Hrun).
  destruct (validate_cases self (min_resolution self) (max_resolution self))
    as [(_ & e & He & _) | (_ & _ & Hmin & Hmax)]; [congruence|].
  set (borders := Dataset.GetWorldTmsBorders (dataset self)) in *.
  set (native := TmsTiles.mk _ _ _ _ _) in *.
  assert (Hnative : world_level TILE_SIDE native).
  { unfold world_level, native, TmsTiles.image_width, TmsTiles.image_height.
    cbn. auto 8. }
  assert (Hdowns : Forall (world_level TILE_SIDE) downs).
  { apply (world_chain TILE_SIDE HT native downs Hnative Hchain).
    intros z Hin. rewrite Hzs in Hin. apply down_zooms_In in Hin.
    destruct Hin as (m & Hm & Hz). specialize (Hmin m Hm). lia. }
  assert (Hups : Forall (world_level TILE_SIDE) ups).
  { apply (world_ups TILE_SIDE HT native
             (up_zooms (resolution self) (max_resolution self)) ups
             Hnative); [|exact Hall].
    intros z Hin. apply up_zooms_In in Hin.
    destruct Hin as (m & _ & Hz). cbn. lia. }
  destruct (up_level_tile_sides _ _ _ Hall) as [_ Hupz].
  assert (Hres : map TmsTiles.resolution (native :: downs ++ ups)
                 = resolution self
                   :: down_zooms (resolution self) (min_resolution self)
                   ++ up_zooms (resolution self) (max_resolution self)).
  { cbn [map]. rewrite map_app, Hzs, Hupz. reflexivity. }
  destruct (pyramid_zooms (resolution self) (min_resolution self)
              (max_resolution self) Hmin Hmax) as [Hznd Hzin].
  destruct (saved_tiles_world_levels TILE_SIDE HT borders
              (native :: downs ++ ups)) as [Hnd Hin].
  { constructor; [exact Hnative|]. apply Forall_app. auto. }
  { rewrite Hres. exact Hznd. }
  eexists. split; [exact Hrun|].
  assert (Hcalls : saved_tiles
                     (level_calls borders native
                      ++ flat_map (level_calls borders) downs
                      ++ flat_map (level_calls borders) ups
                      ++ [Storage.waitall])
                   = saved_tiles
                       (flat_map (level_calls borders)
                          (native :: downs ++ ups))).
  { cbn [flat_map]. rewrite flat_map_app, !saved_tiles_app.
    cbn. now rewrite app_nil_r. }
  rewrite Hcalls. split; [exact Hnd|].
  intros z x y. rewrite Hin, Hres, Hzin. reflexivity.
Qed.

Lemma slice_world_pyramid_witness :
  exists calls,
    slice 256 bluemarble [] = (Ok tt, [] ++ calls)
    /\ NoDup (saved_tiles calls)
    /\ (forall z x y,
           In (z, x, y) (saved_tiles calls)
           <-> lowest_zoom (resolution bluemarble) (min_resolution bluemarble)
               <= z
               <= highest_zoom (resolution bluemarble)
                    (max_resolution bluemarble)
               /\ 0 <= x < 2 ^ z /\ 0 <= y < 2 ^ z).
Proof.
  apply (slice_world_pyramid 256 bluemarble []);
    [reflexivity | reflexivity | discriminate | reflexivity | reflexivity
    | reflexivity | reflexivity].
Defined.

End WorldPyramidClaim.

(** ** LibVips *)

Section Concurrency.

Import LibVips.

Lemma cached_In (name : string) (self : LibVips.t) :
  cached name self = true <-> In name (functions self).
Proof.
  unfold cached. rewrite existsb_exists. split.
  - intros (k & Hin & Heq). apply String.eqb_eq in Heq. now subst.
  - intros Hin. exists name. split; [exact Hin | apply String.eqb_refl].
Qed.

(** X22: [set_concurrency] raises [ValueError] exactly when its argument is
    not an [int], [long] or [bool], or is negative, and then neither the
    cache of functions nor the library is touched; zero is accepted.
    Otherwise the library function is called exactly once, with
    [c_int(processes)]; afterwards it is in the cache, and a cache that
    already held it is left as it is. *)
Theorem set_concurrency_spec (self : LibVips.t) (processes : pyobj) :
  (is_int_or_long processes = false \/ int_value processes < 0 ->
   set_concurrency self processes = (inl (ValueError processes), self))
  /\ (is_int_or_long processes = true -> 0 <= int_value processes ->
      exists self',
        set_concurrency self processes = (inr tt, self')
        /\ foreign_calls self'
           = foreign_calls self
             ++ [("vips_concurrency_set"%string,
                  c_int (int_value processes))]
        /\ In "vips_concurrency_set"%string (functions self')
        /\ (forall name, In name (functions self) ->
                         In name (functions self'))
        /\ (In "vips_concurrency_set"%string (functions self) ->
            functions self' = functions self)).
Proof.
  unfold set_concurrency. split.
  - intros [Hty | Hneg].
    + now rewrite Hty.
    + rewrite (proj2 (Z.ltb_lt _ _) Hneg). now rewrite orb_true_r.
  - intros Hty Hpos. rewrite Hty.
    rewrite (proj2 (Z.ltb_ge _ _) Hpos). cbn [negb orb].
    eexists. split; [reflexivity|]. cbn [foreign_calls functions].
    split; [reflexivity|].
    destruct (cached "vips_concurrency_set" self) eqn:Ec.
    + apply cached_In in Ec. auto.
    + repeat split.
      * apply in_or_app. right. left. reflexivity.
      * intros name Hin. apply in_or_app. now left.
      * intros Hin. apply cached_In in Hin. congruence.
Qed.

Lemma set_concurrency_spec_witness :
  set_concurrency (LibVips.mk [] []) (PyFloat (3 # 2))
  = (inl (ValueError (PyFloat (3 # 2))), LibVips.mk [] []).
Proof.
  apply (set_concurrency_spec (LibVips.mk [] []) (PyFloat (3 # 2))).
  left. reflexivity.
Defined.

End Concurrency.
